(** * QIF parser (qif_parser.py): a shallow embedding and its properties

    The development follows the source file top to bottom:
    - [Re]: the fragment of Python's [re] engine that the twelve record
      patterns use (byte patterns, [re.M], anchored [match(text, pos)]);
    - [Py]: the builtins the casters call ([int], [float], [datetime.date],
      UTF-8 [encode]/[decode], [repr] of bytes);
    - [Qif]: the record patterns, the casters, [_recordize] and [parse]. *)

From Stdlib Require Import Strings.Byte.
From stdpp Require Import gmap strings list fin_maps pretty.

(** Python [bytes] are lists of bytes; a Python [str] is a list of code
    points. Dictionary keys and group names are identifiers of the source
    and are kept as Rocq strings. *)
Abbreviation bytes := (list byte).
Abbreviation pystr := (list N).

Definition bytes_of (s : string) : bytes := String.list_byte_of_string s.
Definition str_of (s : string) : pystr := map Byte.to_N (bytes_of s).

Definition LF : byte := x0a.
Definition CR : byte := x0d.

Definition byte_eqb (a b : byte) : bool := (Byte.to_N a =? Byte.to_N b)%N.

Definition is_digit (b : byte) : bool :=
  ((48 <=? Byte.to_N b) && (Byte.to_N b <=? 57))%N.

(** text[s:e] *)
Definition slice {A} (l : list A) (s e : nat) : list A := take (e - s) (drop s l).

(* ================================================================== *)
(** ** The regular-expression engine *)

Module Re.

(** Character sets: [.] (any byte but a line feed, as DOTALL is off)
    and bracket sets, whose items are literal bytes or [\d] (the ASCII
    digits, in a bytes pattern). *)
Inductive citem :=
| IByte (b : byte)
| IDigit.

Inductive cset :=
| Dot
| Set_ (items : list citem).

Definition citem_mem (i : citem) (b : byte) : bool :=
  match i with
  | IByte x => byte_eqb b x
  | IDigit => is_digit b
  end.

Definition cset_mem (c : cset) (b : byte) : bool :=
  match c with
  | Dot => negb (byte_eqb b LF)
  | Set_ items => existsb (λ i, citem_mem i b) items
  end.

(** The repetition operators of the QIF patterns ([*], [+], [{n}])
    only ever apply to a single-character set; [?] and [|] apply to
    arbitrary sub-patterns. Groups carry their name, [None] for a
    numbered group; [(?:...)] needs no node. [Eol] is [$] under
    [re.M]. *)
Inductive regex :=
| Chr (c : cset)
| Star (c : cset)
| Plus (c : cset)
| Count (n : nat) (c : cset)
| Opt (r : regex)
| Seq (r1 r2 : regex)
| Alt (r1 r2 : regex)
| Group (name : option string) (r : regex)
| Eol.

(** Marks set while matching: the span of every named group that
    took part, and the name of the group closed last ([lastgroup],
    which is [None] when that group is a numbered one). *)
Record marks := Marks {
  spans : gmap string (nat * nat);
  lastgroup : option string
}.

Definition no_marks : marks := Marks ∅ None.

Definition close_group (name : option string) (s e : nat) (g : marks) : marks :=
  match name with
  | Some n => Marks (<[n := (s, e)]> (spans g)) (Some n)
  | None => Marks (spans g) None
  end.

Section Matcher.
(** The matcher is written in continuation-passing style: [k] is the
    rest of the pattern, and a failing continuation makes the
    current operator try its next alternative, which is how the
    backtracking engine behaves. [l] is the text from the current
    position [p] on. *)
Context {R : Type}.
Abbreviation cont := (bytes → nat → marks → option R).

(** Greedy [c*]: take one more character first, give it back when
    the rest of the pattern fails. *)
Fixpoint star (c : cset) (l : bytes) (p : nat) (k : bytes → nat → option R)
  : option R :=
  match l with
  | b :: l' =>
      if cset_mem c b then
        match star c l' (S p) k with
        | Some r => Some r
        | None => k l p
        end
      else k l p
  | [] => k l p
  end.

Definition one (c : cset) (l : bytes) (p : nat) (k : bytes → nat → option R)
  : option R :=
  match l with
  | b :: l' => if cset_mem c b then k l' (S p) else None
  | [] => None
  end.

Fixpoint count (n : nat) (c : cset) (l : bytes) (p : nat)
    (k : bytes → nat → option R) : option R :=
  match n with
  | O => k l p
  | S n' => one c l p (λ l' p', count n' c l' p' k)
  end.

Fixpoint run (r : regex) (l : bytes) (p : nat) (g : marks) (k : cont)
  : option R :=
  match r with
  | Chr c => one c l p (λ l' p', k l' p' g)
  | Star c => star c l p (λ l' p', k l' p' g)
  | Plus c => one c l p (λ l' p', star c l' p' (λ l'' p'', k l'' p'' g))
  | Count n c => count n c l p (λ l' p', k l' p' g)
  | Opt r' =>
      match run r' l p g k with
      | Some x => Some x
      | None => k l p g
      end
  | Seq r1 r2 => run r1 l p g (λ l' p' g', run r2 l' p' g' k)
  | Alt r1 r2 =>
      match run r1 l p g k with
      | Some x => Some x
      | None => run r2 l p g k
      end
  | Group name r' => run r' l p g (λ l' p' g', k l' p' (close_group name p p' g'))
  | Eol =>
      match l with
      | [] => k l p g
      | b :: _ => if byte_eqb b LF then k l p g else None
      end
  end.
End Matcher.

(** The names of the named groups of a pattern, in pattern order. *)
Fixpoint group_names (r : regex) : list string :=
  match r with
  | Chr _ | Star _ | Plus _ | Count _ _ | Eol => []
  | Opt r' => group_names r'
  | Seq r1 r2 | Alt r1 r2 => group_names r1 ++ group_names r2
  | Group (Some n) r' => n :: group_names r'
  | Group None r' => group_names r'
  end.

(** A match object: [span()], the marks, and what [groupdict()] needs. *)
Record match_obj := Match {
  m_start : nat;
  m_end : nat;
  m_marks : marks
}.

(** [pattern.match(text, pos)]: the match must start at [pos] (clamped
    to the length of the text, as the engine does). *)
Definition match_at (r : regex) (text : bytes) (pos : nat) : option match_obj :=
  let start := pos `min` length text in
  run r (drop start text) start no_marks (λ _ e g, Some (Match start e g)).

(** The items of [m.groupdict()]: every named group of the pattern,
    with the bytes it matched, or [None] when it took no part. *)
Definition groupdict (r : regex) (text : bytes) (m : match_obj)
  : list (string * option bytes) :=
  map (λ n, (n, (λ '(s, e), slice text s e) <$> spans (m_marks m) !! n))
      (group_names r).

End Re.

(* ================================================================== *)
(** ** Exceptions and results *)

Inductive exn :=
| SyntaxError (msg : string)
| ValueError
| OverflowError
| KeyError (key : string)
| TypeError
| AttributeError
| UnicodeDecodeError
| UnicodeEncodeError.

Inductive result (A : Type) :=
| Ok (a : A)
| Raise (e : exn).
Arguments Ok {A} a.
Arguments Raise {A} e.

#[global] Instance result_ret : MRet result := λ A a, Ok a.
#[global] Instance result_fmap : FMap result := λ A B f x,
  match x with
  | Ok a => Ok (f a)
  | Raise e => Raise e
  end.
#[global] Instance result_bind : MBind result := λ A B f x,
  match x with
  | Ok a => f a
  | Raise e => Raise e
  end.

(** [v] when present, the given exception otherwise. *)
Definition or_raise {A} (e : exn) (o : option A) : result A :=
  match o with
  | Some a => Ok a
  | None => Raise e
  end.

(* ================================================================== *)
(** ** The Python builtins the parser calls *)

Module Py.

(** Code points for which [str.isspace()] holds; [int] and [float]
    strip them on both sides. *)
Definition is_space (c : N) : bool :=
  ((9 <=? c) && (c <=? 13) || (28 <=? c) && (c <=? 32) || (c =? 133) || (c =? 160)
   || (c =? 5760) || (8192 <=? c) && (c <=? 8202) || (c =? 8232) || (c =? 8233)
   || (c =? 8239) || (c =? 8287) || (c =? 12288))%N.

Fixpoint lstrip (s : pystr) : pystr :=
  match s with
  | c :: s' => if is_space c then lstrip s' else s
  | [] => []
  end.

Definition strip (s : pystr) : pystr := rev (lstrip (rev (lstrip s))).

Definition is_digit_cp (c : N) : bool := ((48 <=? c) && (c <=? 57))%N.

(** The digits at the front of [s], and what follows them. *)
Fixpoint span_digits (s : pystr) : pystr * pystr :=
  match s with
  | c :: s' =>
      if is_digit_cp c then let '(ds, r) := span_digits s' in (c :: ds, r)
      else ([], s)
  | [] => ([], [])
  end.

Definition digits_value (ds : pystr) : N :=
  foldl (λ acc c, 10 * acc + (c - 48))%N 0%N ds.

(** An optional sign: whether it is a minus, and the rest. *)
Definition split_sign (s : pystr) : bool * pystr :=
  match s with
  | 45%N :: r => (true, r)
  | 43%N :: r => (false, r)
  | _ => (false, s)
  end.

(** [int(s)] for a string in decimal notation: surrounding white space,
    an optional sign, one or more ASCII digits. [None] is [ValueError].
    (Underscores and the decimal digits of other scripts, which [int]
    also reads, cannot be captured by [\d] in a bytes pattern and are
    left out.) *)
Definition int (s : pystr) : option Z :=
  let '(neg, r) := split_sign (strip s) in
  let '(ds, rest) := span_digits r in
  match ds, rest with
  | _ :: _, [] =>
      let v := Z.of_N (digits_value ds) in Some (if neg then (- v)%Z else v)
  | _, _ => None
  end.

(** A float is kept as the decimal number its text denotes,
    [(-1)^neg * coef / 10^scale]; Python then rounds that number to the
    nearest binary64 value, which the embedding leaves abstract. *)
Record pyfloat := Decimal {
  f_neg : bool;
  f_coef : N;
  f_scale : nat
}.

(** [float(s)] for a string in plain decimal notation: surrounding
    white space, an optional sign, digits, an optional point and
    fraction digits, with at least one digit overall. [None] is
    [ValueError]. (Exponents, [inf], [nan], underscores and non-ASCII
    digits, which [float] also reads, cannot be captured by the amount
    group of a pattern and are left out.) *)
Definition float (s : pystr) : option pyfloat :=
  let '(neg, r) := split_sign (strip s) in
  let '(ip, r1) := span_digits r in
  match r1 with
  | [] =>
      match ip with
      | [] => None
      | _ => Some (Decimal neg (digits_value ip) 0)
      end
  | 46%N :: r2 =>
      let '(fp, r3) := span_digits r2 in
      match r3, ip ++ fp with
      | [], _ :: _ => Some (Decimal neg (digits_value (ip ++ fp)) (length fp))
      | _, _ => None
      end
  | _ => None
  end.

(** [s.replace(old, "")] for a one-character [old]. *)
Definition remove_char (old : N) (s : pystr) : pystr :=
  filter (λ c, c ≠ old) s.

(** *** [datetime.date] *)

Record date := Date {
  year : Z;
  month : Z;
  day : Z
}.

Definition is_leap (y : Z) : bool :=
  ((y mod 4 =? 0) && (negb (y mod 100 =? 0) || (y mod 400 =? 0)))%Z.

Definition days_in_month (y m : Z) : Z :=
  if (m =? 2)%Z then (if is_leap y then 29 else 28)%Z
  else if ((m =? 4) || (m =? 6) || (m =? 9) || (m =? 11))%Z then 30%Z
  else 31%Z.

Definition fits_c_int (x : Z) : bool := ((-2147483648 <=? x) && (x <=? 2147483647))%Z.

(** [datetime.date(y, m, d)]: the arguments are read as C ints
    ([OverflowError] otherwise), the year lies in [1..9999], the month
    in [1..12] and the day within the month ([ValueError] otherwise). *)
Definition date_new (y m d : Z) : result date :=
  if negb (fits_c_int y && fits_c_int m && fits_c_int d) then Raise OverflowError
  else if ((1 <=? y) && (y <=? 9999) && (1 <=? m) && (m <=? 12)
           && (1 <=? d) && (d <=? days_in_month y m))%Z
  then Ok (Date y m d)
  else Raise ValueError.

(** *** UTF-8 *)

Definition byte_of (n : N) : byte := default x00 (Byte.of_N n).

(** [s.encode('utf-8')] for one code point: surrogates cannot be
    encoded ([UnicodeEncodeError]). *)
Definition utf8_encode_cp (c : N) : option bytes :=
  (if c <? 128 then Some [byte_of c]
   else if c <? 2048 then Some [byte_of (192 + c / 64); byte_of (128 + c mod 64)]
   else if (55296 <=? c) && (c <=? 57343) then None
   else if c <? 65536 then
     Some [byte_of (224 + c / 4096); byte_of (128 + (c / 64) mod 64);
           byte_of (128 + c mod 64)]
   else if c <? 1114112 then
     Some [byte_of (240 + c / 262144); byte_of (128 + (c / 4096) mod 64);
           byte_of (128 + (c / 64) mod 64); byte_of (128 + c mod 64)]
   else None)%N.

Fixpoint utf8_encode (s : pystr) : option bytes :=
  match s with
  | [] => Some []
  | c :: s' => b ← utf8_encode_cp c; bs ← utf8_encode s'; Some (b ++ bs)
  end.

Definition is_cont (n : N) : bool := ((128 <=? n) && (n <=? 191))%N.

(** The second byte of a three-byte form: no overlong forms after
    [E0], no surrogates after [ED]. *)
Definition second3 (n1 n2 : N) : bool :=
  (if n1 =? 224 then (160 <=? n2) && (n2 <=? 191)
   else if n1 =? 237 then (128 <=? n2) && (n2 <=? 159)
   else is_cont n2)%N.

(** The second byte of a four-byte form: no overlong forms after
    [F0], nothing above U+10FFFF after [F4]. *)
Definition second4 (n1 n2 : N) : bool :=
  (if n1 =? 240 then (144 <=? n2) && (n2 <=? 191)
   else if n1 =? 244 then (128 <=? n2) && (n2 <=? 143)
   else is_cont n2)%N.

(** [b.decode('utf-8')], strict: [None] is [UnicodeDecodeError]. *)
Fixpoint utf8_decode (l : bytes) : option pystr :=
  match l with
  | [] => Some []
  | b1 :: l1 =>
      let n1 := Byte.to_N b1 in
      if (n1 <? 128)%N then cons n1 <$> utf8_decode l1
      else
        match l1 with
        | [] => None
        | b2 :: l2 =>
            let n2 := Byte.to_N b2 in
            if ((194 <=? n1) && (n1 <=? 223))%N then
              if is_cont n2
              then cons ((n1 - 192) * 64 + (n2 - 128))%N <$> utf8_decode l2
              else None
            else
              match l2 with
              | [] => None
              | b3 :: l3 =>
                  let n3 := Byte.to_N b3 in
                  if ((224 <=? n1) && (n1 <=? 239))%N then
                    if second3 n1 n2 && is_cont n3
                    then cons ((n1 - 224) * 4096 + (n2 - 128) * 64 + (n3 - 128))%N
                           <$> utf8_decode l3
                    else None
                  else
                    match l3 with
                    | [] => None
                    | b4 :: l4 =>
                        let n4 := Byte.to_N b4 in
                        if ((240 <=? n1) && (n1 <=? 244))%N then
                          if second4 n1 n2 && is_cont n3 && is_cont n4
                          then cons ((n1 - 240) * 262144 + (n2 - 128) * 4096
                                     + (n3 - 128) * 64 + (n4 - 128))%N
                                 <$> utf8_decode l4
                          else None
                        else None
                    end
              end
        end
  end.

(** *** [repr] of bytes and [str.format] *)

Definition hex_digit (n : N) : byte :=
  byte_of (if n <? 10 then 48 + n else 87 + n)%N.

Definition QUOTE : byte := x27.
Definition DQUOTE : byte := x22.
Definition BACKSLASH : byte := x5c.

Definition repr_byte (quote b : byte) : bytes :=
  let n := Byte.to_N b in
  if byte_eqb b quote || byte_eqb b BACKSLASH then [BACKSLASH; b]
  else if (n =? 9)%N then [BACKSLASH; "t"%byte]
  else if (n =? 10)%N then [BACKSLASH; "n"%byte]
  else if (n =? 13)%N then [BACKSLASH; "r"%byte]
  else if ((n <? 32) || (127 <=? n))%N
  then [BACKSLASH; "x"%byte; hex_digit (n / 16); hex_digit (n mod 16)]
  else [b].

(** [repr(b)]: [b'...'], with double quotes instead when the bytes
    hold a single quote and no double quote. *)
Definition bytes_repr (l : bytes) : string :=
  let quote :=
    if existsb (byte_eqb QUOTE) l && negb (existsb (byte_eqb DQUOTE) l)
    then DQUOTE else QUOTE in
  String.string_of_list_byte
    ("b"%byte :: quote :: (l ≫= repr_byte quote) ++ [quote]).

End Py.

(* ================================================================== *)
(** ** qif_parser.py *)

Module Qif.
Import Re.

(** *** Transaction record syntax

    Each pattern is given with the source's text (a blank separates
    a star from a closing parenthesis that follows it). *)

Definition ch (b : byte) : regex := Chr (Set_ [IByte b]).
Arguments ch b%_byte.

Infix "⋅" := Seq (at level 41, right associativity).

Definition digit : cset := Set_ [IDigit].

(** The end of every pattern, "[\r]?$". *)
Definition line_end : regex := Opt (ch CR) ⋅ Eol.

(** "-?[\d,]+(\.[\d]+)?" *)
Definition amount_re : regex :=
  Opt (ch "-") ⋅ Plus (Set_ [IDigit; IByte ","]) ⋅ Opt (Group None (ch "." ⋅ Plus digit)).

(** "(?P<X>X(?P<value>.* ))[\r]?$", for the one-line records with a free-text value *)
Definition value_line (name : string) (marker : byte) : regex :=
  Group (Some name) (ch marker ⋅ Group (Some "value") (Star Dot)) ⋅ line_end.

(** "(?P<HEADER>!Type(?P<type>.* ))[\r]?$" *)
Definition HEADER : regex :=
  Group (Some "HEADER")
    (ch "!" ⋅ ch "T" ⋅ ch "y" ⋅ ch "p" ⋅ ch "e" ⋅ Group (Some "type") (Star Dot))
  ⋅ line_end.

(** "(?P<DATE>D(?P<month>[ 01]?[\d])/(?P<day>[ 0123][\d])((\'(?P<year_short>[ ]?\d[\d]?))|(/(?P<year_long>[\d]{4}))))[\r]?$" *)
Definition DATE : regex :=
  Group (Some "DATE")
    (ch "D"
     ⋅ Group (Some "month")
         (Opt (Chr (Set_ [IByte " "; IByte "0"; IByte "1"])) ⋅ Chr digit)
     ⋅ ch "/"
     ⋅ Group (Some "day")
         (Chr (Set_ [IByte " "; IByte "0"; IByte "1"; IByte "2"; IByte "3"]) ⋅ Chr digit)
     ⋅ Group None
         (Alt
            (Group None
               (ch "'" ⋅ Group (Some "year_short")
                           (Opt (ch " ") ⋅ Chr digit ⋅ Opt (Chr digit))))
            (Group None
               (ch "/" ⋅ Group (Some "year_long") (Count 4 digit)))))
  ⋅ line_end.

(** "(?P<T_AMOUNT>T(?P<amount>-?[\d,]+(\.[\d]+)?))[\r]?$" *)
Definition T_AMOUNT : regex :=
  Group (Some "T_AMOUNT") (ch "T" ⋅ Group (Some "amount") amount_re) ⋅ line_end.

(** "(?P<U_AMOUNT>U(?P<amount>-?[\d,]+(\.[\d]+)?))[\r]?$" *)
Definition U_AMOUNT : regex :=
  Group (Some "U_AMOUNT") (ch "U" ⋅ Group (Some "amount") amount_re) ⋅ line_end.

(** "(?P<CLEARED>C(?P<value>[\*cXR]))[\r]?$" *)
Definition CLEARED : regex :=
  Group (Some "CLEARED")
    (ch "C" ⋅ Group (Some "value")
                (Chr (Set_ [IByte "*"; IByte "c"; IByte "X"; IByte "R"])))
  ⋅ line_end.

Definition PAYEE : regex := value_line "PAYEE" "P".
Definition MEMO : regex := value_line "MEMO" "M".
Definition CATEGORY : regex := value_line "CATEGORY" "L".
Definition ADDRESS : regex := value_line "ADDRESS" "A".
Definition N_REC : regex := value_line "N_REC" "N".

(** "(?P<SPLIT>S(?P<category>.* )[\r]?\n(?:E(?P<memo>.* )[\r]?\n)?\$(?P<amount>-?[\d,]+(\.[\d]+)?))[\r]?$" *)
Definition SPLIT : regex :=
  Group (Some "SPLIT")
    (ch "S" ⋅ Group (Some "category") (Star Dot) ⋅ Opt (ch CR) ⋅ ch LF
     ⋅ Opt (ch "E" ⋅ Group (Some "memo") (Star Dot) ⋅ Opt (ch CR) ⋅ ch LF)
     ⋅ ch "$" ⋅ Group (Some "amount") amount_re)
  ⋅ line_end.

(** "(?P<END>\^)[\r]?$" *)
Definition END : regex := Group (Some "END") (ch "^") ⋅ line_end.

Definition TTYPE_NORMAL : string := "NORMAL".
Definition TTYPE_SPLIT : string := "SPLIT".

(** The values a record's dictionary holds: captured text (or [None]
    for a group that took no part) before casting, typed values after. *)
Inductive pyval :=
| VNone
| VStr (s : pystr)
| VFloat (f : Py.pyfloat)
| VDate (d : Py.date).

Record QIFRecord := mkRecord {
  type : option string;
  value_dict : gmap string pyval
}.

Record QIFTransaction := mkTransaction {
  ttype : string;
  records : list QIFRecord
}.

Definition _qif_record_regexes : list regex :=
  [HEADER; DATE; T_AMOUNT; U_AMOUNT; CLEARED; PAYEE; MEMO; CATEGORY;
   ADDRESS; N_REC; SPLIT; END].

(** *** The casters *)

(** [d[key]] *)
Definition getitem (d : gmap string pyval) (key : string) : result pyval :=
  or_raise (KeyError key) (d !! key).

(** [int(v)] *)
Definition int_of (v : pyval) : result Z :=
  match v with
  | VStr s => or_raise ValueError (Py.int s)
  | VFloat f =>
      let q := (Z.of_N (Py.f_coef f) / 10 ^ Z.of_nat (Py.f_scale f))%Z in
      Ok (if Py.f_neg f then (- q)%Z else q)
  | VNone | VDate _ => Raise TypeError
  end.

(** [float(v.replace(",", ""))] *)
Definition float_without_commas (v : pyval) : result Py.pyfloat :=
  match v with
  | VStr s => or_raise ValueError (Py.float (Py.remove_char 44 s))
  | VNone | VFloat _ | VDate _ => Raise AttributeError
  end.

(** ['k' in d and d['k'] is not None] *)
Definition present (d : gmap string pyval) (key : string) : option pyval :=
  match d !! key with
  | Some VNone | None => None
  | Some v => Some v
  end.

Definition _cast_date (record : QIFRecord) : result QIFRecord :=
  let d := value_dict record in
  month ← getitem d "month" ≫= int_of;
  day ← getitem d "day" ≫= int_of;
  year ←
    match present d "year_short" with
    | Some v =>
        (* short year is only 1 or 2 digits, so it represents a 50 year period *)
        year ← int_of v;
        Ok (if (year <=? 50)%Z then (year + 2000)%Z
            else if (year >? 50)%Z then (year + 1900)%Z
            else year)
    | None => getitem d "year_long" ≫= int_of
    end;
  date_val ← Py.date_new year month day;
  Ok (mkRecord (type record) {[ "date" := VDate date_val ]}).

Definition _cast_amount (record : QIFRecord) : result QIFRecord :=
  let d := value_dict record in
  amount ← getitem d "amount" ≫= float_without_commas;
  Ok (mkRecord (type record) {[ "amount" := VFloat amount ]}).

Definition _cast_split (record : QIFRecord) : result QIFRecord :=
  let d := value_dict record in
  category ← getitem d "category";
  amount ← getitem d "amount" ≫= float_without_commas;
  let sub_dict : gmap string pyval :=
    <[ "amount" := VFloat amount ]> {[ "category" := category ]} in
  Ok (mkRecord (type record)
        match present d "memo" with
        | Some memo => <[ "memo" := memo ]> sub_dict
        | None => sub_dict
        end).

Definition _cast_general (record : QIFRecord) : result QIFRecord :=
  value ← getitem (value_dict record) "value";
  Ok (mkRecord (type record) {[ "value" := value ]}).

Definition _record_casts : gmap string (QIFRecord → result QIFRecord) :=
  list_to_map
    [("DATE", _cast_date); ("T_AMOUNT", _cast_amount); ("U_AMOUNT", _cast_amount);
     ("CLEARED", _cast_general); ("PAYEE", _cast_general); ("MEMO", _cast_general);
     ("CATEGORY", _cast_general); ("ADDRESS", _cast_general);
     ("N_REC", _cast_general); ("SPLIT", _cast_split)].

(** *** The record scanner *)

(** How an iteration ends: the generator is exhausted, or an exception
    leaves it. [OutOfFuel] belongs to the embedding only: the loops of
    the source are run with a bound, shown below never to be reached. *)
Inductive ending :=
| Exhausted
| Raised (e : exn)
| OutOfFuel.

Definition decode_val (val : option bytes) : result pyval :=
  match val with
  | Some b => VStr <$> or_raise UnicodeDecodeError (Py.utf8_decode b)
  | None => Ok VNone
  end.

(** The [for record_regex in _compiled_record_regexes] loop, up to its
    [break]: the first pattern that matches at [position]. *)
Fixpoint first_match (regexes : list regex) (text : bytes) (position : nat)
  : option (regex * match_obj) :=
  match regexes with
  | [] => None
  | record_regex :: regexes' =>
      match match_at record_regex text position with
      | Some m => Some (record_regex, m)
      | None => first_match regexes' text position
      end
  end.

Definition decoded_dict (r : regex) (text : bytes) (m : match_obj)
  : result (gmap string pyval) :=
  items ← mapM (λ '(k, v), v' ← decode_val v; Ok (k, v')) (groupdict r text m);
  Ok (list_to_map items).

(** ["Error at position {}, {}".format(position, text[position:])] *)
Definition error_message (text : bytes) (position : nat) : string :=
  "Error at position " +:+ pretty position +:+ ", "
  +:+ Py.bytes_repr (drop position text).

(** One turn of the [while True] loop of [_recordize]. *)
Inductive turn :=
| Yield (record : QIFRecord) (position : nat)
| Stop (e : ending).

Definition scan (text : bytes) (position : nat) : turn :=
  match first_match _qif_record_regexes text position with
  | Some (record_regex, m) =>
      let position := m_end m + 1 in
      match decoded_dict record_regex text m with
      | Ok d => Yield (mkRecord (lastgroup (m_marks m)) d) position
      | Raise e => Stop (Raised e)
      end
  | None =>
      if bool_decide (position < length text)
      then Stop (Raised (SyntaxError (error_message text position)))
      else Stop Exhausted
  end.

Definition yield {A} (a : A) (rest : list A * ending) : list A * ending :=
  (a :: rest.1, rest.2).

(** [_recordize], as the records it yields and the way it ends. *)
Fixpoint recordize_from (fuel : nat) (text : bytes) (position : nat)
  : list QIFRecord * ending :=
  match fuel with
  | O => ([], OutOfFuel)
  | S fuel' =>
      match scan text position with
      | Yield record position' => yield record (recordize_from fuel' text position')
      | Stop e => ([], e)
      end
  end.

Definition _recordize (text : bytes) : list QIFRecord * ending :=
  recordize_from (S (length text)) text 0.

(** *** The transaction builder *)

Definition has_type (r : QIFRecord) (name : string) : bool :=
  bool_decide (type r = Some name).

(** [_record_casts[r.type](r) if r.type in _record_casts else r] *)
Definition cast (r : QIFRecord) : result QIFRecord :=
  match type r ≫= (_record_casts !!.) with
  | Some f => f r
  | None => Ok r
  end.

(** The body of [parse]'s [for r in self._recordize(text)] loop, run
    over the records the scanner yields; [fin] is how the scanner ends
    after them. The scanner is only resumed once the loop body is done
    with a record, so an exception of a caster comes before anything
    the scanner does later. *)
Fixpoint parse_loop (ttype : string) (records : list QIFRecord)
    (rs : list QIFRecord) (fin : ending) : list QIFTransaction * ending :=
  match rs with
  | [] => ([], fin)
  | r :: rs' =>
      if has_type r "END" then
        let transaction := mkTransaction ttype records in
        yield transaction (parse_loop TTYPE_NORMAL [] rs' fin)
      else
        let ttype := if has_type r "SPLIT" then TTYPE_SPLIT else ttype in
        match cast r with
        | Ok r' => parse_loop ttype (records ++ [r']) rs' fin
        | Raise e => ([], Raised e)
        end
  end.

(** [text] is a [str] or a bytes object. *)
Inductive input :=
| Str (s : pystr)
| Bytes (b : bytes).

Definition parse_bytes (text : bytes) : list QIFTransaction * ending :=
  let '(rs, fin) := _recordize text in
  parse_loop TTYPE_NORMAL [] rs fin.

(** [parse], as the transactions it yields and the way it ends. *)
Definition parse (text : input) : list QIFTransaction * ending :=
  match text with
  | Str s =>
      (* Handle string input...internally, we parse by bytes *)
      match Py.utf8_encode s with
      | Some text => parse_bytes text
      | None => ([], Raised UnicodeEncodeError)
      end
  | Bytes text => parse_bytes text
  end.

End Qif.


(* ================================================================== *)
(** ** Notions used to state the properties *)

Import Re Qif.

(** The scanner of [text], started at offset 0, stands at [position]
    after having yielded [rs]. *)
Inductive reaches (text : bytes) : nat → list QIFRecord → Prop :=
| reaches_start : reaches text 0 []
| reaches_yield position rs record position' :
    reaches text position rs →
    scan text position = Yield record position' →
    reaches text position' (rs ++ [record]).

(** A record stream read as groups: each group is a run of records
    other than End closed by an End record; [tail] is what follows the
    last End. *)
Inductive grouped : list QIFRecord → list (list QIFRecord) → list QIFRecord → Prop :=
| grouped_tail tail :
    Forall (λ r, has_type r "END" = false) tail →
    grouped tail [] tail
| grouped_group g e rs gs tail :
    Forall (λ r, has_type r "END" = false) g →
    has_type e "END" = true →
    grouped rs gs tail →
    grouped (g ++ e :: rs) (g :: gs) tail.

(** The kind of the transaction made of the records [g]. *)
Definition kind_of (g : list QIFRecord) : string :=
  if existsb (λ r, has_type r "SPLIT") g then TTYPE_SPLIT else TTYPE_NORMAL.

(** [trs] are the records [g], cast one by one, in order. *)
Definition cast_all (g trs : list QIFRecord) : Prop :=
  Forall2 (λ r r', cast r = Ok r') g trs.

(** [t] is the transaction made of the records [g], cast in order. *)
Definition transaction_of (g : list QIFRecord) (t : QIFTransaction) : Prop :=
  ttype t = kind_of g ∧ cast_all g (records t).

(** The caster of [r], if it has one, does not raise. *)
Definition castable (r : QIFRecord) : Prop := ∃ r', cast r = Ok r'.

(** [l] ends a line: the text stops, or goes on with a line feed. *)
Definition at_line_end (l : bytes) : Prop := l = [] ∨ ∃ l', l = LF :: l'.

(** Every record pattern is a named group that opens with a marker
    byte (and is that byte alone for End), followed by "[\r]?$". *)
Definition record_pattern (name : string) (re : regex) : Prop :=
  ∃ marker,
    (∃ body, re = Group (Some name) (ch marker ⋅ body) ⋅ line_end)
    ∨ re = Group (Some name) (ch marker) ⋅ line_end.

(** The code points the amount group of a pattern can hold: the minus
    sign, the comma, the point and the ASCII digits. *)
Definition amount_char (c : N) : bool :=
  ((c =? 45) || (c =? 44) || (c =? 46) || Py.is_digit_cp c)%N.

(** *** Split blocks *)

(** The text of an amount, "-?[\d,]+(\.[\d]+)?": an optional minus
    sign, the bytes [ints] before the point, and the digits [frac]
    after it when there is a point. *)
Definition amount_text (neg : bool) (ints : bytes) (frac : option bytes) : bytes :=
  (if neg then ["-"%byte] else []) ++ ints
  ++ match frac with Some fs => "."%byte :: fs | None => [] end.

Definition amount_byte (b : byte) : bool := is_digit b || byte_eqb b ","%byte.

Definition not_lf (b : byte) : bool := negb (byte_eqb b LF).

(** A split block: the category line, the memo line when there is a
    memo, and the amount line up to the end of the amount. *)
Definition split_block (cat : bytes) (memo : option bytes) (amt : bytes) : bytes :=
  "S"%byte :: cat ++ [LF]
  ++ match memo with Some m => "E"%byte :: m ++ [LF] | None => [] end
  ++ "$"%byte :: amt.

(** The end of a line as the amount of a record sees it: nothing, a
    carriage return or a line feed comes next. *)
Definition line_tail (tail : bytes) : Prop :=
  match tail with b :: _ => b = CR ∨ b = LF | [] => True end.

(** The digits after the point of an amount, when it has a point:
    at least one, and digits only. *)
Definition fraction_ok (frac : option bytes) : Prop :=
  match frac with
  | Some fs => fs ≠ [] ∧ forallb is_digit fs = true
  | None => True
  end.

(** A memo, when the block has one, holds no line feed. *)
Definition memo_ok (memo : option bytes) : Prop :=
  match memo with Some m => forallb not_lf m = true | None => True end.

Definition is_ascii (b : byte) : bool := (Byte.to_N b <? 128)%N.

(** *** Sample inputs *)

Definition line (s : string) : bytes := bytes_of s ++ [LF].

(** A raw or typed record given by its type and the items of its
    dictionary; [txt] is a [str] value. *)
Definition record_of (name : string) (fields : list (string * pyval)) : QIFRecord :=
  mkRecord (Some name) (list_to_map fields).
Definition txt (s : string) : pyval := VStr (str_of s).
Definition amount_of (neg : bool) (coef : N) (scale : nat) : pyval :=
  VFloat (Py.Decimal neg coef scale).
Definition date_of (y m d : Z) : pyval := VDate (Py.Date y m d).

(** The two inputs of test_tools.py. *)
Definition good_qif : bytes :=
  bytes_of "D11/ 8'16" ++ [CR; LF] ++ line "U-107.88" ++ line "T-107.88"
  ++ line "PVERIZON" ++ line "LUtilities" ++ line "^" ++ line "D11/ 9'16"
  ++ line "U-1,570.73" ++ line "PChecking" ++ line "LVisa" ++ bytes_of "^".

Definition bad_qif : bytes :=
  line "D11/ 8'16" ++ line "U-107.88" ++ line "T-107.88" ++ line "PVERIZON"
  ++ line "Q^" ++ bytes_of "Z^".

(** A payee, then a split transaction, then a category left open. *)
Definition split_qif : bytes :=
  line "PBob" ++ line "^" ++ line "Sfood" ++ line "$7" ++ line "Mhi" ++ line "^"
  ++ line "Lx".

Definition prepend {A} (xs : list A) (rest : list A * ending) : list A * ending :=
  (xs ++ rest.1, rest.2).

(** *** Markers *)

(** The byte that opens the line of each record type, in the order of
    [_qif_record_regexes]. *)
Definition markers : list (byte * string) :=
  [("!"%byte, "HEADER"); ("D"%byte, "DATE"); ("T"%byte, "T_AMOUNT");
   ("U"%byte, "U_AMOUNT"); ("C"%byte, "CLEARED"); ("P"%byte, "PAYEE");
   ("M"%byte, "MEMO"); ("L"%byte, "CATEGORY"); ("A"%byte, "ADDRESS");
   ("N"%byte, "N_REC"); ("S"%byte, "SPLIT"); ("^"%byte, "END")].

Definition is_marker (b : byte) : bool :=
  existsb (λ '(marker, _), byte_eqb b marker) markers.

(** The markers of the one-line records with a free-text value. *)
Definition free_text_markers : list (byte * string) :=
  [("P"%byte, "PAYEE"); ("M"%byte, "MEMO"); ("L"%byte, "CATEGORY");
   ("A"%byte, "ADDRESS"); ("N"%byte, "N_REC")].

(** What the builder keeps true of a transaction: no End record among
    its records, and a kind that tells whether one is a Split record. *)
Definition well_formed (t : QIFTransaction) : Prop :=
  Forall (λ r, has_type r "END" = false) (records t)
  ∧ (ttype t = TTYPE_SPLIT ∧ Exists (λ r, has_type r "SPLIT" = true) (records t)
     ∨ ttype t = TTYPE_NORMAL ∧ Forall (λ r, has_type r "SPLIT" = false) (records t)).

(* ================================================================== *)
(** ** qif2ledger.py *)

Module Ledger.

(** *** [ledger_account_name] *)

(** The length of the run of spaces at the head of [s]. *)
Fixpoint spaces (s : pystr) : nat :=
  match s with
  | c :: s' => if (c =? 32)%N then S (spaces s') else 0
  | [] => 0
  end.

(** The match of the pattern "[ ]{2,}|[\t]" at the head of [s], as its
    length: a run of two spaces or more, which the greedy repeat takes
    whole, or else one tab. *)
Definition hard_separator (s : pystr) : option nat :=
  if bool_decide (2 ≤ spaces s) then Some (spaces s)
  else match s with
       | c :: _ => if (c =? 9)%N then Some 1 else None
       | [] => None
       end.

(** [pattern.sub(repl, s)]: from left to right, every match is
    replaced by [repl] and the search goes on after it; a character no
    match starts at is kept. [skip] counts the characters of the last
    match that are still to be passed over. *)
Fixpoint sub (repl : pystr) (skip : nat) (s : pystr) : pystr :=
  match s with
  | [] => []
  | c :: s' =>
      match skip with
      | S skip' => sub repl skip' s'
      | O =>
          match hard_separator s with
          | Some n => repl ++ sub repl (n - 1) s'
          | None => c :: sub repl 0 s'
          end
      end
  end.

(** ensure account complies with ledger format: replace 'hard
    separators' in the name. A name that is no [str] makes [sub] raise
    TypeError. *)
Definition ledger_account_name (name : pyval) : result pyval :=
  match name with
  | VStr s => Ok (VStr (sub [32%N] 0 s))
  | VNone | VFloat _ | VDate _ => Raise TypeError
  end.

(** *** [ledger_amount] *)

(** [amount != 0.0], for the binary64 value nearest to the decimal
    [amount]: that value is zero when the decimal is at most half the
    smallest positive binary64 number, 2^-1075. *)
Definition nonzero (amount : Py.pyfloat) : bool :=
  negb (Py.f_coef amount * 2 ^ 1075 <=? 10 ^ N.of_nat (Py.f_scale amount))%N.

(** [-amount] *)
Definition negate (amount : Py.pyfloat) : Py.pyfloat :=
  Py.Decimal (negb (Py.f_neg amount)) (Py.f_coef amount) (Py.f_scale amount).

(** Anything that is no float differs from [0.0] and cannot be
    negated: TypeError. *)
Definition ledger_amount (amount : pyval) : result pyval :=
  match amount with
  | VFloat f => Ok (VFloat (if nonzero f then negate f else f))
  | VNone | VStr _ | VDate _ => Raise TypeError
  end.

(** *** [qif2ledger] *)

(** [n] in decimal, with zeros in front up to [width] digits. *)
Definition zero_padded (width : nat) (n : Z) : pystr :=
  let digits := str_of (pretty (Z.to_nat n)) in
  replicate (width - length digits) 48%N ++ digits.

(** [d.strftime("%Y/%m/%d")] for a date [d]: the month and the day in
    two digits each. "%Y" is left to the C library: glibc writes the
    year as it is, without zeros in front ([date(999, 1, 1)] gives
    "999/01/01"), and the libraries that fill it up to four digits
    write the same from the year 1000 on. *)
Definition strftime (d : Py.date) : pystr :=
  zero_padded 1 (Py.year d) ++ [47%N] ++ zero_padded 2 (Py.month d)
  ++ [47%N] ++ zero_padded 2 (Py.day d).

(** [v.strftime("%Y/%m/%d")]: only a date has the method. *)
Definition call_strftime (v : pyval) : result pyval :=
  match v with
  | VDate d => Ok (VStr (strftime d))
  | VNone | VStr _ | VFloat _ => Raise AttributeError
  end.

(** Besides the exceptions of the parser, the function can read a
    local variable before any record has set it. *)
Inductive error :=
| Exn (e : exn)
| UnboundLocalError (name : string).

Inductive outcome (A : Type) :=
| Return (a : A)
| Throw (e : error).
Arguments Return {A} a.
Arguments Throw {A} e.

#[global] Instance outcome_ret : MRet outcome := λ A a, Return a.
#[global] Instance outcome_bind : MBind outcome := λ A B f x,
  match x with
  | Return a => f a
  | Throw e => Throw e
  end.

Definition lift {A} (x : result A) : outcome A :=
  match x with
  | Ok a => Return a
  | Raise e => Throw (Exn e)
  end.

(** A local variable that may not have been set yet. *)
Definition read (name : string) (v : option pyval) : outcome pyval :=
  match v with
  | Some a => Return a
  | None => Throw (UnboundLocalError name)
  end.

(** The local variables of [qif2ledger] that the loop changes. *)
Record locals := Locals {
  l : gmap string pyval;
  postings : list (gmap string pyval);
  amount : option pyval;
  account : option pyval
}.

(** The body of the [for r in qif_transaction.records] loop: six [if]
    statements, one after the other. *)
Definition body (st : locals) (r : QIFRecord) : outcome locals :=
  let d := value_dict r in
  st ← (if has_type r "DATE" then
          date ← lift (getitem d "date" ≫= call_strftime);
          Return (Locals (<["date" := date]> (l st)) (postings st) (amount st) (account st))
        else Return st);
  st ← (if has_type r "PAYEE" then
          value ← lift (getitem d "value");
          Return (Locals (<["payee" := value]> (l st)) (postings st) (amount st) (account st))
        else Return st);
  st ← (if has_type r "U_AMOUNT" || has_type r "T_AMOUNT" then
          amount ← lift (getitem d "amount" ≫= ledger_amount);
          Return (Locals (l st) (postings st) (Some amount) (account st))
        else Return st);
  st ← (if has_type r "CATEGORY" then
          account ← lift (getitem d "value" ≫= ledger_account_name);
          Return (Locals (l st) (postings st) (amount st) (Some account))
        else Return st);
  st ← (if has_type r "MEMO" then
          value ← lift (getitem d "value");
          Return (Locals (<["memo" := value]> (l st)) (postings st) (amount st) (account st))
        else Return st);
  if has_type r "SPLIT" then
    posting_account ← lift (getitem d "category" ≫= ledger_account_name);
    posting_amount ← lift (getitem d "amount" ≫= ledger_amount);
    let posting : gmap string pyval :=
      <["amount" := posting_amount]> {["account" := posting_account]} in
    let posting :=
      match d !! "memo" with
      | Some memo => <["memo" := memo]> posting
      | None => posting
      end in
    Return (Locals (l st) (postings st ++ [posting]) (amount st) (account st))
  else Return st.

Fixpoint loop (st : locals) (rs : list QIFRecord) : outcome locals :=
  match rs with
  | [] => Return st
  | r :: rs' => st' ← body st r; loop st' rs'
  end.

(** The values of the returned dictionary: what the records gave, and
    the list of postings. *)
Inductive value :=
| Val (v : pyval)
| Postings (ps : list (gmap string pyval)).

(** return a dict with ledger attributes suitable for use in writing
    a ledger file *)
Definition qif2ledger (qif_transaction : QIFTransaction) (asset_account : pyval)
  : outcome (gmap string value) :=
  st ← loop (Locals ∅ [] None None) (records qif_transaction);
  postings ←
    (if bool_decide (length (postings st) = 0) then
       account ← read "account" (account st);
       posting_account ← lift (ledger_account_name account);
       amount ← read "amount" (amount st);
       posting_amount ← lift (ledger_amount amount);
       Return (postings st ++ [<["amount" := posting_amount]> {["account" := posting_account]}])
     else Return (postings st));
  Return (<["postings" := Postings (postings ++ [{["account" := asset_account]}])]>
            (Val <$> l st)).

End Ledger.

(** A hard separator of the ledger format somewhere in [s]: a tab, or
    two spaces in a row. *)
Fixpoint has_hard_separator (s : pystr) : bool :=
  match s with
  | [] => false
  | c :: s' =>
      (c =? 9)%N
      || ((c =? 32)%N && bool_decide (head s' = Some 32%N))
      || has_hard_separator s'
  end.

(** A space or a tab. *)
Definition blank (c : N) : bool := (c =? 32)%N || (c =? 9)%N.

(** Somewhere in [s] a tab stands next to a space or to another tab. *)
Fixpoint tab_touches_blank (s : pystr) : bool :=
  match s with
  | [] => false
  | c :: s' =>
      match s' with
      | c' :: _ => ((c =? 9)%N && blank c') || (blank c && (c' =? 9)%N)
      | [] => false
      end
      || tab_touches_blank s'
  end.

(** The values under [key] of the records of type [name], in the order
    of the records. *)
Definition field_values (name key : string) (rs : list QIFRecord) : list pyval :=
  omap (λ r, if has_type r name then value_dict r !! key else None) rs.

(** The dates of the Date records, the names of the Category records
    and the amounts of the amount records (U or T), in the order of the
    records. *)
Definition dates (rs : list QIFRecord) : list Py.date :=
  omap (λ r, if has_type r "DATE"
             then match value_dict r !! "date" with
                  | Some (VDate d) => Some d
                  | _ => None
                  end
             else None) rs.
Definition categories (rs : list QIFRecord) : list pystr :=
  omap (λ r, if has_type r "CATEGORY"
             then match value_dict r !! "value" with
                  | Some (VStr s) => Some s
                  | _ => None
                  end
             else None) rs.
Definition amounts (rs : list QIFRecord) : list Py.pyfloat :=
  omap (λ r, if has_type r "U_AMOUNT" || has_type r "T_AMOUNT"
             then match value_dict r !! "amount" with
                  | Some (VFloat f) => Some f
                  | _ => None
                  end
             else None) rs.
Definition splits (rs : list QIFRecord) : list QIFRecord :=
  filter (λ r, type r = Some "SPLIT") rs.

(** The records [qif2ledger] can work on: the fields it reads are
    there, with the types the parser's casts give them. *)
Definition ledger_ready (r : QIFRecord) : Prop :=
  (type r = Some "DATE" → ∃ d, value_dict r !! "date" = Some (VDate d))
  ∧ (type r = Some "PAYEE" ∨ type r = Some "MEMO" →
     ∃ v, value_dict r !! "value" = Some v)
  ∧ (type r = Some "U_AMOUNT" ∨ type r = Some "T_AMOUNT" →
     ∃ f, value_dict r !! "amount" = Some (VFloat f))
  ∧ (type r = Some "CATEGORY" → ∃ s, value_dict r !! "value" = Some (VStr s))
  ∧ (type r = Some "SPLIT" →
     ∃ s f, value_dict r !! "category" = Some (VStr s)
            ∧ value_dict r !! "amount" = Some (VFloat f)).

(** The posting of a Split record: the account is the category with
    its hard separators replaced, the amount has its sign changed, the
    memo is there when the record has one. *)
Definition split_posting (r : QIFRecord) (p : gmap string pyval) : Prop :=
  ∃ s f,
    value_dict r !! "category" = Some (VStr s)
    ∧ value_dict r !! "amount" = Some (VFloat f)
    ∧ p !! "account" = Some (VStr (Ledger.sub [32%N] 0 s))
    ∧ p !! "amount" = Some (VFloat (if Ledger.nonzero f then Ledger.negate f else f))
    ∧ p !! "memo" = value_dict r !! "memo"
    ∧ ∀ key, is_Some (p !! key) → key ∈ ["account"; "amount"; "memo"].

(* ================================================================== *)
(** ** The matcher *)

Lemma byte_eqb_eq a b : byte_eqb a b = true → a = b.
Proof.
  unfold byte_eqb. intros H%N.eqb_eq.
  pose proof (Byte.of_to_N a) as Ha. rewrite H, Byte.of_to_N in Ha. congruence.
Qed.

Lemma byte_eqb_refl a : byte_eqb a a = true.
Proof. apply N.eqb_refl. Qed.

Section MatcherFacts.
Context {R : Type}.
Implicit Types (k : bytes → nat → marks → option R) (c : cset) (r : regex).

Lemma one_consumes c l p (k : bytes → nat → option R) res :
  one c l p k = Some res →
  ∃ b l', l = b :: l' ∧ cset_mem c b = true ∧ k l' (S p) = Some res.
Proof.
  destruct l as [|b l']; simpl; [done|].
  destruct (cset_mem c b) eqn:E; [|done]. eauto.
Qed.

Lemma star_consumes c l p (k : bytes → nat → option R) res :
  star c l p k = Some res →
  ∃ xs l', l = xs ++ l' ∧ Forall (λ b, cset_mem c b = true) xs
           ∧ k l' (p + length xs) = Some res.
Proof.
  revert p. induction l as [|b l IH]; intros p; simpl.
  - intros H. exists [], []. rewrite Nat.add_0_r. auto.
  - destruct (cset_mem c b) eqn:E.
    + destruct (star c l (S p) k) eqn:Es.
      * intros [= ->]. destruct (IH _ Es) as (xs & l' & -> & Hxs & Hk).
        exists (b :: xs), l'. simpl. rewrite Nat.add_succ_r. auto.
      * intros H. exists [], (b :: l). rewrite Nat.add_0_r. auto.
    + intros H. exists [], (b :: l). rewrite Nat.add_0_r. auto.
Qed.

Lemma count_consumes n c l p (k : bytes → nat → option R) res :
  count n c l p k = Some res →
  ∃ xs l', l = xs ++ l' ∧ length xs = n ∧ k l' (p + n) = Some res.
Proof.
  revert l p. induction n as [|n IH]; intros l p; simpl.
  - intros H. exists [], l. rewrite Nat.add_0_r. auto.
  - intros H. apply one_consumes in H as (b & l' & -> & _ & H).
    apply IH in H as (xs & l'' & -> & <- & H).
    exists (b :: xs), l''. simpl. rewrite Nat.add_succ_r. auto.
Qed.

(** Whatever a pattern matches, the rest of the pattern goes on after
    a prefix of the text, at the offset just past that prefix. *)
Lemma run_consumes r l p g k res :
  run r l p g k = Some res →
  ∃ xs l' g', l = xs ++ l' ∧ k l' (p + length xs) g' = Some res.
Proof.
  revert l p g k.
  induction r as [c|c|c|n c|r IH|r1 IH1 r2 IH2|r1 IH1 r2 IH2|name r IH|];
    intros l p g k; simpl.
  - intros H. apply one_consumes in H as (b & l' & -> & _ & H).
    exists [b], l', g. simpl. by rewrite Nat.add_1_r.
  - intros H. apply star_consumes in H as (xs & l' & -> & _ & H). eauto.
  - intros H. apply one_consumes in H as (b & l' & -> & _ & H).
    apply star_consumes in H as (xs & l'' & -> & _ & H).
    exists (b :: xs), l'', g. simpl. by rewrite Nat.add_succ_r.
  - intros H. apply count_consumes in H as (xs & l' & -> & <- & H). eauto.
  - destruct (run r l p g k) eqn:E.
    + intros [= ->]. eauto.
    + intros H. exists [], l, g. by rewrite Nat.add_0_r.
  - intros H. apply IH1 in H as (xs1 & l1 & g1 & -> & H).
    apply IH2 in H as (xs2 & l2 & g2 & -> & H).
    exists (xs1 ++ xs2), l2, g2. rewrite length_app, Nat.add_assoc, <-(assoc_L (++)). auto.
  - destruct (run r1 l p g k) eqn:E.
    + intros [= ->]. eauto.
    + eauto.
  - intros H. apply IH in H as (xs & l' & g' & -> & H). eauto.
  - intros H. exists [], l, g. rewrite Nat.add_0_r.
    destruct l as [|b l]; [done|]. by destruct (byte_eqb b LF).
Qed.

Lemma run_eol l p g k res :
  run Eol l p g k = Some res → at_line_end l ∧ k l p g = Some res.
Proof.
  destruct l as [|b l]; simpl; [by split; [left|]|].
  destruct (byte_eqb b LF) eqn:E; [|done].
  apply byte_eqb_eq in E as ->. split; [right; eauto|done].
Qed.

(** "[\r]?$" takes a carriage return when one stands before the line
    end, and nothing otherwise. *)
Lemma line_end_consumes l p g k res :
  run line_end l p g k = Some res →
  (at_line_end l ∧ k l p g = Some res)
  ∨ (∃ l', l = CR :: l' ∧ at_line_end l' ∧ k l' (S p) g = Some res).
Proof.
  intros H.
  change (run line_end l p g k)
    with (match one (Set_ [IByte CR]) l p (λ l' p', run Eol l' p' g k) with
          | Some x => Some x
          | None => run Eol l p g k
          end) in H.
  destruct (one _ l p _) eqn:E.
  - injection H as ->. apply one_consumes in E as (b & l' & -> & Hb & E).
    simpl in Hb. rewrite orb_false_r in Hb. apply byte_eqb_eq in Hb as ->.
    apply run_eol in E as [? ?]. right. eauto.
  - left. by apply run_eol.
Qed.

(** A pattern that ends in "[\r]?$" leaves the text at a line end. *)
Lemma run_line_end r l p g k res :
  run (r ⋅ line_end) l p g k = Some res →
  ∃ xs l' g', l = xs ++ l' ∧ at_line_end l' ∧ k l' (p + length xs) g' = Some res.
Proof.
  simpl. intros H. apply run_consumes in H as (xs & l' & g' & -> & H).
  apply line_end_consumes in H as [[? ?]|(l'' & -> & ? & ?)].
  - eauto 6.
  - exists (xs ++ [CR]), l'', g'.
    rewrite length_app, <-(assoc_L (++)), Nat.add_assoc, Nat.add_1_r. auto.
Qed.

End MatcherFacts.

(* ================================================================== *)
(** ** The record patterns *)

Lemma record_patterns re :
  re ∈ _qif_record_regexes → ∃ name, record_pattern name re.
Proof.
  unfold _qif_record_regexes, record_pattern.
  rewrite !elem_of_cons, elem_of_nil.
  intros H. destruct_or!; subst; try done;
    do 2 eexists; first [right; reflexivity | left; eexists; reflexivity].
Qed.

Lemma run_record_pattern {R} name re l p g (k : bytes → nat → marks → option R) res :
  record_pattern name re →
  run re l p g k = Some res →
  ∃ marker xs l' g',
    l = marker :: xs ++ l' ∧ at_line_end l' ∧ lastgroup g' = Some name
    ∧ k l' (S (p + length xs)) g' = Some res.
Proof.
  intros (marker & [[body ->] | ->]) H.
  - change (run _ l p g k)
      with (one (Set_ [IByte marker]) l p (λ l1 p1,
              run body l1 p1 g (λ l2 p2 g2,
                run line_end l2 p2 (close_group (Some name) p p2 g2) k))) in H.
    apply one_consumes in H as (b & l1 & -> & Hb & H).
    simpl in Hb. rewrite orb_false_r in Hb. apply byte_eqb_eq in Hb as ->.
    apply run_consumes in H as (xs & l2 & g2 & -> & H).
    apply line_end_consumes in H as [[? ?]|(l3 & -> & ? & ?)].
    + exists marker, xs, l2. eexists. split_and!; [done|done| |exact H0]; done.
    + exists marker, (xs ++ [CR]), l3. eexists.
      rewrite length_app, <-(assoc_L (++)), Nat.add_assoc, Nat.add_1_r.
      split_and!; [done|done| |exact H0]; done.
  - change (run _ l p g k)
      with (one (Set_ [IByte marker]) l p (λ l1 p1,
              run line_end l1 p1 (close_group (Some name) p p1 g) k)) in H.
    apply one_consumes in H as (b & l1 & -> & Hb & H).
    simpl in Hb. rewrite orb_false_r in Hb. apply byte_eqb_eq in Hb as ->.
    apply line_end_consumes in H as [[? ?]|(l3 & -> & ? & ?)].
    + exists marker, [], l1. eexists. rewrite Nat.add_0_r.
      split_and!; [done|done| |exact H0]; done.
    + exists marker, [CR], l3. eexists. rewrite Nat.add_1_r.
      split_and!; [done|done| |exact H0]; done.
Qed.

(** A record pattern matches at the cursor only: it takes at least the
    marker byte, stays within the text, and stops at a line end. *)
Lemma match_at_record_pattern name re text pos m :
  record_pattern name re →
  match_at re text pos = Some m →
  pos < length text ∧ m_start m = pos ∧ pos < m_end m ≤ length text
  ∧ at_line_end (drop (m_end m) text) ∧ lastgroup (m_marks m) = Some name.
Proof.
  unfold match_at. intros Hre H.
  eapply run_record_pattern in H as (marker & xs & l' & g' & Hl & Heol & Hg & [= <-]);
    [|done].
  simpl. assert (Hlen : length (drop (pos `min` length text) text)
                        = S (length xs + length l')).
  { rewrite Hl. simpl. by rewrite length_app. }
  rewrite length_drop in Hlen.
  assert (pos `min` length text = pos) as Hmin by lia.
  rewrite Hmin in *. split_and!; try lia; [|done].
  replace (S (pos + length xs)) with (pos + length (marker :: xs)) by (simpl; lia).
  rewrite <-drop_drop, Hl.
  change (marker :: xs ++ l') with ((marker :: xs) ++ l').
  by rewrite drop_app_length.
Qed.

Lemma first_match_inv regexes text position re m :
  first_match regexes text position = Some (re, m) →
  ∃ before after,
    regexes = before ++ re :: after
    ∧ Forall (λ r, match_at r text position = None) before
    ∧ match_at re text position = Some m.
Proof.
  induction regexes as [|r regexes IH]; simpl; [done|].
  destruct (match_at r text position) eqn:E.
  - intros [= -> ->]. exists [], regexes. auto.
  - intros H. destruct (IH H) as (before & after & -> & ? & ?).
    exists (r :: before), after. auto.
Qed.

Lemma first_match_none regexes text position :
  first_match regexes text position = None ↔
  Forall (λ r, match_at r text position = None) regexes.
Proof.
  induction regexes as [|r regexes IH]; simpl; [by split; [constructor|]|].
  destruct (match_at r text position) eqn:E.
  - split; [done|]. intros H. inversion H. congruence.
  - rewrite IH. split; [by constructor|]. intros H. by inversion H.
Qed.

Lemma first_match_skip before re after text position m :
  Forall (λ r, match_at r text position = None) before →
  match_at re text position = Some m →
  first_match (before ++ re :: after) text position = Some (re, m).
Proof.
  intros Hbefore Hm. induction Hbefore as [|r before Hr _ IH]; simpl.
  - by rewrite Hm.
  - by rewrite Hr.
Qed.

(** *** The scanner *)

Lemma scan_yield text position record position' :
  scan text position = Yield record position' →
  ∃ re m, first_match _qif_record_regexes text position = Some (re, m)
          ∧ position' = m_end m + 1
          ∧ type record = lastgroup (m_marks m)
          ∧ decoded_dict re text m = Ok (value_dict record).
Proof.
  unfold scan. destruct (first_match _ _ _) as [[re m]|] eqn:E.
  - destruct (decoded_dict re text m) eqn:Ed; [|done].
    intros [= <- <-]. exists re, m. split_and!; done.
  - by case_bool_decide.
Qed.

(** The scanner moves forward, and only yields from inside the text. *)
Lemma first_match_record_pattern text position re m :
  first_match _qif_record_regexes text position = Some (re, m) →
  ∃ name, record_pattern name re ∧ match_at re text position = Some m.
Proof.
  intros (before & after & Hre & _ & Hm)%first_match_inv.
  destruct (record_patterns re) as [name Hname]; [|by eauto].
  rewrite Hre. set_solver.
Qed.

Lemma scan_progress text position record position' :
  scan text position = Yield record position' →
  position < length text ∧ position + 1 < position' ≤ length text + 1.
Proof.
  intros (re & m & Hf & -> & _)%scan_yield.
  apply first_match_record_pattern in Hf as (name & Hname & Hm).
  eapply match_at_record_pattern in Hm; [|done]. lia.
Qed.

Lemma scan_past_end text position :
  length text ≤ position → scan text position = Stop Exhausted.
Proof.
  intros Hlen. unfold scan.
  destruct (first_match _ _ _) as [[re m]|] eqn:Hf.
  - apply first_match_record_pattern in Hf as (name & Hname & Hm).
    eapply match_at_record_pattern in Hm; [|done]. lia.
  - case_bool_decide; [lia|done].
Qed.

(** The fuel of [_recordize] is never used up: more fuel than text is
    left gives the same records and the same ending. *)
Lemma recordize_from_fuel text fuel1 fuel2 position :
  length text - position < fuel1 →
  length text - position < fuel2 →
  recordize_from fuel1 text position = recordize_from fuel2 text position.
Proof.
  revert fuel2 position.
  induction fuel1 as [|fuel1 IH]; intros [|fuel2] position H1 H2; try lia.
  simpl. destruct (scan text position) as [r p'|e] eqn:E; [|done].
  apply scan_progress in E. f_equal. apply IH; lia.
Qed.

Lemma recordize_from_ends text fuel position :
  length text - position < fuel →
  (recordize_from fuel text position).2 ≠ OutOfFuel.
Proof.
  revert position. induction fuel as [|fuel IH]; intros position H; [lia|].
  simpl. destruct (scan text position) as [r p'|e] eqn:E.
  - apply scan_progress in E. simpl. apply IH. lia.
  - simpl. unfold scan in E. destruct (first_match _ _ _) as [[re m]|].
    + destruct (decoded_dict re text m); congruence.
    + case_bool_decide; congruence.
Qed.

Lemma recordize_from_step text fuel position record position' :
  scan text position = Yield record position' →
  length text - position < fuel →
  recordize_from fuel text position
  = yield record (recordize_from fuel text position').
Proof.
  intros E H. destruct fuel as [|fuel]; [lia|].
  pose proof (scan_progress _ _ _ _ E).
  rewrite (recordize_from_fuel text (S fuel) fuel position') by lia.
  simpl. by rewrite E.
Qed.

Lemma recordize_from_stop text fuel position e :
  scan text position = Stop e →
  recordize_from (S fuel) text position = ([], e).
Proof. intros E. simpl. by rewrite E. Qed.

(** Once the scanner stands at [position] with [rs] yielded, the
    whole scan is [rs] followed by the scan from [position]. *)
Lemma recordize_reaches text position rs :
  reaches text position rs →
  _recordize text = prepend rs (recordize_from (S (length text)) text position).
Proof.
  unfold _recordize. induction 1 as [|position rs record position' _ IH E].
  - by destruct (recordize_from _ _ _).
  - rewrite IH, (recordize_from_step _ _ _ _ _ E) by lia.
    unfold prepend, yield. simpl. by rewrite <-(assoc_L (++)).
Qed.

(* ================================================================== *)
(** ** The transaction builder *)

Lemma mapM_cast_cons r g trs :
  mapM cast (r :: g) = Ok trs ↔
  ∃ r' trs', cast r = Ok r' ∧ mapM cast g = Ok trs' ∧ trs = r' :: trs'.
Proof.
  simpl. destruct (cast r) as [r'|]; simpl.
  - destruct (mapM cast g) as [trs'|]; simpl.
    + split; [intros [= <-]; eauto|]. by intros (? & ? & [= <-] & [= <-] & ->).
    + split; [done|]. by intros (? & ? & _ & ? & _).
  - split; [done|]. by intros (? & ? & ? & _).
Qed.

Lemma mapM_cast_castable g :
  Forall castable g → ∃ trs, mapM cast g = Ok trs.
Proof.
  induction 1 as [|r g [r' Hr] _ [trs IH]]; [by exists []|].
  exists (r' :: trs). apply mapM_cast_cons. eauto.
Qed.

Lemma mapM_cast_all g trs : mapM cast g = Ok trs ↔ cast_all g trs.
Proof.
  unfold cast_all. revert trs. induction g as [|r g IH]; intros trs.
  - simpl. split; [intros [= <-]; constructor|]. by inversion 1.
  - rewrite mapM_cast_cons. split.
    + intros (r' & trs' & ? & ?%IH & ->). by constructor.
    + inversion 1 as [|? r' ? trs' ? Hg]; subst. apply IH in Hg. eauto.
Qed.

(** A group closed by an End record leaves the loop as one transaction,
    and the loop goes on from its initial state. *)
Lemma parse_loop_group g e rest fin trs ttype0 records0 :
  Forall (λ r, has_type r "END" = false) g →
  has_type e "END" = true →
  mapM cast g = Ok trs →
  parse_loop ttype0 records0 (g ++ e :: rest) fin
  = yield (mkTransaction
             (if existsb (λ r, has_type r "SPLIT") g then TTYPE_SPLIT else ttype0)
             (records0 ++ trs))
          (parse_loop TTYPE_NORMAL [] rest fin).
Proof.
  intros Hg He. revert trs ttype0 records0.
  induction Hg as [|r g Hr _ IH]; intros trs ttype0 records0 Hcast; simpl.
  - injection Hcast as <-. by rewrite He, app_nil_r.
  - apply mapM_cast_cons in Hcast as (r' & trs' & Hr' & Hcast & ->).
    rewrite Hr, Hr', (IH trs') by done.
    rewrite <-(assoc_L (++)). simpl.
    by destruct (has_type r "SPLIT"), (existsb _ g).
Qed.

(** Records that no End record follows are never made a transaction. *)
Lemma parse_loop_tail tail fin ttype0 records0 :
  Forall (λ r, has_type r "END" = false) tail →
  Forall castable tail →
  parse_loop ttype0 records0 tail fin = ([], fin).
Proof.
  intros Ht. revert ttype0 records0.
  induction Ht as [|r tail Hr _ IH]; intros ttype0 records0 Hc; simpl; [done|].
  inversion Hc as [|?? [r' Hr'] Hc']; subst. rewrite Hr, Hr'. by apply IH.
Qed.

Lemma parse_loop_grouped rs gs tail fin :
  grouped rs gs tail →
  Forall castable rs →
  ∃ ts, Forall2 transaction_of gs ts
        ∧ parse_loop TTYPE_NORMAL [] rs fin = (ts, fin).
Proof.
  induction 1 as [tail Ht|g e rs gs tail Hg He _ IH]; intros Hc.
  - exists []. split; [constructor|]. by apply parse_loop_tail.
  - apply Forall_app in Hc as [Hcg Hc]. inversion Hc as [|?? _ Hcrs]; subst.
    destruct (mapM_cast_castable g Hcg) as [trs Htrs].
    destruct (IH Hcrs) as (ts & Hts & Hloop).
    exists (mkTransaction (kind_of g) trs :: ts). split.
    + constructor; [by split; [|apply mapM_cast_all]|done].
    + rewrite (parse_loop_group g e rs fin trs) by done.
      rewrite Hloop. done.
Qed.

Lemma parse_loop_prepend pre gs rs fin :
  grouped pre gs [] →
  Forall castable pre →
  ∃ ts, Forall2 transaction_of gs ts
        ∧ parse_loop TTYPE_NORMAL [] (pre ++ rs) fin
          = prepend ts (parse_loop TTYPE_NORMAL [] rs fin).
Proof.
  remember [] as tail eqn:Htail.
  induction 1 as [tail Ht|g e pre gs tail Hg He _ IH]; intros Hc; subst.
  - exists []. split; [constructor|]. simpl. by destruct (parse_loop _ _ rs fin).
  - apply Forall_app in Hc as [Hcg Hc]. inversion Hc as [|?? _ Hcrs]; subst.
    destruct (mapM_cast_castable g Hcg) as [trs Htrs].
    destruct (IH eq_refl Hcrs) as (ts & Hts & Hloop).
    exists (mkTransaction (kind_of g) trs :: ts). split.
    + constructor; [by split; [|apply mapM_cast_all]|done].
    + rewrite <-(assoc_L (++)). simpl.
      rewrite (parse_loop_group g e (pre ++ rs) fin trs) by done.
      rewrite Hloop. done.
Qed.

Lemma parse_reaches text position rs :
  reaches text position rs →
  parse_bytes text
  = let rest := recordize_from (S (length text)) text position in
    parse_loop TTYPE_NORMAL [] (rs ++ rest.1) rest.2.
Proof.
  intros H. unfold parse_bytes. rewrite (recordize_reaches _ _ _ H).
  by destruct (recordize_from _ _ _).
Qed.

(** The parser always comes to an end: the bound on the scanner's
    loop is never what stops it. *)
Lemma parse_loop_ending ttype0 records0 rs fin :
  (parse_loop ttype0 records0 rs fin).2 = fin
  ∨ ∃ e, (parse_loop ttype0 records0 rs fin).2 = Raised e.
Proof.
  revert ttype0 records0. induction rs as [|r rs IH]; intros ttype0 records0; simpl.
  - by left.
  - destruct (has_type r "END"); [apply IH|].
    destruct (cast r); [apply IH|]. right. by eexists.
Qed.

Lemma parse_ends text : (parse text).2 ≠ OutOfFuel.
Proof.
  assert (∀ b, (parse_bytes b).2 ≠ OutOfFuel) as Hbytes.
  { intros b. unfold parse_bytes.
    pose proof (recordize_from_ends b (S (length b)) 0 ltac:(lia)) as Hscan.
    unfold _recordize. destruct (recordize_from _ b 0) as [rs fin]. simpl in Hscan.
    destruct (parse_loop_ending TTYPE_NORMAL [] rs fin) as [-> | [e ->]]; done. }
  destruct text as [s|b]; simpl; [|apply Hbytes].
  destruct (Py.utf8_encode s); [apply Hbytes|done].
Qed.

(* ================================================================== *)
(** ** Split blocks *)

Lemma forallb_ext {A} (f g : A → bool) l :
  (∀ x, f x = g x) → forallb f l = forallb g l.
Proof. intros H. induction l as [|x l IH]; simpl; [done|]. by rewrite H, IH. Qed.

Section RunRules.
Context {R : Type}.
Implicit Types (k : bytes → nat → marks → option R) (c : cset) (r : regex).

Lemma run_seq r1 r2 l p g k :
  run (r1 ⋅ r2) l p g k = run r1 l p g (λ l' p' g', run r2 l' p' g' k).
Proof. done. Qed.

Lemma run_group name r l p g k :
  run (Group name r) l p g k
  = run r l p g (λ l' p' g', k l' p' (close_group name p p' g')).
Proof. done. Qed.

Lemma run_ch_cons b l p g k : run (ch b) (b :: l) p g k = k l (S p) g.
Proof. simpl. by rewrite byte_eqb_refl. Qed.

Lemma run_ch_ne b x l p g k :
  byte_eqb x b = false → run (ch b) (x :: l) p g k = None.
Proof. simpl. by intros ->. Qed.

Lemma run_opt_first r l p g k res :
  run r l p g k = Some res → run (Opt r) l p g k = Some res.
Proof. simpl. by intros ->. Qed.

Lemma run_opt_skip r l p g k :
  run r l p g k = None → run (Opt r) l p g k = k l p g.
Proof. simpl. by intros ->. Qed.

(** The greedy star takes a whole run of bytes of its set when the
    byte after the run is not in the set and the rest of the pattern
    matches from there. *)
Lemma star_max c xs rest p (k : bytes → nat → option R) res :
  forallb (cset_mem c) xs = true →
  match rest with b :: _ => cset_mem c b = false | [] => True end →
  k rest (p + length xs) = Some res →
  star c (xs ++ rest) p k = Some res.
Proof.
  revert p. induction xs as [|x xs IH]; intros p Hxs Hrest Hk; simpl in *.
  - rewrite Nat.add_0_r in Hk. destruct rest as [|b rest]; [done|].
    simpl. by rewrite Hrest.
  - apply andb_true_iff in Hxs as [-> Hxs].
    rewrite (IH (S p)); [done..|]. by rewrite <-Nat.add_succ_comm in Hk.
Qed.

Lemma run_star_max xs rest p g k res :
  forallb not_lf xs = true →
  match rest with b :: _ => b = LF | [] => True end →
  k rest (p + length xs) g = Some res →
  run (Star Dot) (xs ++ rest) p g k = Some res.
Proof.
  intros Hxs Hrest Hk. simpl. apply star_max; [done| |done].
  destruct rest as [|b rest]; [done|]. by subst b.
Qed.

Lemma run_plus_max c x xs rest p g k res :
  cset_mem c x = true →
  forallb (cset_mem c) xs = true →
  match rest with b :: _ => cset_mem c b = false | [] => True end →
  k rest (S p + length xs) g = Some res →
  run (Plus c) (x :: xs ++ rest) p g k = Some res.
Proof. intros Hx Hxs Hrest Hk. simpl. rewrite Hx. by apply star_max. Qed.

End RunRules.

Section RunAmount.
Context {R : Type}.
Implicit Types (k : bytes → nat → marks → option R).

Lemma amount_set_mem b :
  cset_mem (Set_ [IDigit; IByte ","%byte]) b = amount_byte b.
Proof. simpl. by rewrite orb_false_r. Qed.

Lemma digit_set_mem b : cset_mem digit b = is_digit b.
Proof. simpl. by rewrite orb_false_r. Qed.

Lemma line_tail_not_in c tail :
  cset_mem c CR = false → cset_mem c LF = false →
  line_tail tail →
  match tail with b :: _ => cset_mem c b = false | [] => True end.
Proof. destruct tail as [|b tail]; [done|]. by intros ?? [-> | ->]. Qed.

(** The optional fraction "(\.[\d]+)?" takes the point and all the
    digits after it, or nothing when the line ends there. *)
Lemma run_fraction frac tail p g k res :
  fraction_ok frac →
  line_tail tail →
  k tail (p + length (match frac with Some fs => "."%byte :: fs | None => [] end))
    (match frac with Some _ => Marks (spans g) None | None => g end) = Some res →
  run (Opt (Group None (ch "." ⋅ Plus digit)))
      (match frac with Some fs => "."%byte :: fs | None => [] end ++ tail) p g k
  = Some res.
Proof.
  intros Hfrac Htail Hk. destruct frac as [fs|].
  - destruct Hfrac as [Hne Hfs]. destruct fs as [|f fs]; [done|].
    simpl in Hfs. apply andb_true_iff in Hfs as [Hf Hfs].
    apply run_opt_first. rewrite run_group, run_seq.
    change (("."%byte :: f :: fs) ++ tail) with ("."%byte :: f :: fs ++ tail).
    rewrite run_ch_cons. apply run_plus_max.
    + by rewrite digit_set_mem.
    + rewrite (forallb_ext _ is_digit); [done|]. apply digit_set_mem.
    + by apply line_tail_not_in.
    + simpl in *. rewrite <-Hk. f_equal. lia.
  - simpl in Hk. rewrite Nat.add_0_r in Hk. rewrite run_opt_skip; [done|].
    rewrite run_group, run_seq. simpl app.
    destruct tail as [|b tail]; [done|].
    apply run_ch_ne. by destruct Htail as [-> | ->].
Qed.

(** The amount group takes the whole text of an amount that stands at
    the end of its line. *)
Lemma run_amount name neg ints frac tail p g k res :
  ints ≠ [] →
  forallb amount_byte ints = true →
  fraction_ok frac →
  line_tail tail →
  k tail (p + length (amount_text neg ints frac))
    (close_group (Some name) p (p + length (amount_text neg ints frac)) g) = Some res →
  run (Group (Some name) amount_re) (amount_text neg ints frac ++ tail) p g k = Some res.
Proof.
  intros Hne Hints Hfrac Htail Hk.
  destruct ints as [|d ints]; [done|]. simpl in Hints.
  apply andb_true_iff in Hints as [Hd Hints].
  unfold amount_text in *.
  pose proof (run_fraction frac tail) as Hfraction.
  assert (match frac with Some fs => "."%byte :: fs | None => [] end ++ tail
          = [] ++ tail ∨ frac ≠ None) as Hfr by (destruct frac; auto).
  assert (∀ s e g', close_group (Some name) s e
                      (match frac with Some _ => Marks (spans g') None | None => g' end)
                    = close_group (Some name) s e g')
    as Hclose by (intros s e g'; by destruct frac).
  set (fr := match frac with Some fs => "."%byte :: fs | None => [] end) in *.
  assert (match fr ++ tail with
          | b :: _ => cset_mem (Set_ [IDigit; IByte ","%byte]) b = false
          | [] => True
          end) as Hstop.
  { destruct frac as [fs|]; [done|]. by apply (line_tail_not_in _ tail). }
  clearbody fr.
  assert (∀ p0 g0 k0,
    k0 tail (p0 + length (d :: ints) + length fr)
       (match frac with Some _ => Marks (spans g0) None | None => g0 end) = Some res →
    run (Plus (Set_ [IDigit; IByte ","%byte]) ⋅ Opt (Group None (ch "." ⋅ Plus digit)))
        (d :: ints ++ fr ++ tail) p0 g0 k0 = Some res) as Hbody.
  { intros p0 g0 k0 Hk0. rewrite run_seq. apply run_plus_max.
    - by rewrite amount_set_mem.
    - rewrite (forallb_ext _ amount_byte); [done|]. apply amount_set_mem.
    - done.
    - apply Hfraction; [done..|]. rewrite <-Hk0. f_equal. simpl. lia. }
  unfold amount_re. rewrite run_group, run_seq.
  rewrite !length_app in Hk. simpl in Hk.
  destruct neg.
  - apply run_opt_first.
    rewrite <-!(assoc_L (++)). simpl app. rewrite run_ch_cons.
    apply Hbody. rewrite Hclose. eapply eq_trans; [|exact Hk].
    match goal with |- k _ ?a _ = k _ ?a' _ => by replace a with a' by (simpl; lia) end.
  - rewrite <-!(assoc_L (++)). simpl app.
    rewrite run_opt_skip.
    + apply Hbody. rewrite Hclose. eapply eq_trans; [|exact Hk].
      match goal with |- k _ ?a _ = k _ ?a' _ => by replace a with a' by (simpl; lia) end.
    + apply run_ch_ne. clear -Hd. by destruct d.
Qed.

End RunAmount.

Lemma line_end_tail (cr : bool) rest :
  at_line_end rest → line_tail ((if cr then [CR] else []) ++ rest).
Proof. intros [-> | [l' ->]]; destruct cr; simpl; auto. Qed.

Lemma run_line_end_ok {R} (cr : bool) rest p g (k : bytes → nat → marks → option R) :
  at_line_end rest →
  run line_end ((if cr then [CR] else []) ++ rest) p g k
  = k rest (p + length (if cr then [CR] else [])) g.
Proof.
  intros [-> | [l' ->]]; destruct cr; simpl;
    rewrite ?Nat.add_0_r, ?Nat.add_1_r; try done; by destruct (k _ _ _).
Qed.

Lemma split_block_app cat memo amt tail :
  split_block cat memo amt ++ tail
  = "S"%byte :: cat ++ LF ::
      match memo with
      | Some m => "E"%byte :: m ++ LF :: "$"%byte :: amt ++ tail
      | None => "$"%byte :: amt ++ tail
      end.
Proof.
  unfold split_block. destruct memo; simpl;
    repeat (rewrite <-(assoc_L (++)); simpl); done.
Qed.

(** The Split pattern takes a whole split block that stands at the
    end of its line, and its groups are the parts of the block. *)
Lemma run_split cat memo neg ints frac (cr : bool) rest p :
  forallb not_lf cat = true →
  memo_ok memo →
  ints ≠ [] →
  forallb amount_byte ints = true →
  fraction_ok frac →
  at_line_end rest →
  let amt := amount_text neg ints frac in
  let block := split_block cat memo amt in
  let eol := if cr then [CR] else [] in
  ∃ m,
    run SPLIT (block ++ eol ++ rest) p no_marks (λ _ e g, Some (Match p e g)) = Some m
    ∧ m_start m = p
    ∧ m_end m = p + length block + length eol
    ∧ lastgroup (m_marks m) = Some "SPLIT"
    ∧ spans (m_marks m) !! "SPLIT" = Some (p, p + length block)
    ∧ spans (m_marks m) !! "category" = Some (p + 1, p + 1 + length cat)
    ∧ spans (m_marks m) !! "memo"
      = (λ x, (p + length cat + 3, p + length cat + 3 + length x)) <$> memo
    ∧ spans (m_marks m) !! "amount" = Some (p + length block - length amt, p + length block).
Proof.
  intros Hcat Hmemo Hne Hints Hfrac Hrest amt block eol.
  pose proof (line_end_tail cr rest Hrest) as Htail.
  unfold block, eol, amt. clear block eol amt.
  destruct memo as [x|]; eexists; split.
  - rewrite split_block_app. unfold SPLIT.
    rewrite run_seq, run_group, run_seq, run_ch_cons, run_seq, run_group.
    apply run_star_max; [done..|].
    rewrite run_seq, run_opt_skip by done. rewrite run_seq, run_ch_cons, run_seq.
    apply run_opt_first.
    rewrite run_seq, run_ch_cons, run_seq, run_group.
    apply run_star_max; [done..|].
    rewrite run_seq, run_opt_skip by done. rewrite run_ch_cons.
    rewrite run_seq, run_ch_cons.
    apply run_amount; [done..|].
    cbv beta. rewrite run_line_end_ok by done. reflexivity.
  - unfold split_block. simpl. rewrite !length_app. simpl. rewrite !length_app. simpl.
    split_and!; try done; try lia.
    all: rewrite ?lookup_insert_ne by done; rewrite lookup_insert_eq; do 2 f_equal; lia.
  - rewrite split_block_app. unfold SPLIT.
    rewrite run_seq, run_group, run_seq, run_ch_cons, run_seq, run_group.
    apply run_star_max; [done..|].
    rewrite run_seq, run_opt_skip by done. rewrite run_seq, run_ch_cons, run_seq.
    rewrite run_opt_skip by done.
    rewrite run_seq, run_ch_cons.
    apply run_amount; [done..|].
    cbv beta. rewrite run_line_end_ok by done. reflexivity.
  - unfold split_block. simpl. rewrite !length_app. simpl.
    split_and!; try done; try lia.
    all: rewrite ?lookup_insert_ne by done; rewrite ?lookup_insert_eq, ?lookup_empty;
      try done; do 2 f_equal; lia.
Qed.

(** *** UTF-8 decoding of a text made of parts *)

Lemma utf8_decode_app a b a' :
  Py.utf8_decode a = Some a' →
  Py.utf8_decode (a ++ b) = (a' ++.) <$> Py.utf8_decode b.
Proof.
  remember (length a) as n eqn:Hn. revert a a' Hn.
  induction n as [n IH] using lt_wf_ind. intros a a' Hn Ha.
  assert (∀ l l' c, length l < n → Py.utf8_decode l = Some l' →
            cons c <$> Py.utf8_decode (l ++ b)
            = ((c :: l') ++.) <$> Py.utf8_decode b) as Hstep.
  { intros l l' c Hl Hdec. rewrite (IH (length l) Hl l l' eq_refl Hdec).
    by destruct (Py.utf8_decode b). }
  destruct a as [|b1 l1]; simpl in Ha.
  { injection Ha as <-. simpl. by destruct (Py.utf8_decode b). }
  simpl app. cbn [Py.utf8_decode]. cbn [Py.utf8_decode] in Ha.
  destruct (Byte.to_N b1 <? 128)%N.
  { destruct (Py.utf8_decode l1) as [l1'|] eqn:E1; [|done]. injection Ha as <-.
    apply Hstep; [simpl in Hn; lia|done]. }
  destruct l1 as [|b2 l2]; [done|]. simpl app.
  destruct ((194 <=? Byte.to_N b1)%N && (Byte.to_N b1 <=? 223)%N).
  { destruct (Py.is_cont (Byte.to_N b2)); [|done].
    destruct (Py.utf8_decode l2) as [l2'|] eqn:E2; [|done]. injection Ha as <-.
    apply Hstep; [simpl in Hn; lia|done]. }
  destruct l2 as [|b3 l3]; [done|]. simpl app.
  destruct ((224 <=? Byte.to_N b1)%N && (Byte.to_N b1 <=? 239)%N).
  { destruct (Py.second3 (Byte.to_N b1) (Byte.to_N b2) && Py.is_cont (Byte.to_N b3));
      [|done].
    destruct (Py.utf8_decode l3) as [l3'|] eqn:E3; [|done]. injection Ha as <-.
    apply Hstep; [simpl in Hn; lia|done]. }
  destruct l3 as [|b4 l4]; [done|]. simpl app.
  destruct ((240 <=? Byte.to_N b1)%N && (Byte.to_N b1 <=? 244)%N); [|done].
  destruct (Py.second4 (Byte.to_N b1) (Byte.to_N b2) && Py.is_cont (Byte.to_N b3)
            && Py.is_cont (Byte.to_N b4)); [|done].
  destruct (Py.utf8_decode l4) as [l4'|] eqn:E4; [|done]. injection Ha as <-.
  apply Hstep; [simpl in Hn; lia|done].
Qed.

Lemma utf8_decode_ascii l :
  forallb is_ascii l = true → Py.utf8_decode l = Some (Byte.to_N <$> l).
Proof.
  induction l as [|b l IH]; simpl; [done|].
  intros [Hb Hl]%andb_true_iff. unfold is_ascii in Hb. by rewrite Hb, IH.
Qed.

Lemma utf8_decode_ascii_app l b :
  forallb is_ascii l = true →
  Py.utf8_decode (l ++ b) = ((Byte.to_N <$> l) ++.) <$> Py.utf8_decode b.
Proof. intros H. apply utf8_decode_app. by apply utf8_decode_ascii. Qed.

Lemma amount_text_ascii neg ints frac :
  forallb amount_byte ints = true →
  fraction_ok frac →
  forallb is_ascii (amount_text neg ints frac) = true.
Proof.
  intros Hints Hfrac. unfold amount_text. rewrite !forallb_app.
  assert (∀ l f, (∀ b, f b = true → is_ascii b = true) →
                 forallb f l = true → forallb is_ascii l = true) as Hmono.
  { intros l f Hf. induction l as [|b l IHl]; simpl; [done|].
    intros [Hb Hl]%andb_true_iff. by rewrite (Hf b Hb), IHl. }
  apply andb_true_iff. split; [by destruct neg|].
  apply andb_true_iff. split.
  - apply (Hmono _ amount_byte); [|done]. intros b. by destruct b.
  - destruct frac as [fs|]; [|done]. destruct Hfrac as [_ Hfs]. simpl.
    apply (Hmono _ is_digit); [|done]. intros b. by destruct b.
Qed.

(** *** Matching inside a text *)

Lemma match_at_app re pre l :
  match_at re (pre ++ l) (length pre)
  = run re l (length pre) no_marks (λ _ e g, Some (Match (length pre) e g)).
Proof.
  unfold match_at. rewrite length_app.
  replace (length pre `min` (length pre + length l)) with (length pre) by lia.
  by rewrite drop_app_length.
Qed.

Lemma slice_middle {A} (a x c : list A) :
  slice (a ++ x ++ c) (length a) (length a + length x) = x.
Proof.
  unfold slice. rewrite drop_app_length.
  replace (length a + length x - length a) with (length x) by lia.
  apply take_app_length.
Qed.

Lemma slice_part {A} (a x c text : list A) s e :
  text = a ++ x ++ c → s = length a → e = length a + length x →
  slice text s e = x.
Proof. intros -> -> ->. apply slice_middle. Qed.

(** A record pattern whose marker is another byte does not match. *)
Lemma run_other_marker {R} name marker body x l p g
    (k : bytes → nat → marks → option R) :
  byte_eqb x marker = false →
  run (Group (Some name) (ch marker ⋅ body) ⋅ line_end) (x :: l) p g k = None.
Proof. intros H. rewrite run_seq, run_group, run_seq. by apply run_ch_ne. Qed.

(** At a byte "S" only the Split pattern is left to match. *)
Lemma first_match_at_S pre l m :
  match_at SPLIT (pre ++ "S"%byte :: l) (length pre) = Some m →
  first_match _qif_record_regexes (pre ++ "S"%byte :: l) (length pre) = Some (SPLIT, m).
Proof.
  intros Hm. unfold _qif_record_regexes. cbn [first_match]. rewrite Hm.
  rewrite !match_at_app.
  unfold HEADER, DATE, T_AMOUNT, U_AMOUNT, CLEARED, PAYEE, MEMO, CATEGORY,
    ADDRESS, N_REC, value_line.
  by rewrite !run_other_marker by done.
Qed.

Lemma decode_val_memo (memo : option bytes) (memo' : option pystr) :
  Py.utf8_decode <$> memo = Some <$> memo' →
  decode_val memo = Ok (from_option VStr VNone memo').
Proof.
  destruct memo as [x|], memo' as [x'|]; simpl; try done.
  intros [= ->]. done.
Qed.

Lemma utf8_decode_split_block cat memo amt cat' memo' :
  Py.utf8_decode cat = Some cat' →
  Py.utf8_decode <$> memo = Some <$> memo' →
  forallb is_ascii amt = true →
  ∃ block', Py.utf8_decode (split_block cat memo amt) = Some block'.
Proof.
  intros Hcat Hmemo Hamt. rewrite <-(app_nil_r (split_block _ _ _)), split_block_app.
  cbn [Py.utf8_decode]. change (Byte.to_N "S" <? 128)%N with true. cbv iota.
  rewrite (utf8_decode_app _ _ _ Hcat).
  cbn [Py.utf8_decode]. change (Byte.to_N LF <? 128)%N with true. cbv iota.
  assert (∃ t, Py.utf8_decode ("$"%byte :: amt ++ []) = Some t) as [t Ht].
  { cbn [Py.utf8_decode]. change (Byte.to_N "$" <? 128)%N with true. cbv iota.
    rewrite app_nil_r, (utf8_decode_ascii _ Hamt). by eexists. }
  destruct memo as [x|], memo' as [x'|]; simplify_eq/=.
  - rewrite (utf8_decode_app _ _ x') by done. simpl. rewrite Ht. by eexists.
  - rewrite Ht. by eexists.
Qed.

(* ================================================================== *)
(** ** Properties of the parser *)

(** C1: when the scanner yields a run [g] of records other than End
    followed by an End record [e], the parser yields, after the
    transactions of the groups before it, exactly one transaction for
    that run; its records are the records of [g] cast in their order
    (as many as [g] has), without [e]; its kind is SPLIT when [g] has a
    Split record and NORMAL otherwise; and the loop goes on with the
    records after [e] from an empty buffer and kind NORMAL. *)
Theorem transaction_grouping text pre gs g e rest fin trs :
  _recordize text = (pre ++ g ++ e :: rest, fin) →
  grouped pre gs [] →
  Forall castable pre →
  Forall (λ r, has_type r "END" = false) g →
  has_type e "END" = true →
  cast_all g trs →
  ∃ ts,
    Forall2 transaction_of gs ts
    ∧ parse (Bytes text)
      = prepend ts
          (yield (mkTransaction
                    (if existsb (λ r, has_type r "SPLIT") g
                     then TTYPE_SPLIT else TTYPE_NORMAL)
                    trs)
                 (parse_loop TTYPE_NORMAL [] rest fin))
    ∧ length trs = length g.
Proof.
  intros Hscan Hpre Hcpre Hg He Htrs.
  destruct (parse_loop_prepend pre gs (g ++ e :: rest) fin Hpre Hcpre)
    as (ts & Hts & Hloop).
  exists ts. split; [done|]. split.
  - simpl. unfold parse_bytes. rewrite Hscan, Hloop. f_equal.
    apply (parse_loop_group g e rest fin trs TTYPE_NORMAL []); [done..|].
    by apply mapM_cast_all.
  - symmetry. by eapply Forall2_length.
Qed.

Lemma transaction_grouping_witness :
  ∃ ts,
    Forall2 transaction_of [[record_of "PAYEE" [("PAYEE", txt "PBob"); ("value", txt "Bob")]]] ts
    ∧ parse (Bytes split_qif)
      = prepend ts
          (yield (mkTransaction TTYPE_SPLIT
                    [record_of "SPLIT" [("category", txt "food"); ("amount", amount_of false 7 0)];
                     record_of "MEMO" [("value", txt "hi")]])
                 (parse_loop TTYPE_NORMAL []
                    [record_of "CATEGORY" [("CATEGORY", txt "Lx"); ("value", txt "x")]]
                    Exhausted))
    ∧ 2 = 2.
Proof.
  pose (payee := record_of "PAYEE" [("PAYEE", txt "PBob"); ("value", txt "Bob")]).
  pose (e := record_of "END" [("END", txt "^")]).
  pose (split := record_of "SPLIT"
                   [("SPLIT", VStr (str_of "Sfood" ++ [10%N] ++ str_of "$7"));
                    ("category", txt "food"); ("memo", VNone); ("amount", txt "7")]).
  pose (memo := record_of "MEMO" [("MEMO", txt "Mhi"); ("value", txt "hi")]).
  apply (transaction_grouping split_qif [payee; e] [[payee]] [split; memo] e).
  - vm_compute. reflexivity.
  - apply (grouped_group [payee] e [] [] []).
    + repeat constructor.
    + reflexivity.
    + apply grouped_tail. constructor.
  - repeat constructor; eexists; vm_compute; reflexivity.
  - repeat constructor.
  - reflexivity.
  - repeat constructor; vm_compute; reflexivity.
Defined.

(** C2: the recognizer tries the patterns in the order Header, Date,
    TotalAmount, UnitAmount, Cleared, Payee, Memo, Category, Address,
    Number, Split, End, and the first one that matches at the cursor
    wins: a record is yielded exactly when a pattern of that list
    matches at the cursor, none before it in the list does, and the
    groups of the match decode. The match starts exactly at the cursor,
    the record has the last group of the match as its type and the
    decoded groups as its fields, and the next cursor is the end of the
    match plus one. *)
Theorem recognizer_priority text position record position' :
  scan text position = Yield record position' ↔
  ∃ before re after m,
    [HEADER; DATE; T_AMOUNT; U_AMOUNT; CLEARED; PAYEE; MEMO; CATEGORY;
     ADDRESS; N_REC; SPLIT; END] = before ++ re :: after
    ∧ Forall (λ r, match_at r text position = None) before
    ∧ match_at re text position = Some m
    ∧ m_start m = position
    ∧ type record = lastgroup (m_marks m)
    ∧ decoded_dict re text m = Ok (value_dict record)
    ∧ position' = m_end m + 1.
Proof.
  split.
  - intros (re & m & Hf & -> & Hty & Hd)%scan_yield.
    destruct (first_match_record_pattern _ _ _ _ Hf) as (name & Hname & Hm).
    apply first_match_inv in Hf as (before & after & Hre & Hbefore & _).
    exists before, re, after, m. split_and!; try done.
    by eapply match_at_record_pattern in Hm as (_ & ? & _).
  - intros (before & re & after & m & Hlist & Hbefore & Hm & _ & Hty & Hd & ->).
    unfold scan, _qif_record_regexes. rewrite Hlist.
    rewrite (first_match_skip _ _ _ _ _ _ Hbefore Hm), Hd.
    destruct record as [ty d]. simpl in *. by rewrite Hty.
Qed.

Lemma recognizer_priority_witness :
  scan good_qif 38
  = Yield (record_of "CATEGORY"
             [("CATEGORY", txt "LUtilities"); ("value", txt "Utilities")])
          49.
Proof.
  apply recognizer_priority.
  exists [HEADER; DATE; T_AMOUNT; U_AMOUNT; CLEARED; PAYEE; MEMO], CATEGORY,
         [ADDRESS; N_REC; SPLIT; END].
  exists (Match 38 48
            (close_group (Some "CATEGORY") 38 48
               (close_group (Some "value") 39 48 no_marks))).
  split_and!.
  - reflexivity.
  - repeat (constructor; [by vm_compute|]). constructor.
  - by vm_compute.
  - reflexivity.
  - reflexivity.
  - by vm_compute.
  - reflexivity.
Defined.

(** C3: a split block, made of a category line "S...", a memo line
    "E..." when there is a memo, and an amount line "$..." that ends
    its line, is recognized at its first byte as one Split record that
    takes the whole block (the next cursor is past the block and its
    line end); casting that record gives the three sub-fields
    category, amount and memo when the block has a memo line, and the
    two sub-fields category and amount when it has none. *)
Theorem split_atomic (pre cat : bytes) (memo : option bytes) neg ints frac (cr : bool)
    (rest : bytes) (cat' : pystr) (memo' : option pystr) (f : Py.pyfloat) :
  let amt := amount_text neg ints frac in
  let block := split_block cat memo amt in
  let eol := if cr then [CR] else [] in
  let text := pre ++ block ++ eol ++ rest in
  forallb not_lf cat = true →
  memo_ok memo →
  ints ≠ [] →
  forallb amount_byte ints = true →
  fraction_ok frac →
  at_line_end rest →
  Py.utf8_decode cat = Some cat' →
  Py.utf8_decode <$> memo = Some <$> memo' →
  Py.float (Py.remove_char 44 (Byte.to_N <$> amt)) = Some f →
  ∃ record sub_dict,
    scan text (length pre) = Yield record (length pre + length block + length eol + 1)
    ∧ type record = Some "SPLIT"
    ∧ cast record = Ok (mkRecord (Some "SPLIT") sub_dict)
    ∧ sub_dict
      = match memo' with
        | Some m => <["memo" := VStr m]> (<["amount" := VFloat f]> {["category" := VStr cat']})
        | None => <["amount" := VFloat f]> {["category" := VStr cat']}
        end
    ∧ size sub_dict = match memo' with Some _ => 3 | None => 2 end.
Proof.
  intros amt block eol text Hcat Hmemo Hne Hints Hfrac Hrest Hcat' Hmemo' Hf.
  destruct (run_split cat memo neg ints frac cr rest (length pre))
    as (m & Hrun & Hstart & Hend & Hlast & Hsplit & Hcategory & Hmemo_span & Hamount);
    [done..|].
  fold amt in Hrun, Hend, Hsplit, Hamount. fold block in Hrun, Hend, Hsplit, Hamount.
  fold eol in Hrun, Hend.
  assert (match_at SPLIT text (length pre) = Some m) as Hm.
  { unfold text. by rewrite match_at_app. }
  assert (first_match _qif_record_regexes text (length pre) = Some (SPLIT, m)) as Hfirst.
  { unfold text, block in *. rewrite split_block_app in *. by apply first_match_at_S. }
  pose proof (amount_text_ascii neg ints frac Hints Hfrac) as Hascii. fold amt in Hascii.
  destruct (utf8_decode_split_block cat memo amt cat' memo' Hcat' Hmemo' Hascii)
    as [block' Hblock'].
  assert (groupdict SPLIT text m
          = [("SPLIT", Some block); ("category", Some cat); ("memo", memo);
             ("amount", Some amt)]) as Hdict.
  { unfold groupdict. change (group_names SPLIT) with ["SPLIT"; "category"; "memo"; "amount"].
    cbn [map]. rewrite Hsplit, Hcategory, Hmemo_span, Hamount. cbn [fmap option_fmap option_map].
    repeat f_equal.
    - apply slice_middle.
    - apply (slice_part (pre ++ ["S"%byte]) cat
               (LF :: match memo with
                      | Some x => "E"%byte :: x ++ LF :: "$"%byte :: amt ++ eol ++ rest
                      | None => "$"%byte :: amt ++ eol ++ rest
                      end)).
      + unfold text, block. rewrite split_block_app, <-(assoc_L (++)). done.
      + rewrite length_app. simpl. lia.
      + rewrite length_app. simpl. lia.
    - destruct memo as [x|]; [|done]. simpl. f_equal.
      apply (slice_part (pre ++ "S"%byte :: cat ++ [LF; "E"%byte]) x
               (LF :: "$"%byte :: amt ++ eol ++ rest)).
      + unfold text, block. rewrite split_block_app.
        rewrite <-!(assoc_L (++)). simpl. by rewrite <-!(assoc_L (++)).
      + rewrite length_app. simpl. rewrite length_app. simpl. lia.
      + rewrite length_app. simpl. rewrite length_app. simpl. lia.
    - assert (∃ b0, block = b0 ++ amt) as [b0 Hb0].
      { unfold block, split_block. destruct memo as [x|].
        - exists ("S"%byte :: cat ++ [LF] ++ ("E"%byte :: x ++ [LF]) ++ ["$"%byte]).
          simpl. rewrite <-!(assoc_L (++)). simpl. by rewrite <-!(assoc_L (++)).
        - exists ("S"%byte :: cat ++ [LF] ++ ["$"%byte]).
          simpl. by rewrite <-!(assoc_L (++)). }
      apply (slice_part (pre ++ b0) amt (eol ++ rest)).
      + unfold text. rewrite Hb0. by rewrite <-!(assoc_L (++)).
      + rewrite Hb0, !length_app. lia.
      + rewrite Hb0, !length_app. lia. }
  set (raw := list_to_map
                [("SPLIT", VStr block'); ("category", VStr cat');
                 ("memo", from_option VStr VNone memo');
                 ("amount", VStr (Byte.to_N <$> amt))] : gmap string pyval).
  assert (decoded_dict SPLIT text m = Ok raw) as Hdecoded.
  { unfold decoded_dict. rewrite Hdict. cbn [mapM decode_val].
    fold block in Hblock'.
    rewrite Hblock', Hcat', (utf8_decode_ascii _ Hascii), (decode_val_memo _ _ Hmemo').
    done. }
  exists (mkRecord (Some "SPLIT") raw). eexists. split_and!.
  - unfold scan. rewrite Hfirst, Hdecoded, Hlast, Hend. done.
  - done.
  - unfold cast. cbn [type]. change (Some "SPLIT" ≫= (_record_casts !!.)) with (Some _cast_split).
    unfold _cast_split, getitem, present. cbn [value_dict].
    assert (raw !! "category" = Some (VStr cat')) as -> by done.
    assert (raw !! "amount" = Some (VStr (Byte.to_N <$> amt))) as -> by done.
    assert (raw !! "memo" = Some (from_option VStr VNone memo')) as -> by done.
    simpl. rewrite Hf. simpl. reflexivity.
  - by destruct memo'.
  - destruct memo'; done.
Qed.



Lemma split_atomic_witness :
  (∃ record sub_dict,
     scan split_qif 7 = Yield record 16
     ∧ type record = Some "SPLIT"
     ∧ cast record = Ok (mkRecord (Some "SPLIT") sub_dict)
     ∧ sub_dict = <["amount" := amount_of false 7 0]> {["category" := txt "food"]}
     ∧ size sub_dict = 2)
  ∧ (∃ record sub_dict,
       scan (bytes_of "Sfood" ++ [CR; LF] ++ line "Elunch" ++ bytes_of "$-1,2.5" ++ [CR; LF]) 0
       = Yield record 23
       ∧ type record = Some "SPLIT"
       ∧ cast record = Ok (mkRecord (Some "SPLIT") sub_dict)
       ∧ sub_dict = <["memo" := txt "lunch"]>
                      (<["amount" := amount_of true 125 1]>
                         {["category" := VStr (str_of "food" ++ [13%N])]})
       ∧ size sub_dict = 3).
Proof.
  split.
  - destruct (split_atomic (line "PBob" ++ line "^") (bytes_of "food") None false
                (bytes_of "7") None false (LF :: line "Mhi" ++ line "^" ++ line "Lx")
                (str_of "food") None (Py.Decimal false 7 0))
      as (record & sub_dict & H1 & H2 & H3 & H4 & H5).
    1-9: first [ by vm_compute | by right; eexists ].
    exists record, sub_dict. split_and!; [exact H1|exact H2|exact H3|exact H4|exact H5].
  - destruct (split_atomic [] (bytes_of "food" ++ [CR]) (Some (bytes_of "lunch")) true
                (bytes_of "1,2") (Some (bytes_of "5")) true [LF]
                (str_of "food" ++ [13%N]) (Some (str_of "lunch")) (Py.Decimal true 125 1))
      as (record & sub_dict & H1 & H2 & H3 & H4 & H5).
    1-9: first [ by vm_compute | by right; eexists ].
    exists record, sub_dict. split_and!; [exact H1|exact H2|exact H3|exact H4|exact H5].
Defined.

(** C6: when the scanner stands at a cursor inside the text where no
    record pattern matches, the parser raises SyntaxError with the
    message "Error at position <cursor>, <repr of the text from the
    cursor on>"; before that it has yielded the transactions of the
    groups an End record closed, in order, and it yields nothing for
    the records after the last End nor for anything at or after the
    cursor. *)
Theorem lexical_error text position rs gs tail :
  reaches text position rs →
  position < length text →
  Forall (λ re, match_at re text position = None) _qif_record_regexes →
  grouped rs gs tail →
  Forall castable rs →
  ∃ ts,
    Forall2 transaction_of gs ts
    ∧ parse (Bytes text)
      = (ts, Raised (SyntaxError ("Error at position " +:+ pretty position +:+ ", "
                                  +:+ Py.bytes_repr (drop position text)))).
Proof.
  intros Hreach Hpos Hnone Hgr Hcast.
  assert (scan text position
          = Stop (Raised (SyntaxError (error_message text position)))) as Hscan.
  { unfold scan. apply first_match_none in Hnone as ->. by rewrite bool_decide_true. }
  destruct (parse_loop_grouped rs gs tail
              (Raised (SyntaxError (error_message text position))) Hgr Hcast)
    as (ts & Hts & Hloop).
  exists ts. split; [done|].
  simpl. rewrite (parse_reaches _ _ _ Hreach).
  rewrite (recordize_from_stop _ _ _ _ Hscan). simpl. by rewrite app_nil_r.
Qed.

Lemma lexical_error_witness :
  parse (Bytes bad_qif) = ([], Raised (SyntaxError "Error at position 37, b'Q^\nZ^'"))
  ∧ String.index 0 "Q^" "Error at position 37, b'Q^\nZ^'" = Some 24.
Proof.
  pose (rs := [record_of "DATE"
                 [("DATE", txt "D11/ 8'16"); ("month", txt "11"); ("day", txt " 8");
                  ("year_short", txt "16"); ("year_long", VNone)];
               record_of "U_AMOUNT" [("U_AMOUNT", txt "U-107.88"); ("amount", txt "-107.88")];
               record_of "T_AMOUNT" [("T_AMOUNT", txt "T-107.88"); ("amount", txt "-107.88")];
               record_of "PAYEE" [("PAYEE", txt "PVERIZON"); ("value", txt "VERIZON")]]).
  destruct (lexical_error bad_qif 37 rs [] rs) as (ts & Hts & Hparse).
  - apply (reaches_yield _ 28 (take 3 rs) _ 37); [|vm_compute; reflexivity].
    apply (reaches_yield _ 19 (take 2 rs) _ 28); [|vm_compute; reflexivity].
    apply (reaches_yield _ 10 (take 1 rs) _ 19); [|vm_compute; reflexivity].
    apply (reaches_yield _ 0 [] _ 10); [|vm_compute; reflexivity].
    apply reaches_start.
  - vm_compute. lia.
  - repeat constructor.
  - apply grouped_tail. repeat constructor.
  - repeat constructor; eexists; vm_compute; reflexivity.
  - inversion Hts; subst. rewrite Hparse. split; vm_compute; reflexivity.
Defined.

(** C7, as the claim states it, fails: the text "PVERIZON" with its
    line feed is exhausted with one record in the buffer and no End
    record, and the parser raises nothing. *)
Lemma truncated_input_raises_nothing :
  ¬ (∀ text position rs gs tail,
       reaches text position rs →
       length text ≤ position →
       grouped rs gs tail →
       tail ≠ [] →
       ∃ e, (parse (Bytes text)).2 = Raised e).
Proof.
  intros H.
  pose (payee := record_of "PAYEE" [("PAYEE", txt "PVERIZON"); ("value", txt "VERIZON")]).
  destruct (H (line "PVERIZON") 9 [payee] [] [payee]) as [e He].
  - apply (reaches_yield _ 0 [] _ 9); [apply reaches_start|].
    vm_compute. reflexivity.
  - vm_compute. lia.
  - apply grouped_tail. repeat constructor.
  - done.
  - vm_compute in He. discriminate.
Qed.

(** C7, amended: when the text is exhausted, whatever the buffer
    holds, the parser ends normally, without any error; it has yielded
    the transactions of the groups an End record closed and nothing for
    the records after the last End, which are dropped. *)
Theorem truncated_input text position rs gs tail :
  reaches text position rs →
  length text ≤ position →
  grouped rs gs tail →
  Forall castable rs →
  ∃ ts, Forall2 transaction_of gs ts ∧ parse (Bytes text) = (ts, Exhausted).
Proof.
  intros Hreach Hpos Hgr Hcast.
  destruct (parse_loop_grouped rs gs tail Exhausted Hgr Hcast) as (ts & Hts & Hloop).
  exists ts. split; [done|].
  simpl. rewrite (parse_reaches _ _ _ Hreach).
  rewrite (recordize_from_stop _ _ _ _ (scan_past_end _ _ Hpos)).
  simpl. by rewrite app_nil_r.
Qed.

Lemma truncated_input_witness :
  ∃ ts,
    Forall2 transaction_of [[]] ts
    ∧ parse (Bytes (line "^" ++ line "PVERIZON")) = (ts, Exhausted).
Proof.
  pose (e := record_of "END" [("END", txt "^")]).
  pose (payee := record_of "PAYEE" [("PAYEE", txt "PVERIZON"); ("value", txt "VERIZON")]).
  apply (truncated_input (line "^" ++ line "PVERIZON") 11 [e; payee] [[]] [payee]).
  - apply (reaches_yield _ 2 [e] _ 11); [|vm_compute; reflexivity].
    apply (reaches_yield _ 0 [] _ 2); [|vm_compute; reflexivity].
    apply reaches_start.
  - vm_compute. lia.
  - apply (grouped_group [] e [payee] [] [payee]); [constructor|reflexivity|].
    apply grouped_tail. repeat constructor.
  - repeat constructor; eexists; vm_compute; reflexivity.
Defined.

(** C8, as the claim states it, fails: the text "^", with no line
    feed after it, is accepted as an End record. *)
Lemma record_without_line_feed :
  ¬ (∀ text position record position',
       scan text position = Yield record position' →
       text !! (position' - 1) = Some LF).
Proof.
  intros H.
  specialize (H (bytes_of "^") 0 (record_of "END" [("END", txt "^")]) 2).
  discriminate H. vm_compute. reflexivity.
Qed.

(** C8, amended: a record is accepted only when its matched line,
    which takes in a carriage return standing before the line end, is
    followed by a line feed or by the end of the text. *)
Theorem record_line_terminated text position record position' :
  scan text position = Yield record position' →
  text !! (position' - 1) = Some LF ∨ position' - 1 = length text.
Proof.
  intros (re & m & Hf & -> & _)%scan_yield.
  apply first_match_record_pattern in Hf as (name & Hname & Hm).
  eapply match_at_record_pattern in Hm as (_ & _ & Hend & [Heol|[l' Heol]] & _);
    [| |done].
  - right. apply (f_equal length) in Heol. rewrite length_drop in Heol. simpl in Heol. lia.
  - left. replace (m_end m + 1 - 1) with (m_end m + 0) by lia.
    by rewrite <-lookup_drop, Heol.
Qed.

Lemma record_line_terminated_witness :
  good_qif !! (11 - 1) = Some LF ∨ 11 - 1 = length good_qif.
Proof.
  apply (record_line_terminated good_qif 0
           (record_of "DATE"
              [("DATE", txt "D11/ 8'16"); ("month", txt "11"); ("day", txt " 8");
               ("year_short", txt "16"); ("year_long", VNone)])).
  vm_compute. reflexivity.
Defined.

(** C9: parsing a [str] is parsing its UTF-8 encoding: the parse of
    [s] yields the same transactions, and ends the same way, as the
    parse of the bytes [s] encodes to. *)
Theorem str_input_as_bytes s b :
  Py.utf8_encode s = Some b → parse (Str s) = parse (Bytes b).
Proof. intros H. simpl. by rewrite H. Qed.

Lemma str_input_as_bytes_witness :
  parse (Str (str_of "PCaf" ++ [233%N; 10%N] ++ str_of "^"))
  = parse (Bytes (bytes_of "PCaf" ++ [xc3; xa9; LF] ++ bytes_of "^")).
Proof. apply str_input_as_bytes. vm_compute. reflexivity. Defined.

(** C10: on the empty input, given as a [str] or as bytes, the parser
    yields no transaction and ends normally. *)
Theorem empty_input :
  parse (Str []) = ([], Exhausted) ∧ parse (Bytes []) = ([], Exhausted).
Proof. split; reflexivity. Qed.

(** C4: a Date record whose short-year field reads [y] is cast to the
    date of year [2000 + y] when [y <= 50] and [1900 + y] otherwise,
    and one without a short year to the date of the year its long-year
    field reads; month and day are what [int] reads in their fields
    (and the cast raises, as [datetime.date] does, when these do not
    form a calendar date). *)
Theorem date_year_pivot record ms ds m d :
  type record = Some "DATE" →
  value_dict record !! "month" = Some (VStr ms) → Py.int ms = Some m →
  value_dict record !! "day" = Some (VStr ds) → Py.int ds = Some d →
  (∀ ys y,
     value_dict record !! "year_short" = Some (VStr ys) → Py.int ys = Some y →
     cast record
     = (date_val ← Py.date_new (if (y <=? 50)%Z then 2000 + y else 1900 + y)%Z m d;
        Ok (mkRecord (Some "DATE") {[ "date" := VDate date_val ]})))
  ∧ (∀ yl y,
       value_dict record !! "year_short" = Some VNone →
       value_dict record !! "year_long" = Some (VStr yl) → Py.int yl = Some y →
       cast record
       = (date_val ← Py.date_new y m d;
          Ok (mkRecord (Some "DATE") {[ "date" := VDate date_val ]}))).
Proof.
  intros Hty Hm Hmi Hd Hdi.
  assert (cast record = _cast_date record) as -> by (unfold cast; by rewrite Hty).
  unfold _cast_date, getitem, present. rewrite Hty, Hm, Hd. simpl. rewrite Hmi, Hdi. simpl.
  split.
  - intros ys y -> Hy. simpl. rewrite Hy. simpl.
    replace (y + 2000)%Z with (2000 + y)%Z by lia.
    replace (y + 1900)%Z with (1900 + y)%Z by lia.
    destruct (y <=? 50)%Z eqn:E; [done|].
    assert ((y >? 50)%Z = true) as -> by lia. done.
  - intros yl y -> -> Hy. simpl. by rewrite Hy.
Qed.

Lemma date_year_pivot_witness :
  scan (bytes_of "D11/ 8'16") 0
  = Yield (record_of "DATE"
             [("DATE", txt "D11/ 8'16"); ("month", txt "11"); ("day", txt " 8");
              ("year_short", txt "16"); ("year_long", VNone)]) 10
  ∧ cast (record_of "DATE"
            [("DATE", txt "D11/ 8'16"); ("month", txt "11"); ("day", txt " 8");
             ("year_short", txt "16"); ("year_long", VNone)])
    = Ok (record_of "DATE" [("date", date_of 2016 11 8)])
  ∧ cast (record_of "DATE"
            [("DATE", txt "D 2/29'51"); ("month", txt " 2"); ("day", txt "28");
             ("year_short", txt "51"); ("year_long", VNone)])
    = Ok (record_of "DATE" [("date", date_of 1951 2 28)])
  ∧ cast (record_of "DATE"
            [("DATE", txt "D12/31/1999"); ("month", txt "12"); ("day", txt "31");
             ("year_short", VNone); ("year_long", txt "1999")])
    = Ok (record_of "DATE" [("date", date_of 1999 12 31)]).
Proof.
  split; [vm_compute; reflexivity|].
  pose (r16 := record_of "DATE"
                 [("DATE", txt "D11/ 8'16"); ("month", txt "11"); ("day", txt " 8");
                  ("year_short", txt "16"); ("year_long", VNone)]).
  pose (r51 := record_of "DATE"
                 [("DATE", txt "D 2/29'51"); ("month", txt " 2"); ("day", txt "28");
                  ("year_short", txt "51"); ("year_long", VNone)]).
  pose (r99 := record_of "DATE"
                 [("DATE", txt "D12/31/1999"); ("month", txt "12"); ("day", txt "31");
                  ("year_short", VNone); ("year_long", txt "1999")]).
  split_and!.
  - etransitivity; [exact (proj1 (date_year_pivot r16 (str_of "11") (str_of " 8") 11%Z 8%Z
                      eq_refl eq_refl eq_refl eq_refl eq_refl)
               (str_of "16") 16%Z eq_refl eq_refl)|].
    vm_compute. reflexivity.
  - etransitivity; [exact (proj1 (date_year_pivot r51 (str_of " 2") (str_of "28") 2%Z 28%Z
                      eq_refl eq_refl eq_refl eq_refl eq_refl)
               (str_of "51") 51%Z eq_refl eq_refl)|].
    vm_compute. reflexivity.
  - etransitivity; [exact (proj2 (date_year_pivot r99 (str_of "12") (str_of "31") 12%Z 31%Z
                      eq_refl eq_refl eq_refl eq_refl eq_refl)
               (str_of "1999") 1999%Z eq_refl eq_refl eq_refl)|].
    vm_compute. reflexivity.
Defined.

(** C5: a TotalAmount or UnitAmount record is cast by removing the
    commas from its amount text and reading the rest as a signed
    decimal number; when the rest is not one (it is empty, or
    malformed), the cast raises ValueError and gives no value. *)
Theorem amount_cast record s :
  type record = Some "T_AMOUNT" ∨ type record = Some "U_AMOUNT" →
  value_dict record !! "amount" = Some (VStr s) →
  forallb amount_char s = true →
  cast record
  = match Py.float (Py.remove_char 44 s) with
    | Some f => Ok (mkRecord (type record) {[ "amount" := VFloat f ]})
    | None => Raise ValueError
    end.
Proof.
  intros Hty Hs _.
  assert (cast record = _cast_amount record) as ->
    by (unfold cast; by destruct Hty as [-> | ->]).
  unfold _cast_amount, getitem. rewrite Hs. simpl.
  by destruct (Py.float _).
Qed.

Lemma amount_cast_witness :
  scan (bytes_of "U-1,570.73") 0
  = Yield (record_of "U_AMOUNT" [("U_AMOUNT", txt "U-1,570.73"); ("amount", txt "-1,570.73")]) 11
  ∧ cast (record_of "U_AMOUNT" [("U_AMOUNT", txt "U-1,570.73"); ("amount", txt "-1,570.73")])
    = Ok (record_of "U_AMOUNT" [("amount", amount_of true 157073 2)])
  ∧ cast (record_of "T_AMOUNT" [("T_AMOUNT", txt "T"); ("amount", txt "")])
    = Raise ValueError
  ∧ cast (record_of "T_AMOUNT" [("T_AMOUNT", txt "T-,"); ("amount", txt "-,")])
    = Raise ValueError.
Proof.
  split; [vm_compute; reflexivity|].
  pose (u := record_of "U_AMOUNT"
               [("U_AMOUNT", txt "U-1,570.73"); ("amount", txt "-1,570.73")]).
  pose (t0 := record_of "T_AMOUNT" [("T_AMOUNT", txt "T"); ("amount", txt "")]).
  pose (t1 := record_of "T_AMOUNT" [("T_AMOUNT", txt "T-,"); ("amount", txt "-,")]).
  split_and!.
  - etransitivity; [exact (amount_cast u (str_of "-1,570.73") (or_intror eq_refl) eq_refl eq_refl)|].
    vm_compute. reflexivity.
  - etransitivity; [exact (amount_cast t0 (str_of "") (or_introl eq_refl) eq_refl eq_refl)|].
    vm_compute. reflexivity.
  - etransitivity; [exact (amount_cast t1 (str_of "-,") (or_introl eq_refl) eq_refl eq_refl)|].
    vm_compute. reflexivity.
Defined.

(* ================================================================== *)
(** ** Further properties *)

(** A pattern that opens with a marker only matches a text that opens
    with it, and names the match after its group. *)
Lemma run_marker {R} name marker (body : option regex) l p g
    (k : bytes → nat → marks → option R) res :
  run (Group (Some name)
         match body with Some r => ch marker ⋅ r | None => ch marker end ⋅ line_end)
      l p g k = Some res →
  ∃ l', l = marker :: l'.
Proof.
  intros H. rewrite run_seq, run_group in H.
  assert (∀ k', run (ch marker) l p g k' = Some res → ∃ l', l = marker :: l') as Hch.
  { intros k' Hk'. simpl in Hk'. apply one_consumes in Hk' as (b & l' & -> & Hb & _).
    simpl in Hb. rewrite orb_false_r in Hb. apply byte_eqb_eq in Hb as ->. eauto. }
  destruct body as [r|]; [rewrite run_seq in H|]; by eapply Hch.
Qed.

Lemma run_end_other {R} x l p g (k : bytes → nat → marks → option R) :
  byte_eqb x "^" = false → run END (x :: l) p g k = None.
Proof. intros H. unfold END. rewrite run_seq, run_group. by apply run_ch_ne. Qed.

(** The patterns with their markers and names. *)
Lemma record_patterns_markers re :
  re ∈ _qif_record_regexes →
  ∃ marker name body,
    (marker, name) ∈ markers
    ∧ re = Group (Some name)
             match body with Some r => ch marker ⋅ r | None => ch marker end ⋅ line_end.
Proof.
  unfold _qif_record_regexes. rewrite !elem_of_cons, elem_of_nil.
  intros H. destruct_or!; subst; try done.
  1-11: eexists _, _, (Some _); split; [|reflexivity]; unfold markers; set_solver.
  eexists _, _, None; split; [|reflexivity]; unfold markers; set_solver.
Qed.

(** X1: every record the scanner yields comes from inside the text
    and moves the cursor forward by at least two (the marker byte and
    the line terminator), never further than one past the end of the
    text. *)
Theorem scanner_moves_forward text position record position' :
  scan text position = Yield record position' →
  position < length text ∧ position + 2 ≤ position' ≤ length text + 1.
Proof. intros H%scan_progress. lia. Qed.

Lemma scanner_moves_forward_witness :
  0 < length good_qif ∧ 0 + 2 ≤ 11 ≤ length good_qif + 1.
Proof.
  apply (scanner_moves_forward good_qif 0
           (record_of "DATE"
              [("DATE", txt "D11/ 8'16"); ("month", txt "11"); ("day", txt " 8");
               ("year_short", txt "16"); ("year_long", VNone)])).
  vm_compute. reflexivity.
Defined.

(** X2: on every input the [while True] loop of [_recordize] comes
    to an end, and so does the parser: they end exhausted or by an
    exception, never by running on. *)
Theorem parser_terminates text :
  (parse text).2 ≠ OutOfFuel
  ∧ ∀ b, text = Bytes b → (_recordize b).2 ≠ OutOfFuel.
Proof.
  split; [apply parse_ends|]. intros b _. apply recordize_from_ends. lia.
Qed.

(** X3: the type of a record is fixed by the byte at the cursor: the
    cursor stands on one of the twelve markers, and the record has the
    type of that marker. *)
Theorem record_type_by_marker text position record position' :
  scan text position = Yield record position' →
  ∃ marker name,
    (marker, name) ∈ markers
    ∧ text !! position = Some marker
    ∧ type record = Some name.
Proof.
  intros (re & m & Hf & _ & Hty & _)%scan_yield.
  destruct (first_match_record_pattern _ _ _ _ Hf) as (name' & Hname' & Hm).
  pose proof (match_at_record_pattern _ _ _ _ _ Hname' Hm) as (Hpos & _ & _ & _ & Hlast).
  apply first_match_inv in Hf as (before & after & Hre & _ & _).
  destruct (record_patterns_markers re) as (marker & name & body & Hin & ->).
  { rewrite Hre. set_solver. }
  exists marker, name. split; [done|].
  unfold match_at in Hm. replace (position `min` length text) with position in Hm by lia.
  pose proof Hm as Hm'. apply run_marker in Hm' as [l' Hl'].
  split.
  - rewrite <-(Nat.add_0_r position), <-lookup_drop, Hl'. done.
  - rewrite Hty, Hlast. f_equal.
    destruct Hname' as (marker' & [[body' Heq] | Heq]); destruct body; by simplify_eq.
Qed.

Lemma record_type_by_marker_witness :
  ∃ marker name,
    (marker, name) ∈ markers
    ∧ good_qif !! 38 = Some marker
    ∧ type (record_of "CATEGORY" [("CATEGORY", txt "LUtilities"); ("value", txt "Utilities")])
      = Some name.
Proof.
  apply (record_type_by_marker good_qif 38 _ 49). vm_compute. reflexivity.
Defined.

Lemma run_marker_other {R} name marker (body : option regex) x l p g
    (k : bytes → nat → marks → option R) :
  byte_eqb x marker = false →
  run (Group (Some name)
         match body with Some r => ch marker ⋅ r | None => ch marker end ⋅ line_end)
      (x :: l) p g k = None.
Proof.
  intros H. rewrite run_seq, run_group.
  destruct body as [r|]; [rewrite run_seq|]; by apply run_ch_ne.
Qed.

Lemma is_marker_false b marker name :
  is_marker b = false → (marker, name) ∈ markers → byte_eqb b marker = false.
Proof.
  unfold is_marker. intros H Hin.
  destruct (byte_eqb b marker) eqn:E; [|done].
  rewrite <-H. symmetry. apply existsb_exists. exists (marker, name).
  split; [by apply list_elem_of_In|done].
Qed.

(** X4: when the byte at the cursor is none of the twelve markers
    (a blank line, for one), the scanner raises SyntaxError for that
    cursor. *)
Theorem unknown_marker_is_error text position b :
  text !! position = Some b →
  is_marker b = false →
  scan text position
  = Stop (Raised (SyntaxError ("Error at position " +:+ pretty position +:+ ", "
                               +:+ Py.bytes_repr (drop position text)))).
Proof.
  intros Hb Hmark. pose proof (lookup_lt_Some _ _ _ Hb) as Hlen.
  unfold scan.
  assert (first_match _qif_record_regexes text position = None) as ->.
  { apply first_match_none, Forall_forall. intros re Hre.
    destruct (record_patterns_markers re Hre) as (marker & name & body & Hin & ->).
    unfold match_at. replace (position `min` length text) with position by lia.
    rewrite (drop_S _ _ _ Hb). apply run_marker_other.
    by eapply is_marker_false. }
  by rewrite bool_decide_true.
Qed.

Lemma unknown_marker_is_error_witness :
  scan (line "^" ++ [LF]) 2
  = Stop (Raised (SyntaxError "Error at position 2, b'\n'")).
Proof.
  etransitivity; [apply (unknown_marker_is_error _ 2 LF); by vm_compute|].
  vm_compute. reflexivity.
Defined.

Lemma run_line_end_here {R} rest p g (k : bytes → nat → marks → option R) :
  at_line_end rest → run line_end rest p g k = k rest p g.
Proof.
  intros H. pose proof (run_line_end_ok false rest p g k H) as Hrun.
  simpl in Hrun. by rewrite Nat.add_0_r in Hrun.
Qed.

(** A free-text pattern takes its marker and the whole rest of the
    line, a carriage return at its end included. *)
Lemma match_value_line name marker pre value rest :
  forallb not_lf value = true →
  at_line_end rest →
  match_at (value_line name marker) (pre ++ marker :: value ++ rest) (length pre)
  = Some (Match (length pre) (S (length pre) + length value)
            (close_group (Some name) (length pre) (S (length pre) + length value)
               (close_group (Some "value") (S (length pre))
                  (S (length pre) + length value) no_marks))).
Proof.
  intros Hvalue Hrest. rewrite match_at_app. unfold value_line.
  rewrite run_seq, run_group, run_seq, run_ch_cons, run_group.
  apply run_star_max; [done|by destruct Hrest as [-> | [l' ->]]|].
  rewrite run_line_end_here by done. done.
Qed.

Lemma scan_value_line name marker before after pre value rest v :
  _qif_record_regexes = before ++ value_line name marker :: after →
  Forall (λ r, ∀ l p g (k : bytes → nat → marks → option match_obj),
               run r (marker :: l) p g k = None) before →
  is_ascii marker = true →
  name ≠ "value" →
  forallb not_lf value = true →
  at_line_end rest →
  Py.utf8_decode value = Some v →
  scan (pre ++ marker :: value ++ rest) (length pre)
  = Yield (mkRecord (Some name)
             (<[name := VStr (Byte.to_N marker :: v)]> {["value" := VStr v]}))
          (length pre + length value + 2).
Proof.
  intros Hlist Hbefore Hascii Hname Hvalue Hrest Hv.
  pose proof (match_value_line name marker pre value rest Hvalue Hrest) as Hm.
  assert (Forall (λ r, match_at r (pre ++ marker :: value ++ rest) (length pre) = None)
            before) as Hnone.
  { eapply Forall_impl; [exact Hbefore|]. intros r Hr. simpl. rewrite match_at_app. apply Hr. }
  unfold scan. rewrite Hlist, (first_match_skip _ _ after _ _ _ Hnone Hm).
  assert (decoded_dict (value_line name marker) (pre ++ marker :: value ++ rest)
            (Match (length pre) (S (length pre) + length value)
               (close_group (Some name) (length pre) (S (length pre) + length value)
                  (close_group (Some "value") (S (length pre))
                     (S (length pre) + length value) no_marks)))
          = Ok (<[name := VStr (Byte.to_N marker :: v)]> {["value" := VStr v]})) as ->.
  { unfold decoded_dict, groupdict.
    change (group_names (value_line name marker)) with [name; "value"].
    cbn [map m_marks close_group spans].
    rewrite lookup_insert_eq, lookup_insert_ne, lookup_insert_eq by done.
    cbn [fmap option_fmap option_map].
    rewrite (slice_part pre (marker :: value) rest); [|done|done|simpl; lia].
    rewrite (slice_part (pre ++ [marker]) value rest);
      [|by rewrite <-(assoc_L (++))|rewrite length_app; simpl; lia
       |rewrite length_app; simpl; lia].
    cbn [mapM decode_val]. cbn [Py.utf8_decode].
    unfold is_ascii in Hascii. rewrite Hascii, Hv. done. }
  cbn [m_end m_marks lastgroup close_group]. f_equal. lia.
Qed.

(** X5: a line made of one of the markers P, M, L, A, N and a text
    that is valid UTF-8, at the end of its line, is recognized as the
    record of that marker; its value is the whole rest of the line up
    to the line feed, so a carriage return before the line feed stays
    in the value; the cast keeps the value alone. *)
Theorem free_text_record (pre : bytes) marker name value rest v :
  (marker, name) ∈ free_text_markers →
  forallb not_lf value = true →
  at_line_end rest →
  Py.utf8_decode value = Some v →
  scan (pre ++ marker :: value ++ rest) (length pre)
  = Yield (mkRecord (Some name)
             (<[name := VStr (Byte.to_N marker :: v)]> {["value" := VStr v]}))
          (length pre + length value + 2)
  ∧ cast (mkRecord (Some name)
            (<[name := VStr (Byte.to_N marker :: v)]> {["value" := VStr v]}))
    = Ok (mkRecord (Some name) {["value" := VStr v]}).
Proof.
  unfold free_text_markers. rewrite !elem_of_cons, elem_of_nil.
  intros Hin Hvalue Hrest Hv.
  assert (∀ r marker' name' body l p g (k : bytes → nat → marks → option match_obj),
            r = Group (Some name') (ch marker' ⋅ body) ⋅ line_end →
            byte_eqb marker marker' = false →
            run r (marker :: l) p g k = None) as Hother.
  { intros r marker' name' body l p g k -> Hne. by apply run_other_marker. }
  split.
  - destruct_or!; simplify_eq.
    + apply (scan_value_line _ _ [HEADER; DATE; T_AMOUNT; U_AMOUNT; CLEARED]
               [MEMO; CATEGORY; ADDRESS; N_REC; SPLIT; END]); try done.
      repeat constructor; intros; by eapply Hother.
    + apply (scan_value_line _ _ [HEADER; DATE; T_AMOUNT; U_AMOUNT; CLEARED; PAYEE]
               [CATEGORY; ADDRESS; N_REC; SPLIT; END]); try done.
      repeat constructor; intros; by eapply Hother.
    + apply (scan_value_line _ _ [HEADER; DATE; T_AMOUNT; U_AMOUNT; CLEARED; PAYEE; MEMO]
               [ADDRESS; N_REC; SPLIT; END]); try done.
      repeat constructor; intros; by eapply Hother.
    + apply (scan_value_line _ _
               [HEADER; DATE; T_AMOUNT; U_AMOUNT; CLEARED; PAYEE; MEMO; CATEGORY]
               [N_REC; SPLIT; END]); try done.
      repeat constructor; intros; by eapply Hother.
    + apply (scan_value_line _ _
               [HEADER; DATE; T_AMOUNT; U_AMOUNT; CLEARED; PAYEE; MEMO; CATEGORY; ADDRESS]
               [SPLIT; END]); try done.
      repeat constructor; intros; by eapply Hother.
  - destruct_or!; simplify_eq; reflexivity.
Qed.

Lemma free_text_record_witness :
  scan (line "D11/ 8'16" ++ bytes_of "PCaf" ++ [xc3; xa9; CR; LF] ++ line "^") 10
  = Yield (mkRecord (Some "PAYEE")
             (<["PAYEE" := VStr (str_of "PCaf" ++ [233%N; 13%N])]>
                {["value" := VStr (str_of "Caf" ++ [233%N; 13%N])]}))
          18
  ∧ cast (mkRecord (Some "PAYEE")
            (<["PAYEE" := VStr (str_of "PCaf" ++ [233%N; 13%N])]>
               {["value" := VStr (str_of "Caf" ++ [233%N; 13%N])]}))
    = Ok (mkRecord (Some "PAYEE") {["value" := VStr (str_of "Caf" ++ [233%N; 13%N])]}).
Proof.
  apply (free_text_record (line "D11/ 8'16") "P" "PAYEE"
           (bytes_of "Caf" ++ [xc3; xa9; CR]) (LF :: line "^")
           (str_of "Caf" ++ [233%N; 13%N])).
  - unfold free_text_markers. set_solver.
  - by vm_compute.
  - right. by eexists.
  - by vm_compute.
Defined.

Lemma free_text_first_match marker name (pre value rest : bytes) :
  (marker, name) ∈ free_text_markers →
  forallb not_lf value = true →
  at_line_end rest →
  first_match _qif_record_regexes (pre ++ marker :: value ++ rest) (length pre)
  = Some (value_line name marker,
          Match (length pre) (S (length pre) + length value)
            (close_group (Some name) (length pre) (S (length pre) + length value)
               (close_group (Some "value") (S (length pre))
                  (S (length pre) + length value) no_marks)))
  ∧ is_ascii marker = true ∧ name ≠ "value".
Proof.
  unfold free_text_markers. rewrite !elem_of_cons, elem_of_nil.
  intros Hin Hvalue Hrest.
  pose proof (match_value_line name marker pre value rest Hvalue Hrest) as Hm.
  assert (∀ r marker' name' body,
            r = Group (Some name') (ch marker' ⋅ body) ⋅ line_end →
            byte_eqb marker marker' = false →
            match_at r (pre ++ marker :: value ++ rest) (length pre) = None) as Hother.
  { intros r marker' name' body -> Hne. rewrite match_at_app. by apply run_other_marker. }
  split; [|by destruct_or!; simplify_eq].
  destruct_or!; simplify_eq.
  - apply (first_match_skip [HEADER; DATE; T_AMOUNT; U_AMOUNT; CLEARED]); [|done].
    repeat constructor; by eapply Hother.
  - apply (first_match_skip [HEADER; DATE; T_AMOUNT; U_AMOUNT; CLEARED; PAYEE]); [|done].
    repeat constructor; by eapply Hother.
  - apply (first_match_skip [HEADER; DATE; T_AMOUNT; U_AMOUNT; CLEARED; PAYEE; MEMO]);
      [|done].
    repeat constructor; by eapply Hother.
  - apply (first_match_skip
             [HEADER; DATE; T_AMOUNT; U_AMOUNT; CLEARED; PAYEE; MEMO; CATEGORY]); [|done].
    repeat constructor; by eapply Hother.
  - apply (first_match_skip
             [HEADER; DATE; T_AMOUNT; U_AMOUNT; CLEARED; PAYEE; MEMO; CATEGORY; ADDRESS]);
      [|done].
    repeat constructor; by eapply Hother.
Qed.

(** X6: a free-text line whose text is not valid UTF-8 is matched by
    its pattern, but no record is yielded: the scanner raises
    UnicodeDecodeError. *)
Theorem undecodable_value_raises (pre : bytes) marker name value rest :
  (marker, name) ∈ free_text_markers →
  forallb not_lf value = true →
  at_line_end rest →
  Py.utf8_decode value = None →
  scan (pre ++ marker :: value ++ rest) (length pre) = Stop (Raised UnicodeDecodeError).
Proof.
  intros Hin Hvalue Hrest Hv.
  destruct (free_text_first_match marker name pre value rest Hin Hvalue Hrest)
    as (Hfirst & Hascii & Hname).
  unfold scan. rewrite Hfirst.
  unfold decoded_dict, groupdict.
  change (group_names (value_line name marker)) with [name; "value"].
  cbn [map m_marks close_group spans].
  rewrite lookup_insert_eq. cbn [fmap option_fmap option_map].
  rewrite (slice_part pre (marker :: value) rest); [|done|done|simpl; lia].
  cbn [mapM decode_val]. cbn [Py.utf8_decode].
  unfold is_ascii in Hascii. rewrite Hascii, Hv. done.
Qed.

Lemma undecodable_value_raises_witness :
  scan (bytes_of "MCaf" ++ [xe9; LF]) 0 = Stop (Raised UnicodeDecodeError).
Proof.
  apply (undecodable_value_raises [] "M" "MEMO" (bytes_of "Caf" ++ [xe9]) [LF]).
  - unfold free_text_markers. set_solver.
  - by vm_compute.
  - right. by eexists.
  - by vm_compute.
Defined.

Lemma bind_Ok {A B} (x : result A) (f : A → result B) b :
  x ≫= f = Ok b → ∃ a, x = Ok a ∧ f a = Ok b.
Proof. destruct x as [a|e]; simpl; [eauto|done]. Qed.

Lemma parse_loop_raise ttype0 records0 r rest fin e :
  has_type r "END" = false →
  cast r = Raise e →
  parse_loop ttype0 records0 (r :: rest) fin = ([], Raised e).
Proof. intros Hr He. simpl. by rewrite Hr, He. Qed.

Lemma parse_loop_tail_app tail :
  Forall (λ r, has_type r "END" = false) tail →
  Forall castable tail →
  ∀ ttype0 records0, ∃ ttype1 records1, ∀ rs fin,
    parse_loop ttype0 records0 (tail ++ rs) fin = parse_loop ttype1 records1 rs fin.
Proof.
  induction 1 as [|r tail Hr _ IH]; intros Hc ttype0 records0.
  - by exists ttype0, records0.
  - inversion Hc as [|?? [r' Hr'] Hc']; subst.
    destruct (IH Hc' (if has_type r "SPLIT" then TTYPE_SPLIT else ttype0)
                (records0 ++ [r'])) as (t1 & r1 & Hloop).
    exists t1, r1. intros rs fin. simpl. rewrite Hr, Hr'. apply Hloop.
Qed.

(** After the groups of [pre] have left the loop, it goes on with the
    records that follow from some state of its own. *)
Lemma parse_loop_after pre gs tail :
  grouped pre gs tail →
  Forall castable pre →
  ∃ ts ttype1 records1,
    Forall2 transaction_of gs ts
    ∧ ∀ rs fin,
        parse_loop TTYPE_NORMAL [] (pre ++ rs) fin
        = prepend ts (parse_loop ttype1 records1 rs fin).
Proof.
  induction 1 as [tail Ht|g e pre gs tail Hg He _ IH]; intros Hc.
  - destruct (parse_loop_tail_app tail Ht Hc TTYPE_NORMAL []) as (t1 & r1 & Hloop).
    exists [], t1, r1. split; [constructor|].
    intros rs fin. rewrite Hloop. by destruct (parse_loop _ _ rs fin).
  - apply Forall_app in Hc as [Hcg Hc]. inversion Hc as [|?? _ Hcrs]; subst.
    destruct (mapM_cast_castable g Hcg) as [trs Htrs].
    destruct (IH Hcrs) as (ts & t1 & r1 & Hts & Hloop).
    exists (mkTransaction (kind_of g) trs :: ts), t1, r1. split.
    + constructor; [by split; [|apply mapM_cast_all]|done].
    + intros rs fin. rewrite <-(assoc_L (++)). simpl.
      rewrite (parse_loop_group g e (pre ++ rs) fin trs) by done.
      rewrite Hloop. done.
Qed.

(** X7: when the caster of a record raises, the parser ends by that
    exception: it has yielded the transactions of the groups closed
    before the record, and nothing the scanner does after the record,
    a lexical error later in the text included, is reached. *)
Theorem cast_error_aborts text pre gs tail r rest fin e :
  _recordize text = (pre ++ r :: rest, fin) →
  grouped pre gs tail →
  Forall castable pre →
  has_type r "END" = false →
  cast r = Raise e →
  ∃ ts, Forall2 transaction_of gs ts ∧ parse (Bytes text) = (ts, Raised e).
Proof.
  intros Hscan Hgr Hc Hr He.
  destruct (parse_loop_after pre gs tail Hgr Hc) as (ts & t1 & r1 & Hts & Hloop).
  exists ts. split; [done|].
  simpl. unfold parse_bytes. rewrite Hscan, Hloop.
  rewrite (parse_loop_raise _ _ _ _ _ e) by done.
  unfold prepend. simpl. by rewrite app_nil_r.
Qed.

Lemma cast_error_aborts_witness :
  ∃ ts,
    Forall2 transaction_of [[]] ts
    ∧ parse (Bytes (line "^" ++ line "T," ++ line "Q")) = (ts, Raised ValueError).
Proof.
  apply (cast_error_aborts _ [record_of "END" [("END", txt "^")]] [[]] []
           (record_of "T_AMOUNT" [("T_AMOUNT", txt "T,"); ("amount", txt ",")]) []
           (Raised (SyntaxError "Error at position 5, b'Q\n'"))).
  - by vm_compute.
  - apply (grouped_group [] _ [] [] []); [constructor|reflexivity|].
    apply grouped_tail. constructor.
  - repeat constructor. eexists. by vm_compute.
  - reflexivity.
  - by vm_compute.
Defined.

Lemma record_casts_lookup name f :
  _record_casts !! name = Some f →
  name = "DATE" ∧ f = _cast_date
  ∨ (name = "T_AMOUNT" ∨ name = "U_AMOUNT") ∧ f = _cast_amount
  ∨ name ∈ ["CLEARED"; "PAYEE"; "MEMO"; "CATEGORY"; "ADDRESS"; "N_REC"] ∧ f = _cast_general
  ∨ name = "SPLIT" ∧ f = _cast_split.
Proof.
  unfold _record_casts. intros H%elem_of_list_to_map_2.
  rewrite !elem_of_cons, elem_of_nil in H.
  destruct_or!; simplify_eq; try done; try (by left); try (by right; left; auto);
    try (by right; right; right).
  all: right; right; left; split; [set_solver|done].
Qed.

Lemma cast_date_shape r r' :
  _cast_date r = Ok r' → type r' = type r ∧ ∃ d, value_dict r' = {["date" := VDate d]}.
Proof.
  unfold _cast_date. intros H.
  repeat (apply bind_Ok in H as (? & _ & H)).
  injection H as <-. eauto.
Qed.

Lemma cast_amount_shape r r' :
  _cast_amount r = Ok r' → type r' = type r ∧ ∃ f, value_dict r' = {["amount" := VFloat f]}.
Proof.
  unfold _cast_amount. intros H.
  repeat (apply bind_Ok in H as (? & _ & H)).
  injection H as <-. eauto.
Qed.

Lemma cast_general_shape r r' :
  _cast_general r = Ok r' →
  type r' = type r
  ∧ ∃ v, value_dict r !! "value" = Some v ∧ value_dict r' = {["value" := v]}.
Proof.
  unfold _cast_general, getitem. intros H.
  apply bind_Ok in H as (v & Hv & H). injection H as <-.
  destruct (value_dict r !! "value") as [v'|] eqn:E; [|done].
  injection Hv as ->. eauto.
Qed.

Lemma cast_split_shape r r' :
  _cast_split r = Ok r' →
  type r' = type r
  ∧ ∃ c f,
      value_dict r !! "category" = Some c
      ∧ (present (value_dict r) "memo" = None
         ∧ value_dict r' = <["amount" := VFloat f]> {["category" := c]}
         ∨ ∃ m, present (value_dict r) "memo" = Some m
                ∧ value_dict r'
                  = <["memo" := m]> (<["amount" := VFloat f]> {["category" := c]})).
Proof.
  unfold _cast_split, getitem. intros H.
  apply bind_Ok in H as (c & Hc & H). apply bind_Ok in H as (f & _ & H).
  injection H as <-. split; [done|]. exists c, f.
  destruct (value_dict r !! "category") as [c'|] eqn:E; [|done]. injection Hc as ->.
  split; [done|]. simpl. destruct (present (value_dict r) "memo"); eauto.
Qed.

Lemma cast_type r r' : cast r = Ok r' → type r' = type r.
Proof.
  unfold cast. destruct (type r) as [name|] eqn:Hty; simpl; [|by intros [= <-]].
  destruct (_record_casts !! name) as [f|] eqn:Hf; [|by intros [= <-]].
  rewrite <-Hty. intros H.
  apply record_casts_lookup in Hf as [[_ ->]|[[_ ->]|[[_ ->]|[_ ->]]]].
  - by apply cast_date_shape in H as [? _].
  - by apply cast_amount_shape in H as [? _].
  - by apply cast_general_shape in H as [? _].
  - by apply cast_split_shape in H as [? _].
Qed.

Lemma parse_loop_well_formed ttype0 records0 rs fin :
  well_formed (mkTransaction ttype0 records0) →
  Forall well_formed (parse_loop ttype0 records0 rs fin).1.
Proof.
  revert ttype0 records0. induction rs as [|r rs IH]; intros ttype0 records0 Hwf; simpl.
  - constructor.
  - destruct (has_type r "END") eqn:Hend.
    + simpl. constructor; [done|]. apply IH. split; [constructor|].
      right. split; [done|constructor].
    + destruct (cast r) as [r'|e] eqn:Hcast; [|constructor].
      apply IH. pose proof (cast_type _ _ Hcast) as Hty.
      assert (∀ name, has_type r' name = has_type r name) as Hsame.
      { intros name. unfold has_type. by rewrite Hty. }
      destruct Hwf as [Hne Hkind]. simpl in *. split.
      * apply Forall_app. split; [done|]. constructor; [|constructor].
        by rewrite Hsame.
      * simpl. destruct (has_type r "SPLIT") eqn:Hsplit.
        -- left. split; [done|]. apply Exists_app. right. constructor. by rewrite Hsame.
        -- destruct Hkind as [[-> Hex]|[-> Hall]].
           ++ left. split; [done|]. apply Exists_app. by left.
           ++ right. split; [done|]. apply Forall_app. split; [done|].
              constructor; [|constructor]. by rewrite Hsame.
Qed.

(** X8: on every input, every transaction the parser yields holds no
    End record, and its kind is SPLIT exactly when one of its records
    is a Split record, NORMAL otherwise. *)
Theorem yielded_transactions_well_formed text : Forall well_formed (parse text).1.
Proof.
  assert (∀ b, Forall well_formed (parse_bytes b).1) as Hbytes.
  { intros b. unfold parse_bytes. destruct (_recordize b) as [rs fin].
    apply parse_loop_well_formed. split; [constructor|].
    right. split; [done|constructor]. }
  destruct text as [s|b]; simpl; [|apply Hbytes].
  destruct (Py.utf8_encode s); [apply Hbytes|constructor].
Qed.

(** X9: a cast that does not raise keeps the type of the record and
    leaves a dictionary of typed fields only: a date under "date" for a
    Date record, a float under "amount" for an amount record, the
    captured text under "value" for the free-text and Cleared records,
    the category, a float amount and the memo, when one was captured,
    for a Split record; a record without a caster is left as it is. *)
Theorem typed_record_shape r r' :
  cast r = Ok r' →
  type r' = type r
  ∧ (type r = Some "DATE" → ∃ d, value_dict r' = {["date" := VDate d]})
  ∧ (type r = Some "T_AMOUNT" ∨ type r = Some "U_AMOUNT" →
     ∃ f, value_dict r' = {["amount" := VFloat f]})
  ∧ (type r ∈ Some <$> ["CLEARED"; "PAYEE"; "MEMO"; "CATEGORY"; "ADDRESS"; "N_REC"] →
     ∃ v, value_dict r !! "value" = Some v ∧ value_dict r' = {["value" := v]})
  ∧ (type r = Some "SPLIT" →
     ∃ c f,
       value_dict r !! "category" = Some c
       ∧ (present (value_dict r) "memo" = None
          ∧ value_dict r' = <["amount" := VFloat f]> {["category" := c]}
          ∨ ∃ m, present (value_dict r) "memo" = Some m
                 ∧ value_dict r'
                   = <["memo" := m]> (<["amount" := VFloat f]> {["category" := c]})))
  ∧ (type r = Some "HEADER" ∨ type r = Some "END" ∨ type r = None → r' = r).
Proof.
  intros H. split; [by apply cast_type|]. unfold cast in H. split_and!.
  - intros Hty. rewrite Hty in H. by apply cast_date_shape in H as [_ ?].
  - intros [Hty|Hty]; rewrite Hty in H; by apply cast_amount_shape in H as [_ ?].
  - intros Hty. apply list_elem_of_fmap in Hty as (name & Hty & Hname).
    rewrite Hty in H. rewrite !elem_of_cons, elem_of_nil in Hname.
    destruct_or!; simplify_eq; by apply cast_general_shape in H as [_ ?].
  - intros Hty. rewrite Hty in H. by apply cast_split_shape in H as [_ ?].
  - intros [Hty|[Hty|Hty]]; rewrite Hty in H; by injection H.
Qed.

Lemma typed_record_shape_witness :
  type (record_of "SPLIT" [("category", txt "food"); ("amount", amount_of false 7 0)])
  = type (record_of "SPLIT"
       [("SPLIT", VStr (str_of "Sfood" ++ [10%N] ++ str_of "$7"));
        ("category", txt "food"); ("memo", VNone); ("amount", txt "7")])
  ∧ ∃ c f,
      value_dict (record_of "SPLIT"
       [("SPLIT", VStr (str_of "Sfood" ++ [10%N] ++ str_of "$7"));
        ("category", txt "food"); ("memo", VNone); ("amount", txt "7")]) !! "category" = Some c
      ∧ (present (value_dict (record_of "SPLIT"
       [("SPLIT", VStr (str_of "Sfood" ++ [10%N] ++ str_of "$7"));
        ("category", txt "food"); ("memo", VNone); ("amount", txt "7")])) "memo" = None
         ∧ value_dict (record_of "SPLIT" [("category", txt "food"); ("amount", amount_of false 7 0)])
           = <["amount" := VFloat f]> {["category" := c]}
         ∨ ∃ m, present (value_dict (record_of "SPLIT"
       [("SPLIT", VStr (str_of "Sfood" ++ [10%N] ++ str_of "$7"));
        ("category", txt "food"); ("memo", VNone); ("amount", txt "7")])) "memo" = Some m
                ∧ value_dict (record_of "SPLIT" [("category", txt "food"); ("amount", amount_of false 7 0)])
                  = <["memo" := m]> (<["amount" := VFloat f]> {["category" := c]})).
Proof.
  destruct (typed_record_shape
              (record_of "SPLIT"
       [("SPLIT", VStr (str_of "Sfood" ++ [10%N] ++ str_of "$7"));
        ("category", txt "food"); ("memo", VNone); ("amount", txt "7")])
              (record_of "SPLIT" [("category", txt "food"); ("amount", amount_of false 7 0)])
              ltac:(by vm_compute)) as (H1 & _ & _ & _ & H5 & _).
  split; [exact H1|exact (H5 eq_refl)].
Defined.

(** *** UTF-8: decoding what was encoded *)

Lemma to_N_byte_of n : (n < 256)%N → Byte.to_N (Py.byte_of n) = n.
Proof.
  intros Hn. unfold Py.byte_of.
  destruct (Byte.of_N n) as [b|] eqn:E; simpl.
  - by apply Byte.to_of_N.
  - apply Byte.of_N_None_iff in E. lia.
Qed.

Lemma utf8_decode_encode_cp c bs l :
  Py.utf8_encode_cp c = Some bs →
  Py.utf8_decode (bs ++ l) = cons c <$> Py.utf8_decode l.
Proof.
  unfold Py.utf8_encode_cp.
  destruct (c <? 128)%N eqn:E1.
  { intros [= <-]. simpl. apply N.ltb_lt in E1.
    rewrite to_N_byte_of by lia. apply N.ltb_lt in E1. by rewrite E1. }
  apply N.ltb_ge in E1.
  destruct (c <? 2048)%N eqn:E2.
  { intros [= <-]. apply N.ltb_lt in E2.
    pose proof (N.div_mod c 64 ltac:(lia)) as Hdm.
    pose proof (N.mod_lt c 64 ltac:(lia)) as Hmod.
    set (q := (c / 64)%N) in *. set (r := (c mod 64)%N) in *. clearbody q r.
    cbn [app Py.utf8_decode]. rewrite !to_N_byte_of by lia.
    assert ((192 + q <? 128)%N = false) as -> by (apply N.ltb_ge; lia).
    assert (((194 <=? 192 + q) && (192 + q <=? 223))%N = true) as ->.
    { apply andb_true_iff. split; apply N.leb_le; lia. }
    assert (Py.is_cont (128 + r) = true) as ->.
    { apply andb_true_iff. split; apply N.leb_le; lia. }
    replace ((192 + q - 192) * 64 + (128 + r - 128))%N with c by lia.
    done. }
  apply N.ltb_ge in E2.
  destruct ((55296 <=? c) && (c <=? 57343))%N eqn:E3; [done|].
  assert (c < 55296 ∨ 57343 < c)%N as Hsur.
  { apply andb_false_iff in E3 as [E3|E3]; apply N.leb_gt in E3; lia. }
  clear E3.
  destruct (c <? 65536)%N eqn:E4.
  { intros [= <-]. apply N.ltb_lt in E4.
    replace (c / 4096)%N with (c / 64 / 64)%N by (by rewrite N.Div0.div_div).
    pose proof (N.div_mod c 64 ltac:(lia)) as Hdm.
    pose proof (N.mod_lt c 64 ltac:(lia)) as Hmod.
    pose proof (N.div_mod (c / 64) 64 ltac:(lia)) as Hdm2.
    pose proof (N.mod_lt (c / 64) 64 ltac:(lia)) as Hmod2.
    set (q1 := (c / 64)%N) in *. set (r1 := (c mod 64)%N) in *.
    set (q2 := (q1 / 64)%N) in *. set (r2 := (q1 mod 64)%N) in *.
    clearbody q2 r2. clearbody q1 r1.
    cbn [app Py.utf8_decode]. rewrite !to_N_byte_of by lia.
    assert ((224 + q2 <? 128)%N = false) as -> by (apply N.ltb_ge; lia).
    assert (((194 <=? 224 + q2) && (224 + q2 <=? 223))%N = false) as ->.
    { apply andb_false_iff. right. apply N.leb_gt. lia. }
    assert (((224 <=? 224 + q2) && (224 + q2 <=? 239))%N = true) as ->.
    { apply andb_true_iff. split; apply N.leb_le; lia. }
    assert (Py.second3 (224 + q2) (128 + r2) = true) as ->.
    { unfold Py.second3, Py.is_cont.
      destruct (224 + q2 =? 224)%N eqn:Ea.
      - apply N.eqb_eq in Ea. apply andb_true_iff. split; apply N.leb_le; lia.
      - destruct (224 + q2 =? 237)%N eqn:Eb.
        + apply N.eqb_eq in Eb. apply andb_true_iff. split; apply N.leb_le; lia.
        + apply andb_true_iff. split; apply N.leb_le; lia. }
    assert (Py.is_cont (128 + r1) = true) as ->.
    { apply andb_true_iff. split; apply N.leb_le; lia. }
    simpl andb. cbv iota.
    replace ((224 + q2 - 224) * 4096 + (128 + r2 - 128) * 64 + (128 + r1 - 128))%N
      with c by lia.
    done. }
  apply N.ltb_ge in E4.
  destruct (c <? 1114112)%N eqn:E5; [|done].
  intros [= <-]. apply N.ltb_lt in E5.
  replace (c / 262144)%N with (c / 64 / 64 / 64)%N by (by rewrite !N.Div0.div_div).
  replace (c / 4096)%N with (c / 64 / 64)%N by (by rewrite N.Div0.div_div).
  pose proof (N.div_mod c 64 ltac:(lia)) as Hdm.
  pose proof (N.mod_lt c 64 ltac:(lia)) as Hmod.
  pose proof (N.div_mod (c / 64) 64 ltac:(lia)) as Hdm2.
  pose proof (N.mod_lt (c / 64) 64 ltac:(lia)) as Hmod2.
  pose proof (N.div_mod (c / 64 / 64) 64 ltac:(lia)) as Hdm3.
  pose proof (N.mod_lt (c / 64 / 64) 64 ltac:(lia)) as Hmod3.
  set (q1 := (c / 64)%N) in *. set (r1 := (c mod 64)%N) in *.
  set (q2 := (q1 / 64)%N) in *. set (r2 := (q1 mod 64)%N) in *.
  set (q3 := (q2 / 64)%N) in *. set (r3 := (q2 mod 64)%N) in *.
  clearbody q3 r3. clearbody q2 r2. clearbody q1 r1.
  cbn [app Py.utf8_decode]. rewrite !to_N_byte_of by lia.
  assert ((240 + q3 <? 128)%N = false) as -> by (apply N.ltb_ge; lia).
  assert (((194 <=? 240 + q3) && (240 + q3 <=? 223))%N = false) as ->.
  { apply andb_false_iff. right. apply N.leb_gt. lia. }
  assert (((224 <=? 240 + q3) && (240 + q3 <=? 239))%N = false) as ->.
  { apply andb_false_iff. right. apply N.leb_gt. lia. }
  assert (((240 <=? 240 + q3) && (240 + q3 <=? 244))%N = true) as ->.
  { apply andb_true_iff. split; apply N.leb_le; lia. }
  assert (Py.second4 (240 + q3) (128 + r3) = true) as ->.
  { unfold Py.second4, Py.is_cont.
    destruct (240 + q3 =? 240)%N eqn:Ea.
    - apply N.eqb_eq in Ea. apply andb_true_iff. split; apply N.leb_le; lia.
    - destruct (240 + q3 =? 244)%N eqn:Eb.
      + apply N.eqb_eq in Eb. apply andb_true_iff. split; apply N.leb_le; lia.
      + apply andb_true_iff. split; apply N.leb_le; lia. }
  assert (Py.is_cont (128 + r2) = true) as ->.
  { apply andb_true_iff. split; apply N.leb_le; lia. }
  assert (Py.is_cont (128 + r1) = true) as ->.
  { apply andb_true_iff. split; apply N.leb_le; lia. }
  simpl andb. cbv iota.
  replace ((240 + q3 - 240) * 262144 + (128 + r3 - 128) * 4096
           + (128 + r2 - 128) * 64 + (128 + r1 - 128))%N with c by lia.
  done.
Qed.

Lemma utf8_round_trip s b :
  Py.utf8_encode s = Some b → Py.utf8_decode b = Some s.
Proof.
  revert b. induction s as [|c s IH]; intros b; simpl; [by intros [= <-]|].
  destruct (Py.utf8_encode_cp c) as [bs|] eqn:Ec; [|done]. simpl.
  destruct (Py.utf8_encode s) as [b'|]; [|done]. simpl. intros [= <-].
  rewrite (utf8_decode_encode_cp _ _ _ Ec), (IH b' eq_refl). done.
Qed.

Lemma utf8_encode_app s1 s2 b :
  Py.utf8_encode (s1 ++ s2) = Some b →
  ∃ b1 b2, Py.utf8_encode s1 = Some b1 ∧ Py.utf8_encode s2 = Some b2 ∧ b = b1 ++ b2.
Proof.
  revert b. induction s1 as [|c s1 IH]; intros b; simpl.
  - intros H. by exists [], b.
  - destruct (Py.utf8_encode_cp c) as [bs|]; [|done]. simpl.
    destruct (Py.utf8_encode (s1 ++ s2)) as [b'|]; [|done]. simpl. intros [= <-].
    destruct (IH b' eq_refl) as (b1 & b2 & -> & -> & ->).
    exists (bs ++ b1), b2. by rewrite (assoc_L (++)).
Qed.

Lemma utf8_encode_ascii_cons marker s b :
  is_ascii marker = true →
  Py.utf8_encode (Byte.to_N marker :: s) = Some b →
  ∃ b', Py.utf8_encode s = Some b' ∧ b = marker :: b'.
Proof.
  unfold is_ascii. intros Hm. simpl. unfold Py.utf8_encode_cp. rewrite Hm. simpl.
  destruct (Py.utf8_encode s) as [b'|]; [|done]. simpl. intros [= <-].
  exists b'. split; [done|]. unfold Py.byte_of. by rewrite Byte.of_to_N.
Qed.

Lemma utf8_encode_cp_not_lf c bs :
  Py.utf8_encode_cp c = Some bs → c ≠ 10%N → forallb not_lf bs = true.
Proof.
  unfold Py.utf8_encode_cp, not_lf, byte_eqb. change (Byte.to_N LF) with 10%N.
  intros H Hc.
  assert (∀ n, (n < 256)%N → n ≠ 10%N → negb (Byte.to_N (Py.byte_of n) =? 10)%N = true)
    as Hbyte.
  { intros n Hn Hne. rewrite to_N_byte_of by done. by apply negb_true_iff, N.eqb_neq. }
  destruct (c <? 128)%N eqn:E1.
  { injection H as <-. simpl. apply N.ltb_lt in E1. rewrite Hbyte by lia. done. }
  destruct (c <? 2048)%N eqn:E2.
  { injection H as <-. apply N.ltb_lt in E2.
    pose proof (N.mod_lt c 64 ltac:(lia)) as Hmod.
    assert (c / 64 < 32)%N as Hdiv by (apply N.Div0.div_lt_upper_bound; lia).
    set (q := (c / 64)%N) in *. set (r := (c mod 64)%N) in *. clearbody q r.
    simpl. rewrite !Hbyte by lia. done. }
  destruct ((55296 <=? c) && (c <=? 57343))%N; [done|].
  destruct (c <? 65536)%N eqn:E4.
  { injection H as <-. apply N.ltb_lt in E4.
    pose proof (N.mod_lt c 64 ltac:(lia)) as Hmod.
    pose proof (N.mod_lt (c / 64) 64 ltac:(lia)) as Hmod2.
    assert (c / 4096 < 16)%N as Hdiv by (apply N.Div0.div_lt_upper_bound; lia).
    set (q := (c / 4096)%N) in *. set (r := (c mod 64)%N) in *.
    set (r2 := ((c / 64) mod 64)%N) in *. clearbody q r r2.
    simpl. rewrite !Hbyte by lia. done. }
  destruct (c <? 1114112)%N eqn:E5; [|done].
  injection H as <-. apply N.ltb_lt in E5.
  pose proof (N.mod_lt c 64 ltac:(lia)) as Hmod.
  pose proof (N.mod_lt (c / 64) 64 ltac:(lia)) as Hmod2.
  pose proof (N.mod_lt (c / 4096) 64 ltac:(lia)) as Hmod3.
  assert (c / 262144 < 5)%N as Hdiv by (apply N.Div0.div_lt_upper_bound; lia).
  set (q := (c / 262144)%N) in *. set (r := (c mod 64)%N) in *.
  set (r2 := ((c / 64) mod 64)%N) in *. set (r3 := ((c / 4096) mod 64)%N) in *.
  clearbody q r r2 r3.
  simpl. rewrite !Hbyte by lia. done.
Qed.

Lemma utf8_encode_not_lf s b :
  Py.utf8_encode s = Some b → 10%N ∉ s → forallb not_lf b = true.
Proof.
  revert b. induction s as [|c s IH]; intros b; simpl; [by intros [= <-]|].
  destruct (Py.utf8_encode_cp c) as [bs|] eqn:Ec; [|done]. simpl.
  destruct (Py.utf8_encode s) as [b'|]; [|done]. simpl. intros [= <-] Hnot.
  rewrite forallb_app, (utf8_encode_cp_not_lf _ _ Ec), (IH b' eq_refl); [done|..];
    set_solver.
Qed.

Lemma utf8_encode_line_end rest b :
  rest = [] ∨ (∃ r, rest = 10%N :: r) →
  Py.utf8_encode rest = Some b → at_line_end b.
Proof.
  intros [-> | [r ->]]; simpl.
  - intros [= <-]. by left.
  - destruct (Py.utf8_encode r) as [b'|]; [|done]. simpl. intros [= <-].
    right. by eexists.
Qed.

Lemma scan_free_text_line marker name (pre value rest : bytes) v :
  (marker, name) ∈ free_text_markers →
  forallb not_lf value = true →
  at_line_end rest →
  Py.utf8_decode value = Some v →
  scan (pre ++ marker :: value ++ rest) (length pre)
  = Yield (mkRecord (Some name)
             (<[name := VStr (Byte.to_N marker :: v)]> {["value" := VStr v]}))
          (length pre + length value + 2).
Proof.
  intros Hin Hvalue Hrest Hv.
  destruct (free_text_first_match marker name pre value rest Hin Hvalue Hrest)
    as (Hfirst & Hascii & Hname).
  unfold scan. rewrite Hfirst.
  unfold decoded_dict, groupdict.
  change (group_names (value_line name marker)) with [name; "value"].
  cbn [map m_marks close_group spans].
  rewrite lookup_insert_eq, lookup_insert_ne, lookup_insert_eq by done.
  cbn [fmap option_fmap option_map].
  rewrite (slice_part pre (marker :: value) rest); [|done|done|simpl; lia].
  rewrite (slice_part (pre ++ [marker]) value rest);
    [|by rewrite <-(assoc_L (++))|rewrite length_app; simpl; lia
     |rewrite length_app; simpl; lia].
  cbn [mapM decode_val]. cbn [Py.utf8_decode].
  unfold is_ascii in Hascii. rewrite Hascii, Hv.
  cbn [m_end m_marks lastgroup close_group]. simpl. f_equal. lia.
Qed.

(** X10: when the input is a [str], the value of a free-text record
    is exactly the text of its line, whatever code points it holds:
    encoding the input to UTF-8 and decoding the captured group gives
    the text back. *)
Theorem str_free_text_round_trip (pre value rest : pystr) marker name b :
  (marker, name) ∈ free_text_markers →
  10%N ∉ value →
  rest = [] ∨ (∃ r, rest = 10%N :: r) →
  Py.utf8_encode (pre ++ Byte.to_N marker :: value ++ rest) = Some b →
  ∃ bpre bvalue,
    Py.utf8_encode pre = Some bpre
    ∧ Py.utf8_encode value = Some bvalue
    ∧ scan b (length bpre)
      = Yield (mkRecord (Some name)
                 (<[name := VStr (Byte.to_N marker :: value)]> {["value" := VStr value]}))
              (length bpre + length bvalue + 2).
Proof.
  intros Hin Hvalue Hrest Hb.
  apply utf8_encode_app in Hb as (bpre & b1 & Hpre & Hb1 & ->).
  assert (is_ascii marker = true) as Hascii.
  { unfold free_text_markers in Hin. rewrite !elem_of_cons, elem_of_nil in Hin.
    by destruct_or!; simplify_eq. }
  apply utf8_encode_ascii_cons in Hb1 as (b2 & Hb2 & ->); [|done].
  apply utf8_encode_app in Hb2 as (bvalue & brest & Hbvalue & Hbrest & ->).
  exists bpre, bvalue. split_and!; [done..|].
  apply scan_free_text_line; [done| | |].
  - by eapply utf8_encode_not_lf.
  - by eapply utf8_encode_line_end.
  - by apply utf8_round_trip.
Qed.

Lemma str_free_text_round_trip_witness :
  ∃ bpre bvalue,
    Py.utf8_encode (str_of "^" ++ [10%N]) = Some bpre
    ∧ Py.utf8_encode (str_of "Caf" ++ [233%N; 32%N; 8364%N; 128512%N]) = Some bvalue
    ∧ scan (bytes_of "^" ++ [LF] ++ bytes_of "PCaf"
            ++ [xc3; xa9; x20; xe2; x82; xac; xf0; x9f; x98; x80; LF])
           (length bpre)
      = Yield (mkRecord (Some "PAYEE")
                 (<["PAYEE" := VStr (Byte.to_N "P"
                                     :: str_of "Caf" ++ [233%N; 32%N; 8364%N; 128512%N])]>
                    {["value" := VStr (str_of "Caf" ++ [233%N; 32%N; 8364%N; 128512%N])]}))
              (length bpre + length bvalue + 2).
Proof.
  apply (str_free_text_round_trip (str_of "^" ++ [10%N])
           (str_of "Caf" ++ [233%N; 32%N; 8364%N; 128512%N]) [10%N] "P" "PAYEE").
  - unfold free_text_markers. set_solver.
  - rewrite list_elem_of_In. vm_compute. intuition discriminate.
  - right. by eexists.
  - by vm_compute.
Defined.

(** X11: a Date record with a short year is cast to a date exactly
    when its month and day form a calendar date of the resolved year
    (the days of February following the leap years); the pattern lets
    through months up to 19 and days up to 39, and for those the
    caster raises ValueError. *)
Theorem impossible_date_raises record ms ds ys m d y :
  type record = Some "DATE" →
  value_dict record !! "month" = Some (VStr ms) → Py.int ms = Some m →
  value_dict record !! "day" = Some (VStr ds) → Py.int ds = Some d →
  value_dict record !! "year_short" = Some (VStr ys) → Py.int ys = Some y →
  (0 ≤ y ≤ 99)%Z → (0 ≤ m ≤ 99)%Z → (0 ≤ d ≤ 99)%Z →
  let year := (if (y <=? 50)%Z then 2000 + y else 1900 + y)%Z in
  let valid := ((1 ≤ m ≤ 12)%Z ∧ (1 ≤ d ≤ Py.days_in_month year m)%Z) in
  (valid →
   cast record = Ok (mkRecord (Some "DATE") {["date" := VDate (Py.Date year m d)]}))
  ∧ (¬ valid → cast record = Raise ValueError).
Proof.
  intros Hty Hm Hmi Hd Hdi Hy Hyi Hyr Hmr Hdr year valid.
  assert (cast record = _cast_date record) as -> by (unfold cast; by rewrite Hty).
  unfold _cast_date, getitem, present. rewrite Hty, Hm, Hd, Hy. simpl.
  rewrite Hmi, Hdi, Hyi. simpl.
  assert ((if (y <=? 50)%Z then (y + 2000)%Z
           else if (y >? 50)%Z then (y + 1900)%Z else y) = year) as ->.
  { unfold year. destruct (y <=? 50)%Z eqn:E; [lia|].
    assert ((y >? 50)%Z = true) as -> by lia. lia. }
  assert ((1951 ≤ year ≤ 2050)%Z) as Hyear.
  { unfold year. destruct (y <=? 50)%Z eqn:E; lia. }
  unfold Py.date_new.
  assert (Py.fits_c_int year && Py.fits_c_int m && Py.fits_c_int d = true) as ->.
  { unfold Py.fits_c_int. rewrite !andb_true_iff. repeat split; lia. }
  simpl negb. cbv iota.
  destruct ((1 <=? year) && (year <=? 9999) && (1 <=? m) && (m <=? 12)
            && (1 <=? d) && (d <=? Py.days_in_month year m))%Z eqn:E.
  - split; [done|]. intros Hnot. exfalso. apply Hnot. unfold valid.
    rewrite !andb_true_iff in E. lia.
  - split; [|done]. intros [Hmv Hdv]. exfalso.
    rewrite !andb_false_iff in E. lia.
Qed.

Lemma impossible_date_raises_witness :
  cast (record_of "DATE"
          [("DATE", txt "D 2/29'51"); ("month", txt " 2"); ("day", txt "29");
           ("year_short", txt "51"); ("year_long", VNone)])
  = Raise ValueError
  ∧ cast (record_of "DATE"
            [("DATE", txt "D 2/29'16"); ("month", txt " 2"); ("day", txt "29");
             ("year_short", txt "16"); ("year_long", VNone)])
    = Ok (record_of "DATE" [("date", date_of 2016 2 29)]).
Proof.
  split.
  - apply (impossible_date_raises _ (str_of " 2") (str_of "29") (str_of "51") 2%Z 29%Z 51%Z);
      try (by vm_compute); try lia.
    intros [_ [_ H]]. vm_compute in H. by apply H.
  - apply (impossible_date_raises _ (str_of " 2") (str_of "29") (str_of "16") 2%Z 29%Z 16%Z);
      try (by vm_compute); try lia.
Defined.

(* ================================================================== *)
(** ** Account names *)

Section AccountName.
Implicit Types (s a b : pystr) (c : N).

Local Abbreviation sub := (Ledger.sub [32%N]).

Lemma spaces_length s : Ledger.spaces s ≤ length s.
Proof.
  induction s as [|c s IH]; simpl; [lia|]. destruct (c =? 32)%N; lia.
Qed.

Lemma spaces_drop s : head (drop (Ledger.spaces s) s) ≠ Some 32%N.
Proof.
  induction s as [|c s IH]; simpl; [done|].
  destruct (N.eqb_spec c 32); simpl; [done|]. congruence.
Qed.

Lemma spaces_take s : take (Ledger.spaces s) s = replicate (Ledger.spaces s) 32%N.
Proof.
  induction s as [|c s IH]; simpl; [done|].
  destruct (N.eqb_spec c 32); simpl; [|done]. by rewrite IH; subst.
Qed.

Lemma sub_skip k s : sub k s = sub 0 (drop k s).
Proof.
  revert k. induction s as [|c s IH]; intros [|k]; simpl; done.
Qed.

Lemma sub_run s :
  2 ≤ Ledger.spaces s → sub 0 s = 32%N :: sub 0 (drop (Ledger.spaces s) s).
Proof.
  intros Hn. destruct s as [|c s]; simpl in *; [lia|].
  unfold Ledger.hard_separator. simpl.
  destruct (N.eqb_spec c 32); [|lia].
  rewrite bool_decide_true by lia. simpl. f_equal.
  rewrite sub_skip. f_equal. f_equal. lia.
Qed.

Lemma sub_tab s : sub 0 (9%N :: s) = 32%N :: sub 0 s.
Proof. reflexivity. Qed.

Lemma sub_keep c s :
  Ledger.spaces (c :: s) < 2 → c ≠ 9%N → sub 0 (c :: s) = c :: sub 0 s.
Proof.
  intros Hn Hc. cbn [Ledger.sub]. unfold Ledger.hard_separator.
  rewrite bool_decide_false by lia.
  by destruct (N.eqb_spec c 9).
Qed.

(** The three cases of one step of the substitution. *)
Lemma sub_cases s :
  s = [] ∨
  (2 ≤ Ledger.spaces s ∧ sub 0 s = 32%N :: sub 0 (drop (Ledger.spaces s) s)) ∨
  (∃ s', s = 9%N :: s' ∧ sub 0 s = 32%N :: sub 0 s') ∨
  (∃ c s', s = c :: s' ∧ Ledger.spaces s < 2 ∧ c ≠ 9%N ∧ sub 0 s = c :: sub 0 s').
Proof.
  destruct s as [|c s]; [by left|right].
  destruct (decide (2 ≤ Ledger.spaces (c :: s))) as [Hn|Hn].
  { left. split; [done|]. by apply sub_run. }
  right. destruct (decide (c = 9%N)) as [->|Hc].
  { left. by eexists. }
  right. exists c, s. split_and!; [done|lia|done|]. apply sub_keep; [lia|done].
Qed.

Lemma sub_no_tab_length k s :
  (9%N ∉ sub k s) ∧ length (sub k s) ≤ length s.
Proof.
  revert k. induction s as [|c s IH]; intros k.
  { simpl. split; [apply not_elem_of_nil|lia]. }
  cbn [Ledger.sub]. destruct k as [|k].
  - destruct (Ledger.hard_separator (c :: s)) as [n|] eqn:Hh.
    + destruct (IH (n - 1)) as [H1 H2]. simpl.
      split; [|lia]. rewrite not_elem_of_cons. done.
    + destruct (IH 0) as [H1 H2]. simpl. split; [|lia].
      rewrite not_elem_of_cons. split; [|done].
      unfold Ledger.hard_separator in Hh.
      destruct (bool_decide _); [done|].
      by destruct (N.eqb_spec c 9).
  - destruct (IH k) as [H1 H2]. simpl. split; [done|lia].
Qed.

Lemma head_sub s :
  head (sub 0 s) = Some 32%N ↔ ∃ c, head s = Some c ∧ blank c = true.
Proof.
  destruct (sub_cases s) as [->|[[Hn ->]|[(s' & -> & ->)|(c & s' & -> & Hn & Hc & ->)]]].
  - simpl. split; [done|]. by intros (c & ? & _).
  - split; [intros _|done]. destruct s as [|c s]; simpl in *; [lia|].
    exists c. split; [done|]. unfold blank. destruct (c =? 32)%N; [done|lia].
  - split; [intros _|done]. by exists 9%N.
  - simpl. split.
    + intros [= ->]. by exists 32%N.
    + intros (c' & [= <-] & Hb). unfold blank in Hb.
      destruct (N.eqb_spec c 32); [by subst|].
      destruct (N.eqb_spec c 9); done.
Qed.

Lemma has_hard_separator_cons c s :
  has_hard_separator (c :: s)
  = (c =? 9)%N || ((c =? 32)%N && bool_decide (head s = Some 32%N))
    || has_hard_separator s.
Proof. reflexivity. Qed.

Lemma tab_touches_blank_spaces n s :
  0 < n → head s ≠ Some 32%N →
  tab_touches_blank (replicate n 32%N ++ s)
  = bool_decide (head s = Some 9%N) || tab_touches_blank s.
Proof.
  induction n as [|n IH]; [lia|]. intros _ Hs.
  destruct n as [|n].
  - simpl. destruct s as [|c s]; [done|]. simpl.
    destruct (N.eqb_spec c 9) as [->|Hc].
    + by rewrite bool_decide_true.
    + rewrite bool_decide_false by congruence. done.
  - change (replicate (S (S n)) 32%N ++ s)
      with (32%N :: 32%N :: replicate n 32%N ++ s).
    change (tab_touches_blank (32%N :: 32%N :: replicate n 32%N ++ s))
      with (false || tab_touches_blank (replicate (S n) 32%N ++ s)).
    rewrite IH by (done || lia). done.
Qed.

Lemma head_blank_sub s :
  bool_decide (head (sub 0 s) = Some 32%N)
  = match s with c :: _ => blank c | [] => false end.
Proof.
  destruct s as [|c s]; [done|].
  destruct (blank c) eqn:Hb.
  - apply bool_decide_eq_true. apply head_sub. by exists c.
  - apply bool_decide_eq_false. rewrite head_sub. intros (c' & [= <-] & ?).
    congruence.
Qed.

Lemma one_pass s : has_hard_separator (sub 0 s) = tab_touches_blank s.
Proof.
  remember (length s) as n eqn:Hlen. revert s Hlen.
  induction (lt_wf n) as [n _ IH]. intros s ->.
  destruct (sub_cases s) as [->|[[Hn Hs]|[(s' & -> & Hs)|(c & s' & -> & Hn & Hc & Hs)]]].
  - done.
  - rewrite Hs, has_hard_separator_cons. simpl.
    pose proof (spaces_length s) as Hle.
    rewrite (IH (length (drop (Ledger.spaces s) s))); [|rewrite length_drop; lia|done].
    rewrite head_blank_sub.
    transitivity (tab_touches_blank
                    (replicate (Ledger.spaces s) 32%N ++ drop (Ledger.spaces s) s));
      [|by rewrite <-spaces_take, take_drop].
    rewrite tab_touches_blank_spaces; [|lia|apply spaces_drop].
    pose proof (spaces_drop s) as Hd.
    destruct (drop (Ledger.spaces s) s) as [|c t]; [done|]. simpl in *.
    f_equal. unfold blank.
    destruct (N.eqb_spec c 32) as [->|]; [done|]. simpl.
    destruct (N.eqb_spec c 9) as [->|].
    + by rewrite bool_decide_true.
    + rewrite bool_decide_false by congruence. done.
  - rewrite Hs, has_hard_separator_cons. simpl.
    rewrite (IH (length s')); [|simpl; lia|done].
    rewrite head_blank_sub. destruct s' as [|c t]; [done|].
    f_equal. unfold blank. by destruct (c =? 32)%N, (c =? 9)%N.
  - rewrite Hs, has_hard_separator_cons.
    rewrite (IH (length s')); [|simpl; lia|done].
    rewrite head_blank_sub. unfold blank.
    destruct (N.eqb_spec c 9); [done|]. simpl.
    destruct s' as [|c' t]; [by rewrite andb_false_r|].
    f_equal. simpl in Hn. unfold blank.
    destruct (N.eqb_spec c 9); [done|].
    destruct (N.eqb_spec c 32), (N.eqb_spec c' 32), (N.eqb_spec c' 9);
      simpl in *; done || lia.
Qed.

Lemma tab_touches_blank_no_tab s : 9%N ∉ s → tab_touches_blank s = false.
Proof.
  induction s as [|c s IH]; [done|].
  rewrite not_elem_of_cons. intros [Hc Hs]. simpl. rewrite (IH Hs).
  destruct s as [|c' t]; [done|].
  apply not_elem_of_cons in Hs as [Hc' _].
  destruct (N.eqb_spec c 9); [done|]. destruct (N.eqb_spec c' 9); [done|].
  by rewrite andb_false_r.
Qed.

Lemma sub_fixed s : sub 0 s = s ↔ has_hard_separator s = false.
Proof.
  induction s as [|c s IH]; [done|].
  rewrite has_hard_separator_cons.
  destruct (sub_cases (c :: s)) as [?|[[Hn Hs]|[(s' & [= -> ->] & Hs)|(c' & s' & [= <- <-] & Hn & Hc & Hs)]]].
  - done.
  - split.
    + intros Heq. exfalso.
      pose proof (f_equal length Heq) as Hl. rewrite Hs in Hl.
      destruct (sub_no_tab_length 0 (drop (Ledger.spaces (c :: s)) (c :: s))) as [_ Hle].
      pose proof (spaces_length (c :: s)) as Hsp.
      rewrite length_drop in Hle.
      set (n := Ledger.spaces (c :: s)) in *. clearbody n.
      cbn [length] in *. lia.
    + intros Hf. exfalso. simpl in Hn.
      destruct (N.eqb_spec c 32) as [->|]; [|lia].
      destruct s as [|c' t]; simpl in *; [lia|].
      destruct (N.eqb_spec c' 32) as [->|]; [|lia].
      by rewrite bool_decide_true in Hf.
  - split; [by rewrite Hs|done].
  - rewrite Hs. split.
    + intros [= Heq]. apply IH in Heq as ->.
      destruct (N.eqb_spec c 9); [done|]. simpl. rewrite orb_false_r.
      destruct (N.eqb_spec c 32) as [->|]; [|done]. simpl.
      apply bool_decide_eq_false. intros Hh. simpl in Hn.
      destruct s as [|c' t]; [done|]. simpl in Hh. injection Hh as ->.
      simpl in Hn. lia.
    + intros Hf. f_equal. apply IH.
      by destruct (has_hard_separator s); [rewrite orb_true_r in Hf|].
Qed.

Lemma spaces_app_tab a b : Ledger.spaces (a ++ 9%N :: b) = Ledger.spaces a.
Proof.
  induction a as [|c a IH]; simpl; [done|]. by rewrite IH.
Qed.

Lemma sub_tab_splits a b : sub 0 (a ++ 9%N :: b) = sub 0 a ++ 32%N :: sub 0 b.
Proof.
  remember (length a) as n eqn:Hlen. revert a Hlen.
  induction (lt_wf n) as [n _ IH]. intros a ->.
  destruct (sub_cases a) as [->|[[Hn Hs]|[(s' & -> & Hs)|(c & s' & -> & Hn & Hc & Hs)]]].
  - done.
  - rewrite Hs. rewrite sub_run by (by rewrite spaces_app_tab).
    rewrite spaces_app_tab. pose proof (spaces_length a).
    rewrite drop_app_le by done. simpl. f_equal.
    apply (IH (length (drop (Ledger.spaces a) a))); [rewrite length_drop; lia|done].
  - rewrite Hs. simpl. f_equal. apply (IH (length s')); [simpl; lia|done].
  - rewrite Hs. change ((c :: s') ++ 9%N :: b) with (c :: (s' ++ 9%N :: b)).
    rewrite sub_keep; [| |done].
    + simpl. f_equal. apply (IH (length s')); [simpl; lia|done].
    + change (c :: s' ++ 9%N :: b) with ((c :: s') ++ 9%N :: b).
      by rewrite spaces_app_tab.
Qed.

End AccountName.

(** X12: ledger_account_name on a str returns a str that holds no tab
    and is not longer than the name. *)
Theorem account_name_no_tab (s : pystr) :
  ∃ s', Ledger.ledger_account_name (VStr s) = Ok (VStr s')
        ∧ (9%N ∉ s') ∧ length s' ≤ length s.
Proof. eexists. split; [reflexivity|]. apply sub_no_tab_length. Qed.

(** X13: ledger_account_name returns a name unchanged exactly when the
    name holds no hard separator, that is no tab and no two spaces in a
    row. *)
Theorem account_name_fixed_iff_clean (s : pystr) :
  Ledger.ledger_account_name (VStr s) = Ok (VStr s)
  ↔ has_hard_separator s = false.
Proof.
  unfold Ledger.ledger_account_name. rewrite <-sub_fixed.
  split; [by intros [= ->]|by intros ->].
Qed.

(** X14: the name ledger_account_name returns still holds a hard
    separator (two spaces in a row) exactly when, in the name given, a
    tab stands next to a space or to another tab. *)
Theorem account_name_one_pass (s : pystr) :
  ∃ s', Ledger.ledger_account_name (VStr s) = Ok (VStr s')
        ∧ has_hard_separator s' = tab_touches_blank s.
Proof. eexists. split; [reflexivity|]. apply one_pass. Qed.

(** X15: ledger_account_name applied to its own result gives a name
    without hard separators, whatever the name was. *)
Theorem account_name_two_passes (s : pystr) :
  ∃ s', Ledger.ledger_account_name (VStr s) ≫= Ledger.ledger_account_name
        = Ok (VStr s')
        ∧ has_hard_separator s' = false.
Proof.
  eexists. split; [reflexivity|]. rewrite one_pass.
  apply tab_touches_blank_no_tab, sub_no_tab_length.
Qed.

(** X16: a tab splits the name: the result for a name with a tab in it
    is the result for the part before the tab, a space, and the result
    for the part after it. *)
Theorem account_name_tab_splits (a b : pystr) :
  ∃ a' b', Ledger.ledger_account_name (VStr a) = Ok (VStr a')
           ∧ Ledger.ledger_account_name (VStr b) = Ok (VStr b')
           ∧ Ledger.ledger_account_name (VStr (a ++ 9%N :: b))
             = Ok (VStr (a' ++ 32%N :: b')).
Proof.
  eexists _, _. split_and!; [reflexivity..|]. simpl. by rewrite sub_tab_splits.
Qed.

(* ================================================================== *)
(** ** The ledger dictionary *)

Section Qif2Ledger.
Implicit Types (st : Ledger.locals) (r : QIFRecord) (rs : list QIFRecord).

(** The record types the loop looks at exclude each other. *)
Lemma has_type_cases r :
  let flags := (has_type r "DATE", has_type r "PAYEE", has_type r "U_AMOUNT",
                has_type r "T_AMOUNT", has_type r "CATEGORY", has_type r "MEMO",
                has_type r "SPLIT") in
  type r = Some "DATE" ∧ flags = (true, false, false, false, false, false, false)
  ∨ type r = Some "PAYEE" ∧ flags = (false, true, false, false, false, false, false)
  ∨ type r = Some "U_AMOUNT" ∧ flags = (false, false, true, false, false, false, false)
  ∨ type r = Some "T_AMOUNT" ∧ flags = (false, false, false, true, false, false, false)
  ∨ type r = Some "CATEGORY" ∧ flags = (false, false, false, false, true, false, false)
  ∨ type r = Some "MEMO" ∧ flags = (false, false, false, false, false, true, false)
  ∨ type r = Some "SPLIT" ∧ flags = (false, false, false, false, false, false, true)
  ∨ flags = (false, false, false, false, false, false, false).
Proof.
  cbv zeta. unfold has_type.
  repeat (case_bool_decide;
          [match goal with H : type r = Some _ |- _ => rewrite H end;
           repeat (rewrite bool_decide_false by done);
           repeat first [by left | right]; done|]).
  repeat right. done.
Qed.

Lemma loop_app st rs1 rs2 :
  Ledger.loop st (rs1 ++ rs2) = st' ← Ledger.loop st rs1; Ledger.loop st' rs2.
Proof.
  revert st. induction rs1 as [|r rs1 IH]; intros st; [done|].
  simpl. destruct (Ledger.body st r); simpl; [apply IH|done].
Qed.

Lemma loop_snoc st rs r st' :
  Ledger.loop st rs = Ledger.Return st' →
  Ledger.loop st (rs ++ [r]) = Ledger.body st' r.
Proof.
  intros H. rewrite loop_app, H. simpl. by destruct (Ledger.body st' r).
Qed.

Lemma field_values_snoc name key rs r :
  field_values name key (rs ++ [r])
  = field_values name key rs
    ++ (if has_type r name then option_list (value_dict r !! key) else []).
Proof.
  unfold field_values. rewrite omap_app. f_equal. simpl.
  destruct (has_type r name); [|done]. by destruct (value_dict r !! key).
Qed.

Lemma dates_snoc rs r :
  dates (rs ++ [r])
  = dates rs
    ++ (if has_type r "DATE"
        then match value_dict r !! "date" with
             | Some (VDate d) => [d]
             | _ => []
             end
        else []).
Proof.
  unfold dates. rewrite omap_app. f_equal. simpl.
  destruct (has_type r "DATE"); [|done].
  by destruct (value_dict r !! "date") as [[]|].
Qed.

Lemma categories_snoc rs r :
  categories (rs ++ [r])
  = categories rs
    ++ (if has_type r "CATEGORY"
        then match value_dict r !! "value" with
             | Some (VStr s) => [s]
             | _ => []
             end
        else []).
Proof.
  unfold categories. rewrite omap_app. f_equal. simpl.
  destruct (has_type r "CATEGORY"); [|done].
  by destruct (value_dict r !! "value") as [[]|].
Qed.

Lemma amounts_snoc rs r :
  amounts (rs ++ [r])
  = amounts rs
    ++ (if has_type r "U_AMOUNT" || has_type r "T_AMOUNT"
        then match value_dict r !! "amount" with
             | Some (VFloat f) => [f]
             | _ => []
             end
        else []).
Proof.
  unfold amounts. rewrite omap_app. f_equal. simpl.
  destruct (has_type r "U_AMOUNT" || has_type r "T_AMOUNT"); [|done].
  by destruct (value_dict r !! "amount") as [[]|].
Qed.

Lemma splits_snoc rs r :
  splits (rs ++ [r]) = splits rs ++ (if has_type r "SPLIT" then [r] else []).
Proof.
  unfold splits, has_type. rewrite filter_app. f_equal.
  rewrite filter_cons, filter_nil. by case_bool_decide; case_decide.
Qed.

Lemma negate_negate f : Ledger.negate (Ledger.negate f) = f.
Proof. destruct f as [[] ? ?]; reflexivity. Qed.

Lemma nonzero_negate f : Ledger.nonzero (Ledger.negate f) = Ledger.nonzero f.
Proof. reflexivity. Qed.

(** What the loop leaves in the local variables. *)
Lemma loop_ready rs :
  Forall ledger_ready rs →
  ∃ st,
    Ledger.loop (Ledger.Locals ∅ [] None None) rs = Ledger.Return st
    ∧ Ledger.l st !! "date" = (λ d, VStr (Ledger.strftime d)) <$> last (dates rs)
    ∧ Ledger.l st !! "payee" = last (field_values "PAYEE" "value" rs)
    ∧ Ledger.l st !! "memo" = last (field_values "MEMO" "value" rs)
    ∧ (∀ key, is_Some (Ledger.l st !! key) → key ∈ ["date"; "payee"; "memo"])
    ∧ Ledger.account st
      = (λ s, VStr (Ledger.sub [32%N] 0 s)) <$> last (categories rs)
    ∧ Ledger.amount st
      = (λ f, VFloat (if Ledger.nonzero f then Ledger.negate f else f))
        <$> last (amounts rs)
    ∧ Forall2 split_posting (splits rs) (Ledger.postings st).
Proof.
  induction rs as [|r rs IH] using rev_ind; intros Hrs.
  { eexists. split; [reflexivity|]. simpl. split_and!; try done.
    intros key [? H]. by rewrite lookup_empty in H. }
  apply Forall_app in Hrs as [Hrs Hr]. apply Forall_inv in Hr.
  destruct (IH Hrs) as (st & Hloop & Hdate & Hpayee & Hmemo & Hkeys & Hacc & Ham & Hps).
  rewrite (loop_snoc _ _ _ _ Hloop).
  rewrite dates_snoc, !field_values_snoc, categories_snoc, amounts_snoc, splits_snoc.
  destruct Hr as (Rdate & Rvalue & Ramount & Rcat & Rsplit).
  unfold Ledger.body.
  pose proof (has_type_cases r) as Hcases. cbv zeta in Hcases.
  destruct Hcases
    as [[Hty Hfl]|[[Hty Hfl]|[[Hty Hfl]|[[Hty Hfl]|[[Hty Hfl]|[[Hty Hfl]
       |[[Hty Hfl]|Hfl]]]]]]];
    injection Hfl as -> -> -> -> -> -> ->;
    cbn [orb]; rewrite ?app_nil_r.
  - destruct (Rdate Hty) as [d Hd]. unfold getitem. rewrite Hd. simpl.
    eexists. split; [reflexivity|]. simpl. rewrite last_snoc.
    rewrite lookup_insert_eq, !lookup_insert_ne by done.
    split_and!; try done.
    intros key [? H]. destruct (decide (key = "date")) as [->|Hne].
    + repeat constructor.
    + rewrite lookup_insert_ne in H by done. apply Hkeys. by eexists.
  - destruct (Rvalue (or_introl Hty)) as [v Hv]. unfold getitem. rewrite Hv. simpl.
    eexists. split; [reflexivity|]. simpl. rewrite last_snoc.
    rewrite lookup_insert_eq, !lookup_insert_ne by done.
    split_and!; try done.
    intros key [? H]. destruct (decide (key = "payee")) as [->|Hne].
    + repeat constructor.
    + rewrite lookup_insert_ne in H by done. apply Hkeys. by eexists.
  - destruct (Ramount (or_introl Hty)) as [f Hf]. unfold getitem. rewrite Hf. simpl.
    eexists. split; [reflexivity|]. simpl. rewrite last_snoc.
    split_and!; done.
  - destruct (Ramount (or_intror Hty)) as [f Hf]. unfold getitem. rewrite Hf. simpl.
    eexists. split; [reflexivity|]. simpl. rewrite last_snoc.
    split_and!; done.
  - destruct (Rcat Hty) as [s Hs]. unfold getitem. rewrite Hs. simpl.
    eexists. split; [reflexivity|]. simpl. rewrite last_snoc.
    split_and!; done.
  - destruct (Rvalue (or_intror Hty)) as [v Hv]. unfold getitem. rewrite Hv. simpl.
    eexists. split; [reflexivity|]. simpl. rewrite last_snoc.
    rewrite lookup_insert_eq, !lookup_insert_ne by done.
    split_and!; try done.
    intros key [? H]. destruct (decide (key = "memo")) as [->|Hne].
    + repeat constructor.
    + rewrite lookup_insert_ne in H by done. apply Hkeys. by eexists.
  - destruct (Rsplit Hty) as (s & f & Hs & Hf). unfold getitem. rewrite Hs, Hf.
    simpl. eexists. split; [reflexivity|]. simpl.
    split_and!; try done.
    apply Forall2_app; [done|]. constructor; [|constructor].
    exists s, f. split_and!; [done|done|..].
    + by destruct (value_dict r !! "memo");
        rewrite ?lookup_insert_ne by done;
        rewrite ?lookup_insert_ne, ?lookup_singleton_eq by done.
    + by destruct (value_dict r !! "memo");
        rewrite ?lookup_insert_ne by done;
        rewrite lookup_insert_eq.
    + destruct (value_dict r !! "memo").
      * by rewrite lookup_insert_eq.
      * rewrite lookup_insert_ne, lookup_singleton_ne by done. done.
    + intros key [x H].
      destruct (decide (key = "memo")) as [->|?]; [repeat constructor|].
      destruct (decide (key = "amount")) as [->|?]; [repeat constructor|].
      destruct (decide (key = "account")) as [->|?]; [repeat constructor|].
      exfalso. destruct (value_dict r !! "memo");
        rewrite ?lookup_insert_ne in H by done;
        by rewrite lookup_singleton_ne in H.
  - simpl. exists st. split; [by destruct st|]. split_and!; done.
Qed.

End Qif2Ledger.

(** X17: for a transaction without Split record, qif2ledger applies
    ledger_amount and ledger_account_name twice: the posting carries
    the amount of the last amount record with its sign as in the QIF
    file, and the last category with its hard separators replaced
    twice; the asset account alone is the second and last posting. *)
Theorem qif2ledger_plain_posting t asset c f :
  Forall ledger_ready (records t) →
  splits (records t) = [] →
  last (categories (records t)) = Some c →
  last (amounts (records t)) = Some f →
  ∃ l, Ledger.qif2ledger t asset = Ledger.Return l
       ∧ l !! "postings"
         = Some (Ledger.Postings
                   [<["amount" := VFloat f]>
                      {["account" := VStr (Ledger.sub [32%N] 0 (Ledger.sub [32%N] 0 c))]};
                    {["account" := asset]}]).
Proof.
  intros Hrs Hsp Hc Hf.
  destruct (loop_ready _ Hrs) as (st & Hloop & _ & _ & _ & _ & Hacc & Ham & Hps).
  rewrite Hsp in Hps. apply Forall2_nil_inv_l in Hps.
  rewrite Hc in Hacc. rewrite Hf in Ham. simpl in Hacc, Ham.
  unfold Ledger.qif2ledger. rewrite Hloop. simpl.
  rewrite Hps, Hacc, Ham. simpl.
  eexists. split; [reflexivity|]. rewrite lookup_insert_eq.
  do 4 f_equal.
  destruct (Ledger.nonzero f) eqn:Hnz.
  - by rewrite nonzero_negate, Hnz, negate_negate.
  - by rewrite Hnz.
Qed.

Lemma qif2ledger_plain_posting_witness :
  ∃ l, Ledger.qif2ledger
         (mkTransaction "NORMAL"
            [record_of "DATE" [("date", date_of 2016 11 8)];
             record_of "T_AMOUNT" [("amount", amount_of true 10788 2)];
             record_of "PAYEE" [("value", txt "VERIZON")];
             record_of "CATEGORY" [("value", txt "Bills  Utilities")]])
         (txt "Assets:Checking")
       = Ledger.Return l
       ∧ l !! "postings"
         = Some (Ledger.Postings
                   [<["amount" := amount_of true 10788 2]>
                      {["account" := txt "Bills Utilities"]};
                    {["account" := txt "Assets:Checking"]}]).
Proof.
  destruct (qif2ledger_plain_posting
              (mkTransaction "NORMAL"
                 [record_of "DATE" [("date", date_of 2016 11 8)];
                  record_of "T_AMOUNT" [("amount", amount_of true 10788 2)];
                  record_of "PAYEE" [("value", txt "VERIZON")];
                  record_of "CATEGORY" [("value", txt "Bills  Utilities")]])
              (txt "Assets:Checking") (str_of "Bills  Utilities")
              (Py.Decimal true 10788 2)) as (l & Hl & Hp).
  - repeat constructor; try (by intros [? | ?]); try done;
      by repeat eexists.
  - by vm_compute.
  - by vm_compute.
  - by vm_compute.
  - exists l. split; [exact Hl|]. rewrite Hp. by vm_compute.
Defined.

(** X18: for a transaction without Split record that has no Category
    record, or has one but no amount record, qif2ledger does not
    return: it reads the local variable account, or else amount,
    before anything was assigned to it (UnboundLocalError). *)
Theorem qif2ledger_unbound_local t asset :
  Forall ledger_ready (records t) →
  splits (records t) = [] →
  categories (records t) = [] ∨ amounts (records t) = [] →
  Ledger.qif2ledger t asset
  = Ledger.Throw
      (Ledger.UnboundLocalError
         (if bool_decide (categories (records t) = []) then "account" else "amount")).
Proof.
  intros Hrs Hsp Hno.
  destruct (loop_ready _ Hrs) as (st & Hloop & _ & _ & _ & _ & Hacc & Ham & Hps).
  rewrite Hsp in Hps. apply Forall2_nil_inv_l in Hps.
  unfold Ledger.qif2ledger. rewrite Hloop. simpl. rewrite Hps. simpl.
  case_bool_decide as Hc.
  - rewrite Hc in Hacc. simpl in Hacc. by rewrite Hacc.
  - destruct Hno as [?|Ha]; [done|].
    rewrite Ha in Ham. simpl in Ham. rewrite Ham.
    destruct (last (categories (records t))) eqn:Hl.
    + simpl in Hacc. by rewrite Hacc.
    + by apply last_None in Hl.
Qed.

Lemma qif2ledger_unbound_local_witness :
  Ledger.qif2ledger
    (mkTransaction "NORMAL"
       [record_of "DATE" [("date", date_of 2016 11 8)];
        record_of "T_AMOUNT" [("amount", amount_of true 10788 2)];
        record_of "PAYEE" [("value", txt "VERIZON")]])
    (txt "Assets:Checking")
  = Ledger.Throw (Ledger.UnboundLocalError "account").
Proof.
  etransitivity;
    [apply (qif2ledger_unbound_local
              (mkTransaction "NORMAL"
                 [record_of "DATE" [("date", date_of 2016 11 8)];
                  record_of "T_AMOUNT" [("amount", amount_of true 10788 2)];
                  record_of "PAYEE" [("value", txt "VERIZON")]])
              (txt "Assets:Checking"))|].
  - repeat constructor; try (by intros [? | ?]); try done;
      by repeat eexists.
  - by vm_compute.
  - left. by vm_compute.
  - by vm_compute.
Defined.

(** X19: for a transaction with Split records, qif2ledger gives one
    posting for each Split record, in their order: the category with
    its hard separators replaced, the amount with its sign changed
    once (a zero is kept as it is), and the memo when the record has
    one; the Category and
    amount records of the transaction do not show in the postings, and
    the asset account alone is the last posting. *)
Theorem qif2ledger_split_postings t asset :
  Forall ledger_ready (records t) →
  splits (records t) ≠ [] →
  ∃ l ps, Ledger.qif2ledger t asset = Ledger.Return l
          ∧ l !! "postings" = Some (Ledger.Postings (ps ++ [{["account" := asset]}]))
          ∧ Forall2 split_posting (splits (records t)) ps.
Proof.
  intros Hrs Hsp.
  destruct (loop_ready _ Hrs) as (st & Hloop & _ & _ & _ & _ & _ & _ & Hps).
  unfold Ledger.qif2ledger. rewrite Hloop. simpl.
  rewrite bool_decide_false.
  - simpl. eexists _, _. split; [reflexivity|]. split; [|exact Hps].
    by rewrite lookup_insert_eq.
  - intros Hlen. apply Forall2_length in Hps. rewrite Hlen in Hps.
    by apply nil_length_inv in Hps.
Qed.

Lemma qif2ledger_split_postings_witness :
  ∃ l ps,
    Ledger.qif2ledger
      (mkTransaction "SPLIT"
         [record_of "T_AMOUNT" [("amount", amount_of true 10 0)];
          record_of "CATEGORY" [("value", txt "Shopping")];
          record_of "SPLIT" [("category", txt "food"); ("amount", amount_of true 7 0)];
          record_of "SPLIT" [("category", txt "fuel"); ("memo", txt "car");
                             ("amount", amount_of true 3 0)]])
      VNone
    = Ledger.Return l
    ∧ l !! "postings" = Some (Ledger.Postings (ps ++ [{["account" := VNone]}]))
    ∧ Forall2 split_posting
        (splits
           [record_of "T_AMOUNT" [("amount", amount_of true 10 0)];
            record_of "CATEGORY" [("value", txt "Shopping")];
            record_of "SPLIT" [("category", txt "food"); ("amount", amount_of true 7 0)];
            record_of "SPLIT" [("category", txt "fuel"); ("memo", txt "car");
                               ("amount", amount_of true 3 0)]])
        ps.
Proof.
  apply (qif2ledger_split_postings
           (mkTransaction "SPLIT"
              [record_of "T_AMOUNT" [("amount", amount_of true 10 0)];
               record_of "CATEGORY" [("value", txt "Shopping")];
               record_of "SPLIT" [("category", txt "food"); ("amount", amount_of true 7 0)];
               record_of "SPLIT" [("category", txt "fuel"); ("memo", txt "car");
                                  ("amount", amount_of true 3 0)]])
           VNone).
  - repeat constructor; try (by intros [? | ?]); try done;
      by repeat eexists.
  - by vm_compute.
Defined.

(** X20: in the dictionary qif2ledger returns, the date is the date of
    the last Date record written as year/month/day, for the years from
    1000 on, which every C library writes in the same way; the payee
    and the memo are the values of the last Payee and Memo records; a
    record type that does not occur leaves its key out, and there are
    no keys but these and postings. *)
Theorem qif2ledger_fields t asset l :
  Forall ledger_ready (records t) →
  Forall (λ d, (1000 ≤ Py.year d)%Z) (dates (records t)) →
  Ledger.qif2ledger t asset = Ledger.Return l →
  l !! "date"
  = (λ d, Ledger.Val (VStr (Ledger.strftime d))) <$> last (dates (records t))
  ∧ l !! "payee" = Ledger.Val <$> last (field_values "PAYEE" "value" (records t))
  ∧ l !! "memo" = Ledger.Val <$> last (field_values "MEMO" "value" (records t))
  ∧ ∀ key, is_Some (l !! key) → key ∈ ["date"; "payee"; "memo"; "postings"].
Proof.
  intros Hrs _.
  destruct (loop_ready _ Hrs) as (st & Hloop & Hdate & Hpayee & Hmemo & Hkeys & _).
  unfold Ledger.qif2ledger. rewrite Hloop. simpl.
  match goal with
  | |- context [mbind _ ?x] => destruct x as [ps|e]; [|done]
  end.
  simpl. intros [= <-].
  rewrite !lookup_insert_ne, !lookup_fmap by done.
  rewrite Hdate, Hpayee, Hmemo. split_and!.
  - by destruct (last (dates (records t))).
  - done.
  - done.
  - intros key [x H]. destruct (decide (key = "postings")) as [->|Hne].
    + repeat constructor.
    + rewrite lookup_insert_ne, lookup_fmap in H by done.
      destruct (Ledger.l st !! key) eqn:Hk; [|done].
      specialize (Hkeys key (ltac:(by eexists))).
      rewrite !elem_of_cons in Hkeys. rewrite !elem_of_cons. tauto.
Qed.

Lemma qif2ledger_fields_witness :
  (<["postings" := Ledger.Postings
                     [<["amount" := amount_of false 7 0]> {["account" := txt "food"]};
                      {["account" := txt "Assets:Checking"]}]]>
     (Ledger.Val <$> <["payee" := txt "VERIZON"]> {["date" := txt "2016/11/08"]})
   : gmap string Ledger.value) !! "date"
  = (λ d, Ledger.Val (VStr (Ledger.strftime d)))
    <$> last (dates
                [record_of "DATE" [("date", date_of 2016 11 8)];
                 record_of "PAYEE" [("value", txt "VERIZON")];
                 record_of "SPLIT" [("category", txt "food");
                                    ("amount", amount_of true 7 0)]]).
Proof.
  apply (qif2ledger_fields
           (mkTransaction "SPLIT"
              [record_of "DATE" [("date", date_of 2016 11 8)];
               record_of "PAYEE" [("value", txt "VERIZON")];
               record_of "SPLIT" [("category", txt "food");
                                  ("amount", amount_of true 7 0)]])
           (txt "Assets:Checking")
           (<["postings" := Ledger.Postings
                     [<["amount" := amount_of false 7 0]> {["account" := txt "food"]};
                      {["account" := txt "Assets:Checking"]}]]>
              (Ledger.Val <$> <["payee" := txt "VERIZON"]> {["date" := txt "2016/11/08"]}))).
  - repeat constructor; try (by intros [? | ?]); try done;
      by repeat eexists.
  - vm_compute. repeat constructor. discriminate.
  - by vm_compute.
Defined.

(* ================================================================== *)
(** ** From the parser to the ledger *)

Section ParsedRecords.

(** Matching only adds groups: a group that took part stays. *)
Lemma run_keeps_spans {R} r l p g (k : bytes → nat → marks → option R) res :
  run r l p g k = Some res →
  ∃ l' p' g',
    k l' p' g' = Some res
    ∧ ∀ n, is_Some (spans g !! n) → is_Some (spans g' !! n).
Proof.
  revert l p g k.
  induction r as [c|c|c|n c|r IH|r1 IH1 r2 IH2|r1 IH1 r2 IH2|name r IH|];
    intros l p g k; simpl.
  - intros H. apply one_consumes in H as (b & l' & -> & _ & H). eauto 6.
  - intros H. apply star_consumes in H as (xs & l' & -> & _ & H). eauto 6.
  - intros H. apply one_consumes in H as (b & l' & -> & _ & H).
    apply star_consumes in H as (xs & l'' & -> & _ & H). eauto 6.
  - intros H. apply count_consumes in H as (xs & l' & -> & <- & H). eauto 6.
  - destruct (run r l p g k) eqn:E.
    + intros [= ->]. eauto.
    + eauto 6.
  - intros H. apply IH1 in H as (l1 & p1 & g1 & H & H1).
    apply IH2 in H as (l2 & p2 & g2 & H & H2). eauto 8.
  - destruct (run r1 l p g k) eqn:E.
    + intros [= ->]. eauto.
    + eauto.
  - intros H. apply IH in H as (l' & p' & g' & H & Hg).
    eexists _, _, _. split; [exact H|]. intros n Hn.
    destruct name as [name|]; simpl; [|by apply Hg].
    destruct (decide (name = n)) as [->|Hne].
    + rewrite lookup_insert_eq. by eexists.
    + rewrite lookup_insert_ne by done. by apply Hg.
  - intros H. exists l, p, g. split; [|done].
    destruct l as [|b l]; [done|]. by destruct (byte_eqb b LF).
Qed.

(** A named group that is not optional took part. *)
Lemma run_group_sets {R} n r l p g (k : bytes → nat → marks → option R) res :
  run (Group (Some n) r) l p g k = Some res →
  ∃ l' p' g', k l' p' g' = Some res ∧ is_Some (spans g' !! n).
Proof.
  rewrite run_group. intros H.
  apply run_keeps_spans in H as (l' & p' & g' & H & _).
  eexists _, _, _. split; [exact H|]. simpl. rewrite lookup_insert_eq. by eexists.
Qed.

Lemma match_category text pos m :
  match_at CATEGORY text pos = Some m → is_Some (spans (m_marks m) !! "value").
Proof.
  unfold match_at, CATEGORY, value_line. rewrite run_seq, run_group, run_seq.
  intros H. apply run_keeps_spans in H as (l1 & p1 & g1 & H & _).
  apply run_group_sets in H as (l2 & p2 & g2 & H & Hv).
  apply run_keeps_spans in H as (l3 & p3 & g3 & [= <-] & Hg).
  simpl. apply Hg. simpl. by rewrite lookup_insert_ne.
Qed.

Lemma match_split text pos m :
  match_at SPLIT text pos = Some m → is_Some (spans (m_marks m) !! "category").
Proof.
  unfold match_at, SPLIT. rewrite run_seq, run_group, run_seq.
  intros H. apply run_keeps_spans in H as (l1 & p1 & g1 & H & _).
  rewrite run_seq in H.
  apply run_group_sets in H as (l2 & p2 & g2 & H & Hv).
  apply run_keeps_spans in H as (l3 & p3 & g3 & H & Hg3).
  apply run_keeps_spans in H as (l4 & p4 & g4 & [= <-] & Hg4).
  simpl. apply Hg4. simpl. rewrite lookup_insert_ne by done. by apply Hg3.
Qed.

(** The pattern of a yielded record is the one its type names. *)
Lemma scan_pattern text position record position' :
  scan text position = Yield record position' →
  ∃ re m name,
    re ∈ _qif_record_regexes ∧ record_pattern name re
    ∧ type record = Some name
    ∧ match_at re text position = Some m
    ∧ decoded_dict re text m = Ok (value_dict record).
Proof.
  intros (re & m & Hfirst & _ & Hty & Hd)%scan_yield.
  apply first_match_inv in Hfirst as (before & after & Hre & _ & Hm).
  assert (re ∈ _qif_record_regexes) as Hin by (rewrite Hre; set_solver).
  destruct (record_patterns re Hin) as [name Hname].
  exists re, m, name. split_and!; try done.
  rewrite Hty. by eapply match_at_record_pattern.
Qed.

Lemma record_pattern_category re :
  re ∈ _qif_record_regexes → record_pattern "CATEGORY" re → re = CATEGORY.
Proof.
  unfold _qif_record_regexes. rewrite !elem_of_cons, elem_of_nil.
  intros Hin (marker & [[body H]|H]); destruct_or!; subst; try done;
    by inversion H.
Qed.

Lemma record_pattern_split re :
  re ∈ _qif_record_regexes → record_pattern "SPLIT" re → re = SPLIT.
Proof.
  unfold _qif_record_regexes. rewrite !elem_of_cons, elem_of_nil.
  intros Hin (marker & [[body H]|H]); destruct_or!; subst; try done;
    by inversion H.
Qed.

(** The category the scanner yields is a [str]. *)
Lemma scan_category text position record position' :
  scan text position = Yield record position' →
  type record = Some "CATEGORY" →
  ∃ s, value_dict record !! "value" = Some (VStr s).
Proof.
  intros (re & m & name & Hin & Hname & Hty & Hm & Hd)%scan_pattern Hcat.
  rewrite Hty in Hcat. injection Hcat as ->.
  apply record_pattern_category in Hname as ->; [|done].
  apply match_category in Hm as [[s e] Hv].
  unfold decoded_dict, groupdict in Hd.
  change (group_names CATEGORY) with ["CATEGORY"; "value"] in Hd.
  cbn [map] in Hd. rewrite Hv in Hd.
  destruct (spans (m_marks m) !! "CATEGORY") as [[s0 e0]|]; simpl in Hd.
  - destruct (Py.utf8_decode (slice text s0 e0)); simpl in Hd; [|done].
    destruct (Py.utf8_decode (slice text s e)); simpl in Hd; [|done].
    injection Hd as <-. by eexists.
  - destruct (Py.utf8_decode (slice text s e)); simpl in Hd; [|done].
    injection Hd as <-. by eexists.
Qed.

Lemma scan_split_category text position record position' :
  scan text position = Yield record position' →
  type record = Some "SPLIT" →
  ∃ s, value_dict record !! "category" = Some (VStr s).
Proof.
  intros (re & m & name & Hin & Hname & Hty & Hm & Hd)%scan_pattern Hcat.
  rewrite Hty in Hcat. injection Hcat as ->.
  apply record_pattern_split in Hname as ->; [|done].
  apply match_split in Hm as [[s e] Hv].
  unfold decoded_dict, groupdict in Hd.
  change (group_names SPLIT) with ["SPLIT"; "category"; "memo"; "amount"] in Hd.
  cbn [map] in Hd. rewrite Hv in Hd.
  apply bind_Ok in Hd as (items & Hitems & [= <-]).
  cbn [mapM] in Hitems.
  apply bind_Ok in Hitems as (i1 & Hi1 & Hitems).
  apply bind_Ok in Hitems as (tl1 & Hitems & [= <-]).
  apply bind_Ok in Hitems as (i2 & Hi2 & Hitems).
  apply bind_Ok in Hitems as (tl2 & Hitems & [= <-]).
  apply bind_Ok in Hitems as (i3 & Hi3 & Hitems).
  apply bind_Ok in Hitems as (tl3 & Hitems & [= <-]).
  apply bind_Ok in Hitems as (i4 & Hi4 & Hitems).
  apply bind_Ok in Hitems as (tl4 & Hitems & [= <-]).
  apply bind_Ok in Hi1 as (v1 & _ & [= <-]).
  apply bind_Ok in Hi2 as (v2 & Hv2 & [= <-]).
  apply bind_Ok in Hi3 as (v3 & _ & [= <-]).
  apply bind_Ok in Hi4 as (v4 & _ & [= <-]).
  simpl in Hv2. destruct (Py.utf8_decode (slice text s e)) as [c|]; [|done].
  injection Hv2 as <-. exists c. simpl.
  rewrite lookup_insert_ne by done. by rewrite lookup_insert_eq.
Qed.

(** What the scanner yields and a caster lets through is a record
    [qif2ledger] can work on. *)
Lemma cast_scanned_ready text position r position' r' :
  scan text position = Yield r position' →
  cast r = Ok r' →
  ledger_ready r'.
Proof.
  intros Hscan Hcast. pose proof (cast_type _ _ Hcast) as Hty.
  unfold ledger_ready. rewrite Hty. unfold cast in Hcast. split_and!.
  - intros H. rewrite H in Hcast.
    apply cast_date_shape in Hcast as [_ [d ->]]. exists d.
    by rewrite lookup_singleton_eq.
  - intros [H|H]; rewrite H in Hcast;
      apply cast_general_shape in Hcast as [_ (v & _ & ->)]; exists v;
      by rewrite lookup_singleton_eq.
  - intros [H|H]; rewrite H in Hcast;
      apply cast_amount_shape in Hcast as [_ [f ->]]; exists f;
      by rewrite lookup_singleton_eq.
  - intros H. rewrite H in Hcast.
    destruct (scan_category _ _ _ _ Hscan H) as [s Hs].
    apply cast_general_shape in Hcast as [_ (v & Hv & ->)]. exists s.
    rewrite lookup_singleton_eq. congruence.
  - intros H. rewrite H in Hcast.
    destruct (scan_split_category _ _ _ _ Hscan H) as [s Hs].
    apply cast_split_shape in Hcast as [_ (c & f & Hc & Hshape)].
    exists s, f. assert (c = VStr s) as -> by congruence.
    destruct Hshape as [[_ ->]|(memo & _ & ->)].
    + split; [by rewrite lookup_insert_ne, lookup_singleton_eq
             |by rewrite lookup_insert_eq].
    + split; [by rewrite !lookup_insert_ne, lookup_singleton_eq
             |by rewrite lookup_insert_ne, lookup_insert_eq].
Qed.

Lemma recordize_from_scanned fuel text position :
  Forall (λ r, ∃ p p', scan text p = Yield r p')
         (recordize_from fuel text position).1.
Proof.
  revert position. induction fuel as [|fuel IH]; intros position; simpl.
  { constructor. }
  destruct (scan text position) as [r p'|e] eqn:E; [|constructor].
  simpl. constructor; [by eauto|apply IH].
Qed.

Lemma parse_loop_ready ttype0 records0 rs fin :
  Forall ledger_ready records0 →
  Forall (λ r, ∀ r', cast r = Ok r' → ledger_ready r') rs →
  Forall (λ t, Forall ledger_ready (records t))
         (parse_loop ttype0 records0 rs fin).1.
Proof.
  revert ttype0 records0.
  induction rs as [|r rs IH]; intros ttype0 records0 Hrec Hrs; simpl.
  { constructor. }
  apply Forall_cons in Hrs as [Hr Hrs].
  destruct (has_type r "END").
  - simpl. constructor; [done|]. apply IH; [constructor|done].
  - destruct (cast r) as [r'|e] eqn:Hcast; [|constructor].
    apply IH; [|done]. apply Forall_app. split; [done|].
    constructor; [by apply Hr|constructor].
Qed.

Lemma parse_ready text :
  Forall (λ t, Forall ledger_ready (records t)) (parse text).1.
Proof.
  assert (∀ b, Forall (λ t, Forall ledger_ready (records t)) (parse_bytes b).1)
    as Hbytes.
  { intros b. unfold parse_bytes.
    pose proof (recordize_from_scanned (S (length b)) b 0) as Hsc.
    fold (_recordize b) in Hsc. destruct (_recordize b) as [rs fin].
    apply parse_loop_ready; [constructor|].
    eapply Forall_impl; [exact Hsc|]. simpl.
    intros r (p & p' & Hscan) r' Hcast. by eapply cast_scanned_ready. }
  destruct text as [s|b]; simpl; [|apply Hbytes].
  destruct (Py.utf8_encode s); [apply Hbytes|constructor].
Qed.

End ParsedRecords.

(** X21: on every transaction the parser yields, from any input,
    qif2ledger finds the fields it reads, with the types it needs: it
    returns a dictionary, or else the transaction has no Split record
    and lacks a Category or an amount record, and qif2ledger raises
    UnboundLocalError; it raises no KeyError, TypeError or
    AttributeError. *)
Theorem qif2ledger_on_parsed text asset t :
  t ∈ (parse text).1 →
  (∃ l, Ledger.qif2ledger t asset = Ledger.Return l)
  ∨ (splits (records t) = []
     ∧ (categories (records t) = [] ∨ amounts (records t) = [])
     ∧ ∃ name, Ledger.qif2ledger t asset
               = Ledger.Throw (Ledger.UnboundLocalError name)).
Proof.
  intros Ht.
  pose proof (parse_ready text) as Hall.
  rewrite Forall_forall in Hall. specialize (Hall t Ht).
  destruct (loop_ready _ Hall) as (st & Hloop & _ & _ & _ & _ & Hacc & Ham & Hps).
  unfold Ledger.qif2ledger. rewrite Hloop. simpl.
  case_bool_decide as Hlen; [|left; by eexists].
  apply nil_length_inv in Hlen. rewrite Hlen in Hps.
  apply Forall2_nil_inv_r in Hps.
  destruct (last (categories (records t))) as [c|] eqn:Hc.
  - destruct (last (amounts (records t))) as [f|] eqn:Hf.
    + left. simpl in Hacc, Ham. rewrite Hacc, Ham. simpl. by eexists.
    + right. apply last_None in Hf. split_and!; [done|by right|].
      simpl in Hacc, Ham. rewrite Hacc, Ham. simpl. by eexists.
  - right. apply last_None in Hc. split_and!; [done|by left|].
    simpl in Hacc. rewrite Hacc. simpl. by eexists.
Qed.

Lemma qif2ledger_on_parsed_witness :
  (∃ l, Ledger.qif2ledger
          (mkTransaction "NORMAL"
             [record_of "T_AMOUNT" [("amount", amount_of true 7 0)];
              record_of "CATEGORY" [("value", txt "food")]])
          VNone
        = Ledger.Return l)
  ∨ (splits [record_of "T_AMOUNT" [("amount", amount_of true 7 0)];
             record_of "CATEGORY" [("value", txt "food")]] = []
     ∧ (categories [record_of "T_AMOUNT" [("amount", amount_of true 7 0)];
                    record_of "CATEGORY" [("value", txt "food")]] = []
        ∨ amounts [record_of "T_AMOUNT" [("amount", amount_of true 7 0)];
                   record_of "CATEGORY" [("value", txt "food")]] = [])
     ∧ ∃ name,
         Ledger.qif2ledger
           (mkTransaction "NORMAL"
              [record_of "T_AMOUNT" [("amount", amount_of true 7 0)];
               record_of "CATEGORY" [("value", txt "food")]])
           VNone
         = Ledger.Throw (Ledger.UnboundLocalError name)).
Proof.
  apply (qif2ledger_on_parsed
           (Bytes (bytes_of "T-7" ++ [LF] ++ bytes_of "Lfood" ++ [LF]
                   ++ bytes_of "^" ++ [LF]))
           VNone
           (mkTransaction "NORMAL"
              [record_of "T_AMOUNT" [("amount", amount_of true 7 0)];
               record_of "CATEGORY" [("value", txt "food")]])).
  vm_compute. repeat constructor.
Defined.
